(** * Resizer core of OpenROAD: sizing search, buffer removal, journal

    A shallow embedding of the parts of [Resizer.cc] that decide the
    properties stated below, and their proofs.

    Conventions of the embedding.
    - C++ [float]/[double] quantities (capacitance, delay, slew, area) are
      exact rationals [Q]: comparisons, [abs], [max], the factor [1.1] and
      the tolerance [.01] are kept as written; rounding, overflow and NaN
      are outside the model.
    - Objects handled through pointers are named: an instance, a net, a
      liberty cell and a port are identified by their (unique) names, and a
      nullable pointer is an [option].
    - Code that dereferences a null pointer has no defined behaviour: the
      functions that can do so return [None] there. *)

From Stdlib Require Import QArith Qabs Qround Lqa ZArith Lia.
From stdpp Require Import gmap strings list pretty.

Open Scope Q_scope.

(** ** Arithmetic of the C++ source *)

Module Num.

(** [a < b] on floats. *)
Definition Qltb (x y : Q) : bool :=
  match x ?= y with Lt => true | _ => false end.

(** [std::max(a, b)] is [(a < b) ? b : a]. *)
Definition fmax (a b : Q) : Q := if Qltb a b then b else a.

End Num.
Export Num.

(** ** Liberty library data *)

Inductive RiseFall := Rise | Fall.

#[global] Instance RiseFall_eq_dec : EqDecision RiseFall.
Proof. solve_decision. Defined.

(** A two-element array indexed by [RiseFall::index()]. *)
Record RiseFallValues := { rise_value : Q; fall_value : Q }.

Definition rf_get (a : RiseFallValues) (rf : RiseFall) : Q :=
  match rf with Rise => rise_value a | Fall => fall_value a end.

Definition rf_set (a : RiseFallValues) (rf : RiseFall) (v : Q) : RiseFallValues :=
  match rf with
  | Rise => {| rise_value := v; fall_value := fall_value a |}
  | Fall => {| rise_value := rise_value a; fall_value := v |}
  end.

(** [a[rf] = max(a[rf], v)]. *)
Definition rf_max (a : RiseFallValues) (rf : RiseFall) (v : Q) : RiseFallValues :=
  rf_set a rf (fmax (rf_get a rf) v).

(** A liberty port is named by its cell and its own name. *)
Abbreviation LibertyPort := (string * string)%type.

(** Result of the delay calculator for one arc. *)
Record ArcDcalcResult := { gateDelay : Q; drvrSlew : Q }.

(** The timing model of an arc: a gate model maps input slew and load
    capacitance to the arc delay and the output slew; any other model is
    what [dynamic_cast<GateTimingModel*>] rejects. *)
Inductive TimingModel :=
| GateTimingModel (gate_delay : Q -> Q -> ArcDcalcResult)
| OtherTimingModel.

Record TimingArc := {
  arc_from : LibertyPort;
  fromEdge : RiseFall;
  toEdge : RiseFall;
  arc_model : TimingModel }.

Record TimingArcSet := {
  set_to : LibertyPort;
  role_isTimingCheck : bool;
  arcs : list TimingArc }.

(** The direction of a port, by the answers to the two queries the resizer
    makes on it: [PortDirection::isAnyOutput] and
    [PortDirection::isAnyTristate]. *)
Record PortDirection := { isAnyOutput : bool; isAnyTristate : bool }.

Record LibertyCell := {
  cell_lib : string;
  cell_name : string;
  isBuffer : bool;
  isInverter : bool;
  bufferPorts : string * string;
  cell_dontUse : bool;
  footprint : option string;
  userFunctionClass : option string;
  cell_ports : list (string * PortDirection);
  timingArcSets : list TimingArcSet }.

(** The identity of a liberty cell (its address in the source): the
    library it belongs to and its name in that library. *)
Definition cell_key (c : LibertyCell) : string * string := (cell_lib c, cell_name c).

(** Pointer comparison [a == b] of liberty cells. *)
Definition same_cell (a b : LibertyCell) : bool :=
  bool_decide (cell_key a = cell_key b).

(** ** Delay/slew query adapter *)

(** What [gateDelays] reads from the engine: its constant [sta::INF] for
    infinity, the delay calculator [arc_delay_calc_->gateDelay] at the
    analysis point in use, the annotated input slews [input_slew_map_] and
    the target slews [tgt_slews_]. *)
Record DelayEnv := {
  INF : Q;
  arc_delay_calc_gateDelay : TimingArc -> Q -> Q -> ArcDcalcResult;
  input_slew_map_ : gmap LibertyPort RiseFallValues;
  tgt_slews_ : RiseFallValues }.

Section GateDelays.
Variable env : DelayEnv.

(** The input slew [gateDelays] feeds to an arc: the annotated slew of
    the arc's source port if there is one, else the target slew. *)
Definition arc_in_slew (arc : TimingArc) : Q :=
  match input_slew_map_ env !! arc_from arc with
  | Some slew => rf_get slew (fromEdge arc)
  | None => rf_get (tgt_slews_ env) (fromEdge arc)
  end.

Definition arc_dcalc (load_cap : Q) (arc : TimingArc) : ArcDcalcResult :=
  arc_delay_calc_gateDelay env arc (arc_in_slew arc) load_cap.

(** Body of the inner loop over [arc_set->arcs()]. *)
Definition gateDelays_arc (load_cap : Q)
    (acc : RiseFallValues * RiseFallValues) (arc : TimingArc)
    : RiseFallValues * RiseFallValues :=
  let out_rf := toEdge arc in
  let dcalc_result := arc_dcalc load_cap arc in
  (rf_max (fst acc) out_rf (gateDelay dcalc_result),
   rf_max (snd acc) out_rf (drvrSlew dcalc_result)).

(** Body of the outer loop over [cell->timingArcSets()]. *)
Definition gateDelays_set (drvr_port : LibertyPort) (load_cap : Q)
    (acc : RiseFallValues * RiseFallValues) (arc_set : TimingArcSet)
    : RiseFallValues * RiseFallValues :=
  if bool_decide (set_to arc_set = drvr_port) && negb (role_isTimingCheck arc_set)
  then fold_left (gateDelays_arc load_cap) (arcs arc_set) acc
  else acc.

(** [Resizer::gateDelays(drvr_port, load_cap, dcalc_ap, delays, slews)];
    [cell] is [drvr_port->libertyCell()]. Returns [(delays, slews)]. *)
Definition gateDelays (cell : LibertyCell) (drvr_port : LibertyPort) (load_cap : Q)
    : RiseFallValues * RiseFallValues :=
  let init := {| rise_value := - INF env; fall_value := - INF env |} in
  fold_left (gateDelays_set drvr_port load_cap) (timingArcSets cell) (init, init).

(** [Resizer::bufferDelay(buffer_cell, load_cap, dcalc_ap)]. *)
Definition bufferDelay (buffer_cell : LibertyCell) (load_cap : Q) : Q :=
  let output := (cell_name buffer_cell, snd (bufferPorts buffer_cell)) in
  let gate_delays := fst (gateDelays buffer_cell output load_cap) in
  fmax (rf_get gate_delays Rise) (rf_get gate_delays Fall).

(** The arcs [gateDelays] evaluates, in the order it visits them. *)
Definition drvr_arcs (cell : LibertyCell) (drvr_port : LibertyPort) : list TimingArc :=
  concat (map arcs
    (filter (fun arc_set => set_to arc_set = drvr_port /\ role_isTimingCheck arc_set = false)
            (timingArcSets cell))).

End GateDelays.

(** ** The netlist database *)

Abbreviation Instance := string.
Abbreviation Net := string.

(** A pin is a pin of an instance or a top-level port. *)
Inductive Pin :=
| ITermPin (inst : Instance) (port : string)
| BTermPin (port : string).

#[global] Instance Pin_eq_dec : EqDecision Pin.
Proof. solve_decision. Defined.

#[global] Instance Pin_countable : Countable Pin.
Proof.
  refine (inj_countable'
    (fun p => match p with ITermPin i q => inl (i, q) | BTermPin q => inr q end)
    (fun x => match x with inl (i, q) => ITermPin i q | inr q => BTermPin q end) _).
  intros []; reflexivity.
Defined.

(** A master, by what the resizer asks of it: whether its type is
    [dbMasterType::CORE], whether it is a pad, a filler, core
    auto-placeable, its size, and its terminals with their directions. *)
Record dbMaster := {
  master_isCORE : bool;
  master_isPad : bool;
  master_isFiller : bool;
  master_isCoreAutoPlaceable : bool;
  master_width : Z;
  master_height : Z;
  master_mterms : list (string * PortDirection) }.

(** The placement status is kept as whether it is a fixed one; [PLACED],
    which [removeBuffer] sets, is not. *)
Record dbInst := {
  inst_master : string;
  inst_doNotTouch : bool;
  inst_isFixed : bool;
  inst_location : Z * Z }.

Record dbNet := { net_doNotTouch : bool }.

(** Instances, nets, the net of each connected instance pin and the net
    of each top-level port. *)
Record Netlist := {
  db_masters : gmap string dbMaster;
  db_insts : gmap Instance dbInst;
  db_nets : gmap Net dbNet;
  iterm_net : gmap (Instance * string) Net;
  bterm_net : gmap string Net }.

(** Modelled from the spec: the ECO checkpoint of the database
    ([beginEco], [endEco], [undoEco], [ecoEmpty] live in odb, outside the
    given sources): a checkpoint remembers the netlist at [beginEco] and
    counts the primitive edits recorded since; [undoEco] reverses them. *)
Record Database := {
  block_ : Netlist;
  eco_open : bool;
  eco_base : Netlist;
  eco_edits : nat }.

(** Modelled from the spec: [beginEco] opens a checkpoint at the current
    netlist. *)
Definition beginEco (d : Database) : Database :=
  {| block_ := block_ d; eco_open := true; eco_base := block_ d; eco_edits := 0 |}.

(** Modelled from the spec: [endEco] closes the checkpoint; what it
    recorded can still be undone. *)
Definition endEco (d : Database) : Database :=
  {| block_ := block_ d; eco_open := false; eco_base := eco_base d;
     eco_edits := eco_edits d |}.

(** Modelled from the spec: [ecoEmpty], the checkpoint recorded no edit. *)
Definition ecoEmpty (d : Database) : bool := Nat.eqb (eco_edits d) 0.

(** Modelled from the spec: [undoEco] reverses every recorded edit, which
    gives back the netlist of the checkpoint. *)
Definition undoEco (d : Database) : Database :=
  {| block_ := eco_base d; eco_open := eco_open d; eco_base := eco_base d;
     eco_edits := 0 |}.

(** A primitive edit of the netlist, recorded while a checkpoint is open. *)
Definition db_edit (f : Netlist -> Netlist) (d : Database) : Database :=
  {| block_ := f (block_ d); eco_open := eco_open d; eco_base := eco_base d;
     eco_edits := if eco_open d then S (eco_edits d) else eco_edits d |}.

Definition set_db_insts (v : gmap Instance dbInst) (n : Netlist) : Netlist :=
  {| db_masters := db_masters n; db_insts := v; db_nets := db_nets n;
     iterm_net := iterm_net n; bterm_net := bterm_net n |}.

Definition set_db_nets (v : gmap Net dbNet) (n : Netlist) : Netlist :=
  {| db_masters := db_masters n; db_insts := db_insts n; db_nets := v;
     iterm_net := iterm_net n; bterm_net := bterm_net n |}.

Definition set_iterm_net (v : gmap (Instance * string) Net) (n : Netlist) : Netlist :=
  {| db_masters := db_masters n; db_insts := db_insts n; db_nets := db_nets n;
     iterm_net := v; bterm_net := bterm_net n |}.

Definition set_bterm_net (v : gmap string Net) (n : Netlist) : Netlist :=
  {| db_masters := db_masters n; db_insts := db_insts n; db_nets := db_nets n;
     iterm_net := iterm_net n; bterm_net := v |}.

(** Modelled from the spec: [dbInst::setDoNotTouch] (odb) sets the
    dont-touch flag of the instance. *)
Definition inst_setDoNotTouch (i : Instance) (v : bool) (n : Netlist) : Netlist :=
  set_db_insts
    (alter (fun di => {| inst_master := inst_master di; inst_doNotTouch := v;
                         inst_isFixed := inst_isFixed di;
                         inst_location := inst_location di |}) i (db_insts n)) n.

(** Modelled from the spec: [dbInst::setPlacementStatus(PLACED)] (odb)
    makes the placement of the instance not fixed. *)
Definition inst_setPlaced (i : Instance) (n : Netlist) : Netlist :=
  set_db_insts
    (alter (fun di => {| inst_master := inst_master di;
                         inst_doNotTouch := inst_doNotTouch di;
                         inst_isFixed := false;
                         inst_location := inst_location di |}) i (db_insts n)) n.

(** Modelled from the spec: [dbNet::setDoNotTouch] (odb) sets the
    dont-touch flag of the net. *)
Definition net_setDoNotTouch (x : Net) (v : bool) (n : Netlist) : Netlist :=
  set_db_nets (alter (fun _ => {| net_doNotTouch := v |}) x (db_nets n)) n.

(** Modelled from the spec: [sta_->replaceCell(inst, cell)] (the timing
    engine's edit, outside the given sources) rebinds the cell of the
    instance; its pins keep their identities and connections. *)
Definition sta_replaceCell (i : Instance) (master : string) (n : Netlist) : Netlist :=
  set_db_insts
    (alter (fun di => {| inst_master := master;
                         inst_doNotTouch := inst_doNotTouch di;
                         inst_isFixed := inst_isFixed di;
                         inst_location := inst_location di |}) i (db_insts n)) n.

(** Modelled from the spec: [dbNet::mergeNet] (odb, outside the given
    sources) moves every instance pin and every top-level port of the
    merged net onto the surviving net. *)
Definition mergeNet (survivor removed : Net) (n : Netlist) : Netlist :=
  let move := fun x : Net => if decide (x = removed) then survivor else x in
  set_bterm_net (move <$> bterm_net n) (set_iterm_net (move <$> iterm_net n) n).

(** Modelled from the spec: [sta_->disconnectPin] (outside the given
    sources) takes the pin off its net; disconnecting a pin that is not
    connected changes nothing. *)
Definition disconnectPin (p : Pin) (n : Netlist) : Netlist :=
  match p with
  | ITermPin i q => set_iterm_net (delete (i, q) (iterm_net n)) n
  | BTermPin q => set_bterm_net (delete q (bterm_net n)) n
  end.

(** Modelled from the spec: [sta_->deleteInstance] (outside the given
    sources) removes the instance, with its pins. *)
Definition deleteInstance (i : Instance) (n : Netlist) : Netlist :=
  set_iterm_net (filter (fun kv => fst (fst kv) <> i) (iterm_net n))
    (set_db_insts (delete i (db_insts n)) n).

(** Modelled from the spec: [sta_->deleteNet] (outside the given sources)
    removes the net, with whatever is still connected to it. *)
Definition deleteNet (x : Net) (n : Netlist) : Netlist :=
  set_bterm_net (filter (fun kv => snd kv <> x) (bterm_net n))
    (set_iterm_net (filter (fun kv => snd kv <> x) (iterm_net n))
       (set_db_nets (delete x (db_nets n)) n)).

(** [db_network_->net(pin)]: the net of a pin, null if it is not connected. *)
Definition net_of_pin (n : Netlist) (p : Pin) : option Net :=
  match p with
  | ITermPin i q => iterm_net n !! (i, q)
  | BTermPin q => bterm_net n !! q
  end.

(** [!db_net->getBTerms().empty()]. *)
Definition has_bterms (n : Netlist) (x : Net) : bool :=
  bool_decide (map_Exists (fun _ y => y = x) (bterm_net n)).

(** ** The resizer *)

Inductive ParasiticsSrc := src_none | src_placement | src_global_routing | src_detailed_routing.

#[global] Instance ParasiticsSrc_eq_dec : EqDecision ParasiticsSrc.
Proof. solve_decision. Defined.

(** What the resizer reads from its collaborators and does not change in
    the operations below: the linked liberty cells by name
    ([network_->findLibertyCell]), the equivalent-cell classes
    ([sta_->equivCells]), the delay calculator, the load capacitance of a
    driver pin ([graph_delay_calc_->loadCap]), the target loads, the
    don't-use cells, the SDC constraints ([sdc_->isConstrained]) and the
    units of the technology. *)
Record Engine := {
  liberty : gmap string LibertyCell;
  sta_equivCells : gmap (string * string) (list LibertyCell);
  delay_env : DelayEnv;
  graph_delay_calc_loadCap : Pin -> Q;
  target_load_map_ : gmap (string * string) Q;
  dont_use_ : gset (string * string);
  match_cell_footprint_ : bool;
  parasitics_src_ : ParasiticsSrc;
  sdc_pins : gset Pin;
  sdc_nets : gset Net;
  sdc_insts : gset Instance;
  top_instance_name : string;
  dbu_ : Z }.

(** The restoration record of a removed buffer. *)
Record BufferData := {
  bd_lib_cell : LibertyCell;
  bd_driver_pin : string * string;
  bd_load_pins : list (string * string);
  bd_location : Z * Z;
  bd_parent : string }.

(** The per-kind logs of a journal transaction; [cloned_gates_] is a stack
    with its top first. *)
Record Journal := {
  resized_inst_map_ : gmap Instance (option LibertyCell);
  inserted_buffers_ : list Instance;
  inserted_buffer_set_ : gset Instance;
  cloned_gates_ : list (Instance * Instance);
  cloned_inst_set_ : gset Instance;
  swapped_pins_ : gmap Instance (LibertyPort * LibertyPort);
  removed_buffer_map_ : gmap string BufferData;
  all_sized_inst_set_ : gset Instance;
  all_inserted_buffer_set_ : gset Instance;
  all_swapped_pin_inst_set_ : gset Instance;
  all_cloned_inst_set_ : gset Instance }.

Record Resizer := {
  engine : Engine;
  db_ : Database;
  parasitics_invalid_ : gset Net;
  resized_multi_output_insts_ : gset Instance;
  design_area_ : Q;
  journal_ : Journal;
  callback_registered_ : bool;
  incremental_parasitics_enabled_ : bool }.

Definition set_db (v : Database) (r : Resizer) : Resizer :=
  {| engine := engine r; db_ := v; parasitics_invalid_ := parasitics_invalid_ r;
     resized_multi_output_insts_ := resized_multi_output_insts_ r;
     design_area_ := design_area_ r; journal_ := journal_ r;
     callback_registered_ := callback_registered_ r;
     incremental_parasitics_enabled_ := incremental_parasitics_enabled_ r |}.

Definition set_parasitics_invalid (v : gset Net) (r : Resizer) : Resizer :=
  {| engine := engine r; db_ := db_ r; parasitics_invalid_ := v;
     resized_multi_output_insts_ := resized_multi_output_insts_ r;
     design_area_ := design_area_ r; journal_ := journal_ r;
     callback_registered_ := callback_registered_ r;
     incremental_parasitics_enabled_ := incremental_parasitics_enabled_ r |}.

Definition set_resized_multi_output_insts (v : gset Instance) (r : Resizer) : Resizer :=
  {| engine := engine r; db_ := db_ r; parasitics_invalid_ := parasitics_invalid_ r;
     resized_multi_output_insts_ := v;
     design_area_ := design_area_ r; journal_ := journal_ r;
     callback_registered_ := callback_registered_ r;
     incremental_parasitics_enabled_ := incremental_parasitics_enabled_ r |}.

Definition set_design_area (v : Q) (r : Resizer) : Resizer :=
  {| engine := engine r; db_ := db_ r; parasitics_invalid_ := parasitics_invalid_ r;
     resized_multi_output_insts_ := resized_multi_output_insts_ r;
     design_area_ := v; journal_ := journal_ r;
     callback_registered_ := callback_registered_ r;
     incremental_parasitics_enabled_ := incremental_parasitics_enabled_ r |}.

Definition set_journal (v : Journal) (r : Resizer) : Resizer :=
  {| engine := engine r; db_ := db_ r; parasitics_invalid_ := parasitics_invalid_ r;
     resized_multi_output_insts_ := resized_multi_output_insts_ r;
     design_area_ := design_area_ r; journal_ := v;
     callback_registered_ := callback_registered_ r;
     incremental_parasitics_enabled_ := incremental_parasitics_enabled_ r |}.

Definition set_callback_registered (v : bool) (r : Resizer) : Resizer :=
  {| engine := engine r; db_ := db_ r; parasitics_invalid_ := parasitics_invalid_ r;
     resized_multi_output_insts_ := resized_multi_output_insts_ r;
     design_area_ := design_area_ r; journal_ := journal_ r;
     callback_registered_ := v;
     incremental_parasitics_enabled_ := incremental_parasitics_enabled_ r |}.

Definition set_incremental_parasitics_enabled (v : bool) (r : Resizer) : Resizer :=
  {| engine := engine r; db_ := db_ r; parasitics_invalid_ := parasitics_invalid_ r;
     resized_multi_output_insts_ := resized_multi_output_insts_ r;
     design_area_ := design_area_ r; journal_ := journal_ r;
     callback_registered_ := callback_registered_ r;
     incremental_parasitics_enabled_ := v |}.

(** The netlist the resizer works on. *)
Definition netlist (r : Resizer) : Netlist := block_ (db_ r).

(** A primitive edit of the netlist through the database. *)
Definition edit (f : Netlist -> Netlist) (r : Resizer) : Resizer :=
  set_db (db_edit f (db_ r)) r.

(** [network_->libertyCell(inst)]: the liberty cell linked to the master
    of the instance; null if there is none. *)
Definition libertyCell (r : Resizer) (inst : Instance) : option LibertyCell :=
  match db_insts (netlist r) !! inst with
  | Some di => liberty (engine r) !! inst_master di
  | None => None
  end.

(** [network_->libertyPort(pin)->direction()]: null for a top-level port
    and for a pin without a liberty port. *)
Definition libertyPort_direction (r : Resizer) (pin : Pin) : option PortDirection :=
  match pin with
  | ITermPin inst port =>
      match libertyCell r inst with
      | Some cell =>
          (fun x => snd (snd x)) <$> list_find (fun pd => fst pd = port) (cell_ports cell)
      | None => None
      end
  | BTermPin _ => None
  end.

(** [Resizer::isLinkCell]. *)
Definition isLinkCell (r : Resizer) (cell : LibertyCell) : bool :=
  match liberty (engine r) !! cell_name cell with
  | Some c => same_cell c cell
  | None => false
  end.

(** [Resizer::dontUse]. *)
Definition dontUse (r : Resizer) (cell : LibertyCell) : bool :=
  cell_dontUse cell || bool_decide (cell_key cell ∈ dont_use_ (engine r)).

(** [Resizer::hasPort]. *)
Definition hasPort (r : Resizer) (net : option Net) : bool :=
  match net with
  | None => false
  | Some x => has_bterms (netlist r) x
  end.

(** ** Parasitics invalidation tracker *)

(** Modelled from the spec: [parasiticsInvalid] (defined outside the given
    sources) marks the net as having stale parasitics. *)
Definition parasiticsInvalid (net : Net) (r : Resizer) : Resizer :=
  set_parasitics_invalid ({[net]} ∪ parasitics_invalid_ r) r.

(** Modelled from the spec: [updateParasitics] (defined outside the given
    sources) re-derives the parasitics of every net in the set and then
    clears it. The parasitics themselves are not part of the state. *)
Definition updateParasitics (r : Resizer) : Resizer :=
  set_parasitics_invalid ∅ r.

(** [Resizer::invalidateParasitics(pin, net)]. With a net, the liberty
    port of the pin is dereferenced. *)
Definition invalidateParasitics (pin : Pin) (net : option Net) (r : Resizer)
    : option Resizer :=
  match net with
  | None => Some r
  | Some x =>
      match libertyPort_direction r pin with
      | None => None
      | Some direction =>
          if negb (isAnyTristate direction) then Some (parasiticsInvalid x r)
          else Some r
      end
  end.

(** [Resizer::eraseParasitics]. *)
Definition eraseParasitics (net : Net) (r : Resizer) : Resizer :=
  set_parasitics_invalid (parasitics_invalid_ r ∖ {[net]}) r.

(** Modelled from the spec: [incrementalParasiticsBegin] and
    [incrementalParasiticsEnd] (defined outside the given sources) open and
    close the period in which parasitics are updated incrementally. *)
Definition incrementalParasiticsBegin (r : Resizer) : Resizer :=
  set_incremental_parasitics_enabled true r.

Definition incrementalParasiticsEnd (r : Resizer) : Resizer :=
  set_incremental_parasitics_enabled false r.

(** ** Design area *)

(** [Resizer::dbuToMeters]. *)
Definition dbuToMeters (r : Resizer) (dist : Z) : Q :=
  inject_Z dist / (inject_Z (dbu_ (engine r)) * inject_Z (10 ^ 6)).

(** [Resizer::area] of a master. *)
Definition area (r : Resizer) (master : dbMaster) : Q :=
  if negb (master_isCoreAutoPlaceable master) then 0
  else dbuToMeters r (master_width master) * dbuToMeters r (master_height master).

(** [Resizer::designAreaIncr]. *)
Definition designAreaIncr (delta : Q) (r : Resizer) : Resizer :=
  set_design_area (design_area_ r + delta) r.

(** [Resizer::initDesignArea]. *)
Definition initDesignArea (r : Resizer) : Resizer :=
  set_design_area
    (map_fold (fun _ di acc =>
       match db_masters (netlist r) !! inst_master di with
       | Some master => if negb (master_isFiller master) then acc + area r master else acc
       | None => acc
       end) 0 (db_insts (netlist r))) r.

(** [Resizer::init()]: of its effects (block, levelization, graph) the
    state keeps the design area. *)
Definition init (r : Resizer) : Resizer := initDesignArea r.

(** ** Target characterization *)

(** The loop state of the search for the target load of an arc. *)
Record LoadSearch := { load_cap1 : Q; load_cap2 : Q; diff2 : Q }.

Section TargetLoad.
(** [model->gateDelay(pvt, in_slew, load_cap, false, arc_delay, arc_slew)]. *)
Variable model : Q -> Q -> ArcDcalcResult.
Variables in_slew out_slew : Q.

(** [Resizer::gateSlewDiff], the objective function. *)
Definition gateSlewDiff (load_cap : Q) : Q :=
  drvrSlew (model in_slew load_cap) - out_slew.

Definition tol : Q := 1 # 100.


(** The loop body. *)
Definition search_step (s : LoadSearch) : LoadSearch :=
  if Qltb (diff2 s) 0 then
    let load_cap2' := load_cap2 s * 2 in
    {| load_cap1 := load_cap2 s; load_cap2 := load_cap2';
       diff2 := gateSlewDiff load_cap2' |}
  else
    let load_cap3 := (load_cap1 s + load_cap2 s) / 2 in
    let diff3 := gateSlewDiff load_cap3 in
    if Qltb diff3 0 then
      {| load_cap1 := load_cap3; load_cap2 := load_cap2 s; diff2 := diff2 s |}
    else
      {| load_cap1 := load_cap1 s; load_cap2 := load_cap3; diff2 := diff3 |}.



End TargetLoad.



(** ** Sizing engine *)

(** [targetLoadDist]. *)
Definition targetLoadDist (load_cap target_load : Q) : Q :=
  Qabs (load_cap - target_load).

(** [sta::stringEqIf], the comparison of two optional attributes in the
    timing engine: both null, or both set and equal. *)
Definition stringEqIf (a b : option string) : bool :=
  match a, b with
  | None, None => true
  | Some x, Some y => bool_decide (x = y)
  | _, _ => false
  end.

(** [Resizer::getSwappableCells]. *)
Definition getSwappableCells (r : Resizer) (source_cell : LibertyCell) : list LibertyCell :=
  match sta_equivCells (engine r) !! cell_key source_cell with
  | Some equiv_cells =>
      List.filter (fun equiv_cell =>
        (if match_cell_footprint_ (engine r)
         then stringEqIf (footprint source_cell) (footprint equiv_cell) else true)
        && (match userFunctionClass source_cell with
            | Some _ =>
                stringEqIf (userFunctionClass source_cell) (userFunctionClass equiv_cell)
            | None => true
            end)) equiv_cells
  | None => []
  end.

(** The read [target_load_map_[cell]] through [operator[]]: a missing key reads as [0.0] (and is
    entered with that value, which no later read can tell apart). *)
Definition target_load (r : Resizer) (cell : LibertyCell) : Q :=
  default 0 (target_load_map_ (engine r) !! cell_key cell).

(** The candidates [findTargetCell] looks at: not don't-use, and a cell of
    the link library. *)
Definition eligible (r : Resizer) (cell : LibertyCell) : bool :=
  negb (dontUse r cell) && isLinkCell r cell.

(** The running best of [findTargetCell]. *)
Record BestCell := {
  best_cell : LibertyCell;
  best_dist : Q;
  best_load : Q;
  best_delay : Q }.

Section FindTargetCell.
Variable r : Resizer.
Variable load_cap : Q.
Variable revisiting_inst : bool.
Variable is_buf_inv : bool.

Definition cell_delay (cell : LibertyCell) : Q :=
  if is_buf_inv then bufferDelay (delay_env (engine r)) cell load_cap else 0.

(** The test that makes a candidate the new best. *)
Definition better (b : BestCell) (target_load delay dist : Q) : bool :=
  if is_buf_inv
  then (Qltb delay (best_delay b) && Qltb dist (best_dist b * (11 # 10)))
       || (Qltb dist (best_dist b) && Qltb delay (best_delay b * (11 # 10)))
  else Qltb dist (best_dist b)
       && (negb revisiting_inst || Qltb (best_load b) target_load).

(** The body of the loop over the swappable cells. *)
Definition consider (b : BestCell) (target_cell : LibertyCell) : BestCell :=
  if negb (dontUse r target_cell) && isLinkCell r target_cell then
    let target_load := target_load r target_cell in
    let delay := cell_delay target_cell in
    let dist := targetLoadDist load_cap target_load in
    if better b target_load delay dist then
      {| best_cell := target_cell; best_dist := dist;
         best_load := target_load; best_delay := delay |}
    else b
  else b.
End FindTargetCell.

(** [Resizer::findTargetCell]. *)
Definition findTargetCell (r : Resizer) (cell : LibertyCell) (load_cap : Q)
    (revisiting_inst : bool) : LibertyCell :=
  let swappable_cells := getSwappableCells r cell in
  match swappable_cells with
  | [] => cell
  | _ :: _ =>
      let is_buf_inv := isBuffer cell || isInverter cell in
      let target_load := target_load r cell in
      best_cell
        (fold_left (consider r load_cap revisiting_inst is_buf_inv) swappable_cells
           {| best_cell := cell;
              best_dist := targetLoadDist load_cap target_load;
              best_load := target_load;
              best_delay := cell_delay r load_cap is_buf_inv cell |})
  end.

(** ** Journal *)

Definition set_resized_inst_map (v : gmap Instance (option LibertyCell)) (j : Journal)
    : Journal :=
  {| resized_inst_map_ := v; inserted_buffers_ := inserted_buffers_ j;
     inserted_buffer_set_ := inserted_buffer_set_ j; cloned_gates_ := cloned_gates_ j;
     cloned_inst_set_ := cloned_inst_set_ j; swapped_pins_ := swapped_pins_ j;
     removed_buffer_map_ := removed_buffer_map_ j;
     all_sized_inst_set_ := all_sized_inst_set_ j;
     all_inserted_buffer_set_ := all_inserted_buffer_set_ j;
     all_swapped_pin_inst_set_ := all_swapped_pin_inst_set_ j;
     all_cloned_inst_set_ := all_cloned_inst_set_ j |}.

Definition set_all_sized_inst_set (v : gset Instance) (j : Journal) : Journal :=
  {| resized_inst_map_ := resized_inst_map_ j; inserted_buffers_ := inserted_buffers_ j;
     inserted_buffer_set_ := inserted_buffer_set_ j; cloned_gates_ := cloned_gates_ j;
     cloned_inst_set_ := cloned_inst_set_ j; swapped_pins_ := swapped_pins_ j;
     removed_buffer_map_ := removed_buffer_map_ j;
     all_sized_inst_set_ := v;
     all_inserted_buffer_set_ := all_inserted_buffer_set_ j;
     all_swapped_pin_inst_set_ := all_swapped_pin_inst_set_ j;
     all_cloned_inst_set_ := all_cloned_inst_set_ j |}.

Definition set_removed_buffer_map (v : gmap string BufferData) (j : Journal) : Journal :=
  {| resized_inst_map_ := resized_inst_map_ j; inserted_buffers_ := inserted_buffers_ j;
     inserted_buffer_set_ := inserted_buffer_set_ j; cloned_gates_ := cloned_gates_ j;
     cloned_inst_set_ := cloned_inst_set_ j; swapped_pins_ := swapped_pins_ j;
     removed_buffer_map_ := v;
     all_sized_inst_set_ := all_sized_inst_set_ j;
     all_inserted_buffer_set_ := all_inserted_buffer_set_ j;
     all_swapped_pin_inst_set_ := all_swapped_pin_inst_set_ j;
     all_cloned_inst_set_ := all_cloned_inst_set_ j |}.

(** The seven [clear()] statements shared by [journalBegin], [journalEnd]
    and [journalRestore]; the [all_*] sets are not transaction logs and stay. *)
Definition clear_logs (j : Journal) : Journal :=
  {| resized_inst_map_ := ∅; inserted_buffers_ := [];
     inserted_buffer_set_ := ∅; cloned_gates_ := [];
     cloned_inst_set_ := ∅; swapped_pins_ := ∅;
     removed_buffer_map_ := ∅;
     all_sized_inst_set_ := all_sized_inst_set_ j;
     all_inserted_buffer_set_ := all_inserted_buffer_set_ j;
     all_swapped_pin_inst_set_ := all_swapped_pin_inst_set_ j;
     all_cloned_inst_set_ := all_cloned_inst_set_ j |}.

(** [Resizer::journalBegin]. *)
Definition journalBegin (r : Resizer) : Resizer :=
  let r := incrementalParasiticsBegin r in
  let r := set_db (beginEco (db_ r)) r in
  let r := if callback_registered_ r then set_callback_registered false r else r in
  set_journal (clear_logs (journal_ r)) r.

(** [Resizer::journalInstReplaceCellBefore]. *)
Definition journalInstReplaceCellBefore (inst : Instance) (r : Resizer) : Resizer :=
  let lib_cell := libertyCell r inst in
  match resized_inst_map_ (journal_ r) !! inst with
  | Some _ => r
  | None =>
      set_journal
        (set_all_sized_inst_set ({[inst]} ∪ all_sized_inst_set_ (journal_ r))
           (set_resized_inst_map (<[inst := lib_cell]> (resized_inst_map_ (journal_ r)))
              (journal_ r))) r
  end.

(** The pins connected to a net, in the order the iterator yields them:
    instance pins, then top-level ports. *)
Definition connectedPins (n : Netlist) (x : Net) : list Pin :=
  map (fun kv => ITermPin (fst (fst kv)) (snd (fst kv)))
      (List.filter (fun kv => bool_decide (snd kv = x)) (map_to_list (iterm_net n)))
  ++ map (fun kv => BTermPin (fst kv))
      (List.filter (fun kv => bool_decide (snd kv = x)) (map_to_list (bterm_net n))).

(** Instance name and port name of a pin; a top-level port belongs to the
    top instance. *)
Definition pin_names (r : Resizer) (p : Pin) : string * string :=
  match p with
  | ITermPin i q => (i, q)
  | BTermPin q => (top_instance_name (engine r), q)
  end.

(** [Resizer::journalRemoveBuffer]. The ports of a liberty cell are never
    null here, so the second early return of the source has no case. *)
Definition journalRemoveBuffer (buffer : Instance) (r : Resizer) : Resizer :=
  match libertyCell r buffer, db_insts (netlist r) !! buffer with
  | Some lib_cell, Some db_inst =>
      let in_pin := ITermPin buffer (fst (bufferPorts lib_cell)) in
      let out_pin := ITermPin buffer (snd (bufferPorts lib_cell)) in
      match net_of_pin (netlist r) in_pin, net_of_pin (netlist r) out_pin with
      | Some in_net, Some out_net =>
          let drvr_pin :=
            match List.filter (fun p => negb (bool_decide (p = in_pin)))
                    (connectedPins (netlist r) in_net) with
            | p :: _ => p
            | [] => in_pin
            end in
          let load_pins :=
            map (pin_names r)
              (List.filter (fun p => negb (bool_decide (p = out_pin)))
                 (connectedPins (netlist r) out_net)) in
          let data :=
            {| bd_lib_cell := lib_cell; bd_driver_pin := pin_names r drvr_pin;
               bd_load_pins := load_pins; bd_location := inst_location db_inst;
               bd_parent := top_instance_name (engine r) |} in
          set_journal
            (set_removed_buffer_map (<[buffer := data]> (removed_buffer_map_ (journal_ r)))
               (journal_ r)) r
      | _, _ => r
      end
  | _, _ => r
  end.

(** ** Netlist edit primitives *)

(** [haveEstimatedParasitics]. *)
Definition haveEstimatedParasitics (r : Resizer) : bool :=
  negb (bool_decide (parasitics_src_ (engine r) = src_none)).

(** The loop of [replaceCell] over the pins of the instance. *)
Fixpoint invalidate_pins (inst : Instance) (ports : list string) (r : Resizer)
    : option Resizer :=
  match ports with
  | [] => Some r
  | port :: ports' =>
      let pin := ITermPin inst port in
      match invalidateParasitics pin (net_of_pin (netlist r) pin) r with
      | Some r' => invalidate_pins inst ports' r'
      | None => None
      end
  end.

(** [Resizer::replaceCell(inst, replacement, journal)]. The request to the
    legalizer ([opendp_->legalCellPos], for routing-derived parasitics) may
    move the instance; placement after it is not part of this state. *)
Definition replaceCell (inst : Instance) (replacement : LibertyCell) (journal : bool)
    (r : Resizer) : option (bool * Resizer) :=
  match db_masters (netlist r) !! cell_name replacement with
  | Some replacement_master =>
      match db_insts (netlist r) !! inst with
      | Some dinst =>
          match db_masters (netlist r) !! inst_master dinst with
          | Some master =>
              let r := designAreaIncr (- area r master) r in
              let r := if journal then journalInstReplaceCellBefore inst r else r in
              let r := edit (sta_replaceCell inst (cell_name replacement)) r in
              let r := designAreaIncr (area r replacement_master) r in
              if haveEstimatedParasitics r then
                match invalidate_pins inst (map fst (master_mterms replacement_master)) r with
                | Some r' => Some (true, r')
                | None => None
                end
              else Some (true, r)
          | None => None
          end
      | None => None
      end
  | None => Some (false, r)
  end.

(** [Resizer::hasMultipleOutputs]. *)
Definition hasMultipleOutputs (r : Resizer) (inst : Instance) : bool :=
  match db_insts (netlist r) !! inst with
  | Some di =>
      match db_masters (netlist r) !! inst_master di with
      | Some master =>
          Nat.ltb 1
            (length (List.filter
               (fun pd => isAnyOutput (snd pd)
                          && bool_decide (is_Some (net_of_pin (netlist r) (ITermPin inst (fst pd)))))
               (master_mterms master)))
      | None => false
      end
  | None => false
  end.

(** [Resizer::dontTouch] of an instance. *)
Definition dontTouch (r : Resizer) (inst : Instance) : bool :=
  match db_insts (netlist r) !! inst with
  | Some di =>
      inst_doNotTouch di
      || match db_masters (netlist r) !! inst_master di with
         | Some master => master_isPad master
         | None => false
         end
  | None => false
  end.

(** [Resizer::isLogicStdCell] of an instance that is not the top instance. *)
Definition isLogicStdCell (r : Resizer) (inst : Instance) : bool :=
  match db_insts (netlist r) !! inst with
  | Some di =>
      match db_masters (netlist r) !! inst_master di with
      | Some master => master_isCORE master
      | None => false
      end
  | None => false
  end.

(** Modelled from the spec: [ensureWireParasitic] (defined outside the
    given sources) re-derives the parasitics of the driver's net when they
    are stale, after which the net is no longer marked. *)
Definition ensureWireParasitic (drvr_pin : Pin) (r : Resizer) : Resizer :=
  match net_of_pin (netlist r) drvr_pin with
  | Some net => eraseParasitics net r
  | None => r
  end.

(** The value of [revisiting_inst] in [resizeToTargetSlew]: the instance
    has several driven outputs and was visited before. *)
Definition revisiting (r : Resizer) (inst : Instance) : bool :=
  hasMultipleOutputs r inst && bool_decide (inst ∈ resized_multi_output_insts_ r).

(** The state of [resizeToTargetSlew] when it reads the load capacitance:
    a multi-output instance is entered in [resized_multi_output_insts_] and
    the wire parasitics of the driver are ensured. *)
Definition visit (drvr_pin : Pin) (inst : Instance) (r : Resizer) : Resizer :=
  ensureWireParasitic drvr_pin
    (if hasMultipleOutputs r inst
     then set_resized_multi_output_insts ({[inst]} ∪ resized_multi_output_insts_ r) r
     else r).

(** [Resizer::resizeToTargetSlew]: the returned count and the new state. *)
Definition resizeToTargetSlew (drvr_pin : Pin) (r : Resizer) : option (Z * Resizer) :=
  match drvr_pin with
  | BTermPin _ => Some (0%Z, r)
  | ITermPin inst _ =>
      match libertyCell r inst with
      | Some cell =>
          if negb (dontTouch r inst) && isLogicStdCell r inst then
            let revisiting_inst := revisiting r inst in
            let r := visit drvr_pin inst r in
            let load_cap := graph_delay_calc_loadCap (engine r) drvr_pin in
            if Qltb 0 load_cap then
              let target_cell := findTargetCell r cell load_cap revisiting_inst in
              if negb (same_cell target_cell cell) then
                match replaceCell inst target_cell true r with
                | Some (replaced, r') =>
                    if replaced && negb revisiting_inst then Some (1%Z, r')
                    else Some (0%Z, r')
                | None => None
                end
              else Some (0%Z, r)
            else Some (0%Z, r)
          else Some (0%Z, r)
      | None => Some (0%Z, r)
      end
  end.

(** ** Buffer removal *)

(** [Resizer::bufferBetweenPorts]: the liberty cell of the buffer is
    dereferenced. *)
Definition bufferBetweenPorts (r : Resizer) (buffer : Instance) : option bool :=
  match libertyCell r buffer with
  | Some lib_cell =>
      let in_pin := ITermPin buffer (fst (bufferPorts lib_cell)) in
      let out_pin := ITermPin buffer (snd (bufferPorts lib_cell)) in
      let in_net := net_of_pin (netlist r) in_pin in
      let out_net := net_of_pin (netlist r) out_pin in
      Some (hasPort r in_net && hasPort r out_net)
  | None => None
  end.

(** The last part of [removeBuffer], from the SDC test on. *)
Definition removeBuffer_merge (buffer : Instance) (in_pin out_pin : Pin)
    (survivor removed : Net) (r : Resizer) : bool * Resizer :=
  if negb (bool_decide (in_pin ∈ sdc_pins (engine r)))
     && negb (bool_decide (out_pin ∈ sdc_pins (engine r)))
     && negb (bool_decide (removed ∈ sdc_nets (engine r)))
     && negb (bool_decide (buffer ∈ sdc_insts (engine r)))
  then
    let r := edit (mergeNet survivor removed) r in
    let r := edit (disconnectPin in_pin) r in
    let r := edit (disconnectPin out_pin) r in
    let r := edit (deleteInstance buffer) r in
    let r := edit (deleteNet removed) r in
    let r := eraseParasitics removed r in
    let r := parasiticsInvalid survivor r in
    let r := updateParasitics r in
    (true, r)
  else (false, r).

(** [Resizer::removeBuffer(buffer, honorDontTouchFixed, recordJournal)]:
    the returned flag and the new state. The nets of the buffer pins are
    dereferenced for their dont-touch flags: the input net first, and the
    output net unless the input net alone already rejects the removal. At the
    SDC test both nets are therefore present, and the test [if (removed)] of
    the source holds. *)
Definition removeBuffer (buffer : Instance) (honorDontTouchFixed recordJournal : bool)
    (r : Resizer) : option (bool * Resizer) :=
  match libertyCell r buffer with
  | None => Some (false, r)
  | Some lib_cell =>
  if negb (isBuffer lib_cell) then Some (false, r) else
  match bufferBetweenPorts r buffer with
  | None => None
  | Some true => Some (false, r)
  | Some false =>
  match db_insts (netlist r) !! buffer with
  | None => None
  | Some db_inst =>
  if inst_doNotTouch db_inst && honorDontTouchFixed then Some (false, r) else
  let r := if inst_doNotTouch db_inst
           then edit (inst_setDoNotTouch buffer false) r else r in
  if inst_isFixed db_inst && honorDontTouchFixed then Some (false, r) else
  let r := if inst_isFixed db_inst then edit (inst_setPlaced buffer) r else r in
  let in_pin := ITermPin buffer (fst (bufferPorts lib_cell)) in
  let out_pin := ITermPin buffer (snd (bufferPorts lib_cell)) in
  match net_of_pin (netlist r) in_pin with
  | None => None
  | Some in_net =>
  match db_nets (netlist r) !! in_net with
  | None => None
  | Some in_db_net =>
  if net_doNotTouch in_db_net && honorDontTouchFixed then Some (false, r) else
  match net_of_pin (netlist r) out_pin with
  | None => None
  | Some out_net =>
  match db_nets (netlist r) !! out_net with
  | None => None
  | Some out_db_net =>
  let net_dont_touch := net_doNotTouch in_db_net || net_doNotTouch out_db_net in
  if net_dont_touch && honorDontTouchFixed then Some (false, r) else
  let r := if net_dont_touch
           then edit (net_setDoNotTouch out_net false)
                  (edit (net_setDoNotTouch in_net false) r)
           else r in
  let out_net_ports := hasPort r (Some out_net) in
  if out_net_ports && hasPort r (Some in_net) then Some (false, r) else
  let survivor := if out_net_ports then out_net else in_net in
  let removed := if out_net_ports then in_net else out_net in
  let r := if recordJournal then journalRemoveBuffer buffer r else r in
  Some (removeBuffer_merge buffer in_pin out_pin survivor removed r)
  end
  end
  end
  end
  end
  end
  end.

(** The structure of the netlist: the master of each instance, the nets,
    and the net of each instance pin and of each top-level port. *)
Definition connectivity (n : Netlist)
    : gmap Instance string * gset Net * gmap (Instance * string) Net * gmap string Net :=
  (inst_master <$> db_insts n, dom (db_nets n), iterm_net n, bterm_net n).

(** Two states with the same collaborators, the same netlist structure and
    the same set of invalid nets: they may differ in dont-touch and
    placement flags, in the journal and in the ECO record. *)
Definition same_wiring (r r' : Resizer) : Prop :=
  engine r' = engine r
  /\ connectivity (netlist r') = connectivity (netlist r)
  /\ parasitics_invalid_ r' = parasitics_invalid_ r.

(** ** Journal restore *)

(** A C++ [int]: the value of a 64-bit unsigned result converted back. *)
Definition to_int (z : Z) : Z := ((z + 2 ^ 31) mod 2 ^ 32 - 2 ^ 31)%Z.

(** The counters [journalRestore] receives by reference. *)
Record Counters := {
  resize_count : Z;
  inserted_buffer_count : Z;
  cloned_gate_count : Z;
  swap_pin_count : Z;
  removed_buffer_count : Z }.

(** [count -= log.size()]. *)
Definition decrement (count : Z) (size : nat) : Z := to_int (count - Z.of_nat size).

(** [Resizer::journalRestore]. While the database undoes the edits the
    callbacks mark nets invalid; [updateParasitics] then empties the set. *)
Definition journalRestore (r : Resizer) (c : Counters) : Resizer * Counters :=
  let r := init r in
  if ecoEmpty (db_ r) then
    let r := set_db (endEco (db_ r)) r in
    let r := incrementalParasiticsEnd r in
    (r, c)
  else
    let r := incrementalParasiticsEnd r in
    let r := incrementalParasiticsBegin r in
    let r := if negb (callback_registered_ r) then set_callback_registered true r else r in
    let r := set_db (endEco (db_ r)) r in
    let r := set_db (undoEco (db_ r)) r in
    let r := set_callback_registered false r in
    let r := updateParasitics r in
    let r := incrementalParasiticsEnd r in
    let j := journal_ r in
    (set_journal (clear_logs j) r,
     {| resize_count := decrement (resize_count c) (size (resized_inst_map_ j));
        inserted_buffer_count :=
          decrement (inserted_buffer_count c) (length (inserted_buffers_ j));
        cloned_gate_count := decrement (cloned_gate_count c) (length (cloned_gates_ j));
        swap_pin_count := decrement (swap_pin_count c) (size (swapped_pins_ j));
        removed_buffer_count :=
          decrement (removed_buffer_count c) (size (removed_buffer_map_ j)) |}).

(** The values of a C++ [int]. *)
Definition is_int (z : Z) : Prop := (- 2 ^ 31 <= z < 2 ^ 31)%Z.

(** Each counter, less the size of its log, is still an [int]. *)
Definition counters_fit (c : Counters) (j : Journal) : Prop :=
  is_int (resize_count c - Z.of_nat (size (resized_inst_map_ j)))
  /\ is_int (inserted_buffer_count c - Z.of_nat (length (inserted_buffers_ j)))
  /\ is_int (cloned_gate_count c - Z.of_nat (length (cloned_gates_ j)))
  /\ is_int (swap_pin_count c - Z.of_nat (size (swapped_pins_ j)))
  /\ is_int (removed_buffer_count c - Z.of_nat (size (removed_buffer_map_ j))).

(** A run of journalled resizes [replaceCell(inst, cell, true)], in order. *)
Fixpoint replaceCells (ops : list (Instance * LibertyCell)) (r : Resizer)
    : option Resizer :=
  match ops with
  | [] => Some r
  | (inst, cell) :: ops' =>
      match replaceCell inst cell true r with
      | Some (_, r') => replaceCells ops' r'
      | None => None
      end
  end.

(** ** A small design

    Three NAND2 sizes with target loads 2fF, 5fF and 9fF, three buffer
    sizes with the same target loads (the larger two slower than the
    smallest), two sizes of a flip-flop with outputs Q and QN, and a design
    [in -> b1 -> u1 -> ff1 -> b2 -> out] with a buffer [b3] between the
    ports [p1] and [p2]. *)
Module Design.

Definition fF (n : Z) : Q := Qmake n 1000000000000000.

(** A gate model with a fixed delay and a fixed slew. *)
Definition fixed_delay (d : Q) : TimingModel :=
  GateTimingModel (fun _ _ => {| gateDelay := d; drvrSlew := 1 # 10 |}).

Definition arc_set (cell from to : string) (d : Q) : TimingArcSet :=
  {| set_to := (cell, to); role_isTimingCheck := false;
     arcs := [ {| arc_from := (cell, from); fromEdge := Rise; toEdge := Rise;
                  arc_model := fixed_delay d |};
               {| arc_from := (cell, from); fromEdge := Fall; toEdge := Fall;
                  arc_model := fixed_delay d |} ] |}.

Definition input : PortDirection := {| isAnyOutput := false; isAnyTristate := false |}.
Definition output : PortDirection := {| isAnyOutput := true; isAnyTristate := false |}.

Definition nand2 (name : string) : LibertyCell :=
  {| cell_lib := "lib"; cell_name := name; isBuffer := false; isInverter := false;
     bufferPorts := ("", ""); cell_dontUse := false; footprint := None;
     userFunctionClass := None;
     cell_ports := [("A1", input); ("A2", input); ("ZN", output)];
     timingArcSets := [arc_set name "A1" "ZN" 1; arc_set name "A2" "ZN" 1] |}.

Definition buf (name : string) (d : Q) : LibertyCell :=
  {| cell_lib := "lib"; cell_name := name; isBuffer := true; isInverter := false;
     bufferPorts := ("A", "Z"); cell_dontUse := false; footprint := None;
     userFunctionClass := None;
     cell_ports := [("A", input); ("Z", output)];
     timingArcSets := [arc_set name "A" "Z" d] |}.

Definition dff (name : string) : LibertyCell :=
  {| cell_lib := "lib"; cell_name := name; isBuffer := false; isInverter := false;
     bufferPorts := ("", ""); cell_dontUse := false; footprint := None;
     userFunctionClass := None;
     cell_ports := [("D", input); ("CK", input); ("Q", output); ("QN", output)];
     timingArcSets := [arc_set name "CK" "Q" 1; arc_set name "CK" "QN" 1] |}.

Definition NAND2_X1 := nand2 "NAND2_X1".
Definition NAND2_X2 := nand2 "NAND2_X2".
Definition NAND2_X4 := nand2 "NAND2_X4".
Definition BUF_X1 := buf "BUF_X1" 10.
Definition BUF_X2 := buf "BUF_X2" 12.
Definition BUF_X4 := buf "BUF_X4" 12.
Definition DFF_X1 := dff "DFF_X1".
Definition DFF_X2 := dff "DFF_X2".

Definition cells : list LibertyCell :=
  [NAND2_X1; NAND2_X2; NAND2_X4; BUF_X1; BUF_X2; BUF_X4; DFF_X1; DFF_X2].

Definition master_of (c : LibertyCell) : dbMaster :=
  {| master_isCORE := true; master_isPad := false; master_isFiller := false;
     master_isCoreAutoPlaceable := true; master_width := 1000;
     master_height := 2000; master_mterms := cell_ports c |}.

Definition the_engine : Engine :=
  {| liberty := list_to_map (map (fun c => (cell_name c, c)) cells);
     sta_equivCells :=
       list_to_map
         (map (fun c => (cell_key c, [NAND2_X1; NAND2_X2; NAND2_X4]))
              [NAND2_X1; NAND2_X2; NAND2_X4]
          ++ map (fun c => (cell_key c, [BUF_X1; BUF_X2; BUF_X4]))
              [BUF_X1; BUF_X2; BUF_X4]
          ++ map (fun c => (cell_key c, [DFF_X1; DFF_X2])) [DFF_X1; DFF_X2]);
     delay_env :=
       {| INF := 1000000000000000000000000000000;
            arc_delay_calc_gateDelay := fun arc in_slew load_cap =>
            match arc_model arc with
            | GateTimingModel m => m in_slew load_cap
            | OtherTimingModel => {| gateDelay := 0; drvrSlew := 0 |}
            end;
          input_slew_map_ := ∅;
          tgt_slews_ := {| rise_value := 1 # 10; fall_value := 1 # 10 |} |};
     graph_delay_calc_loadCap := fun _ => Qmake 54 10000000000000000;
     target_load_map_ :=
       list_to_map
         [(cell_key NAND2_X1, fF 2); (cell_key NAND2_X2, fF 5); (cell_key NAND2_X4, fF 9);
          (cell_key BUF_X1, fF 2); (cell_key BUF_X2, fF 5); (cell_key BUF_X4, fF 9);
          (cell_key DFF_X1, fF 2); (cell_key DFF_X2, fF 5)];
     dont_use_ := ∅;
     match_cell_footprint_ := false;
     parasitics_src_ := src_placement;
     sdc_pins := ∅;
     sdc_nets := ∅;
     sdc_insts := {[ "b1" ]};
     top_instance_name := "top";
     dbu_ := 1000 |}.

Definition an_inst (master : string) : dbInst :=
  {| inst_master := master; inst_doNotTouch := false; inst_isFixed := false;
     inst_location := (0, 0)%Z |}.

Definition the_netlist : Netlist :=
  {| db_masters := list_to_map (map (fun c => (cell_name c, master_of c)) cells);
     db_insts :=
       list_to_map
         [("b1", an_inst "BUF_X1"); ("u1", an_inst "NAND2_X1");
          ("ff1", an_inst "DFF_X1"); ("b2", an_inst "BUF_X1");
          ("b3", an_inst "BUF_X1")];
     db_nets :=
       list_to_map
         (map (fun x : string => (x, {| net_doNotTouch := false |}))
              ["n_in"; "n1"; "n2"; "n3"; "n4"; "n_out"; "n_p1"; "n_p2"]);
     iterm_net :=
       list_to_map
         [(("b1", "A"), "n_in"); (("b1", "Z"), "n1");
          (("u1", "A1"), "n1"); (("u1", "A2"), "n4"); (("u1", "ZN"), "n2");
          (("ff1", "D"), "n2"); (("ff1", "Q"), "n3"); (("ff1", "QN"), "n4");
          (("b2", "A"), "n3"); (("b2", "Z"), "n_out");
          (("b3", "A"), "n_p1"); (("b3", "Z"), "n_p2")];
     bterm_net :=
       list_to_map
         [("in", "n_in"); ("out", "n_out"); ("p1", "n_p1"); ("p2", "n_p2")] |}.

Definition no_logs : Journal :=
  {| resized_inst_map_ := ∅; inserted_buffers_ := []; inserted_buffer_set_ := ∅;
     cloned_gates_ := []; cloned_inst_set_ := ∅; swapped_pins_ := ∅;
     removed_buffer_map_ := ∅; all_sized_inst_set_ := ∅;
     all_inserted_buffer_set_ := ∅; all_swapped_pin_inst_set_ := ∅;
     all_cloned_inst_set_ := ∅ |}.

Definition the_resizer : Resizer :=
  {| engine := the_engine;
     db_ := {| block_ := the_netlist; eco_open := false; eco_base := the_netlist;
               eco_edits := 0 |};
     parasitics_invalid_ := ∅;
     resized_multi_output_insts_ := ∅;
     design_area_ := 0;
     journal_ := no_logs;
     callback_registered_ := true;
     incremental_parasitics_enabled_ := false |}.

(** The same design after the flip-flop has been visited once. *)
Definition revisited : Resizer :=
  set_resized_multi_output_insts {[ "ff1" ]} the_resizer.

(** The design inside a transaction, after one resize of [u1]. *)
Definition resized_once : Resizer :=
  match replaceCell "u1" NAND2_X2 true (journalBegin the_resizer) with
  | Some (_, r) => r
  | None => the_resizer
  end.

(** The same transaction after a second resize of [u1]. *)
Definition resized_twice : Resizer :=
  default the_resizer (replaceCells [("u1", NAND2_X4)] resized_once).

(** The design after the sizing of the driver [u1/ZN]. *)
Definition u1_resized : Resizer :=
  match resizeToTargetSlew (ITermPin "u1" "ZN") the_resizer with
  | Some (_, r) => r
  | None => the_resizer
  end.

(** The design after the second visit of the flip-flop, at [ff1/Q]. *)
Definition ff1_revisited : Resizer :=
  match resizeToTargetSlew (ITermPin "ff1" "Q") revisited with
  | Some (_, r) => r
  | None => the_resizer
  end.



(** The design after the attempt to remove the constrained buffer [b1],
    and after the removal of [b2]. *)
Definition b1_kept : Resizer :=
  match removeBuffer "b1" false true the_resizer with
  | Some (_, r) => r
  | None => the_resizer
  end.

Definition b2_removed : Resizer :=
  match removeBuffer "b2" false false the_resizer with
  | Some (_, r) => r
  | None => the_resizer
  end.

Definition some_counters : Counters :=
  {| resize_count := 3; inserted_buffer_count := 2; cloned_gate_count := 0;
     swap_pin_count := 0; removed_buffer_count := 1 |}.

End Design.

(** * The rest of the sizing, buffer removal and journal code *)

(** * More of the resizer *)

(** ** Design area, recomputed *)


(** ** Removal of many buffers *)

(** The two loops of [removeBuffers]: [removeBuffer] on each instance in
    turn, counting the removals in the [int] [remove_count]. *)
Fixpoint removeBuffers_loop (honorDontTouchFixed recordJournal : bool)
    (insts : list Instance) (remove_count : Z) (r : Resizer) : option (Z * Resizer) :=
  match insts with
  | [] => Some (remove_count, r)
  | buffer :: insts' =>
      match removeBuffer buffer honorDontTouchFixed recordJournal r with
      | Some (true, r') =>
          removeBuffers_loop honorDontTouchFixed recordJournal insts'
            (to_int (remove_count + 1)) r'
      | Some (false, r') =>
          removeBuffers_loop honorDontTouchFixed recordJournal insts' remove_count r'
      | None => None
      end
  end.

(** [Resizer::removeBuffers(insts, recordJournal)]: the count it reports
    and the new state. With no instance given it visits every instance of
    the block, in the order the database yields them, in auto mode; else the
    given ones, in manual mode. *)
Definition removeBuffers (insts : list Instance) (recordJournal : bool) (r : Resizer)
    : option (Z * Resizer) :=
  match insts with
  | [] =>
      removeBuffers_loop true recordJournal
        (map fst (map_to_list (db_insts (netlist r)))) 0 r
  | _ :: _ => removeBuffers_loop false recordJournal insts 0 r
  end.

(** ** The rest of the journal *)

(** [Resizer::journalEnd]; [sta_->findRequireds()] leaves this state as
    it is. *)
Definition journalEnd (r : Resizer) : Resizer :=
  let r := if negb (ecoEmpty (db_ r)) then updateParasitics r else r in
  let r := incrementalParasiticsEnd r in
  let r := set_db (endEco (db_ r)) r in
  set_journal (clear_logs (journal_ r)) r.

(** [Resizer::journalSwapPins]. *)
Definition journalSwapPins (inst : Instance) (port1 port2 : LibertyPort) (r : Resizer)
    : Resizer :=
  let j := journal_ r in
  set_journal
    {| resized_inst_map_ := resized_inst_map_ j; inserted_buffers_ := inserted_buffers_ j;
       inserted_buffer_set_ := inserted_buffer_set_ j; cloned_gates_ := cloned_gates_ j;
       cloned_inst_set_ := cloned_inst_set_ j;
       swapped_pins_ := <[inst := (port1, port2)]> (swapped_pins_ j);
       removed_buffer_map_ := removed_buffer_map_ j;
       all_sized_inst_set_ := all_sized_inst_set_ j;
       all_inserted_buffer_set_ := all_inserted_buffer_set_ j;
       all_swapped_pin_inst_set_ := {[inst]} ∪ all_swapped_pin_inst_set_ j;
       all_cloned_inst_set_ := all_cloned_inst_set_ j |} r.

(** [Resizer::journalMakeBuffer]. *)
Definition journalMakeBuffer (buffer : Instance) (r : Resizer) : Resizer :=
  let j := journal_ r in
  set_journal
    {| resized_inst_map_ := resized_inst_map_ j;
       inserted_buffers_ := inserted_buffers_ j ++ [buffer];
       inserted_buffer_set_ := {[buffer]} ∪ inserted_buffer_set_ j;
       cloned_gates_ := cloned_gates_ j;
       cloned_inst_set_ := cloned_inst_set_ j;
       swapped_pins_ := swapped_pins_ j;
       removed_buffer_map_ := removed_buffer_map_ j;
       all_sized_inst_set_ := all_sized_inst_set_ j;
       all_inserted_buffer_set_ := {[buffer]} ∪ all_inserted_buffer_set_ j;
       all_swapped_pin_inst_set_ := all_swapped_pin_inst_set_ j;
       all_cloned_inst_set_ := all_cloned_inst_set_ j |} r.

(** A call of the journal. *)
Inductive JournalCall :=
| CallBegin
| CallEnd
| CallRestore (c : Counters)
| CallInstReplaceCellBefore (inst : Instance)
| CallSwapPins (inst : Instance) (port1 port2 : LibertyPort)
| CallMakeBuffer (buffer : Instance)
| CallRemoveBuffer (buffer : Instance).

Definition journal_call (r : Resizer) (call : JournalCall) : Resizer :=
  match call with
  | CallBegin => journalBegin r
  | CallEnd => journalEnd r
  | CallRestore c => fst (journalRestore r c)
  | CallInstReplaceCellBefore inst => journalInstReplaceCellBefore inst r
  | CallSwapPins inst port1 port2 => journalSwapPins inst port1 port2 r
  | CallMakeBuffer buffer => journalMakeBuffer buffer r
  | CallRemoveBuffer buffer => journalRemoveBuffer buffer r
  end.

(** The logs of a transaction agree with each other and with the
    cumulative sets: the set of inserted buffers holds the elements of
    their list, and whatever a log holds is in the cumulative set of its
    kind. *)
Definition journal_consistent (j : Journal) : Prop :=
  inserted_buffer_set_ j = list_to_set (inserted_buffers_ j)
  /\ dom (resized_inst_map_ j) ⊆ all_sized_inst_set_ j
  /\ inserted_buffer_set_ j ⊆ all_inserted_buffer_set_ j
  /\ dom (swapped_pins_ j) ⊆ all_swapped_pin_inst_set_ j.

(** The cumulative sets of [j] are within those of [j']. *)
Definition cumulative_le (j j' : Journal) : Prop :=
  all_sized_inst_set_ j ⊆ all_sized_inst_set_ j'
  /\ all_inserted_buffer_set_ j ⊆ all_inserted_buffer_set_ j'
  /\ all_swapped_pin_inst_set_ j ⊆ all_swapped_pin_inst_set_ j'
  /\ all_cloned_inst_set_ j ⊆ all_cloned_inst_set_ j'.

(** ** Pin swap *)

(** Modelled from the spec: [dbITerm::connect(net)] (odb, outside the
    given sources) puts the instance pin on the net. *)
Definition connectPin (i : Instance) (q : string) (x : Net) (n : Netlist) : Netlist :=
  set_iterm_net (<[(i, q) := x]> (iterm_net n)) n.

(** The pins [network_->pinIterator(inst)] yields: one for each terminal
    of the master. *)
Definition instance_pins (r : Resizer) (inst : Instance) : option (list string) :=
  match db_insts (netlist r) !! inst with
  | Some di =>
      match db_masters (netlist r) !! inst_master di with
      | Some master => Some (map fst (master_mterms master))
      | None => None
      end
  | None => None
  end.

(** The search loop of [swapPins]: the last pin whose liberty port has the
    given name; the liberty port of every pin is dereferenced. *)
Definition find_pin (r : Resizer) (inst : Instance) (name : string) : option (option string) :=
  match instance_pins r inst with
  | Some pins =>
      if forallb (fun q => bool_decide (is_Some (libertyPort_direction r (ITermPin inst q)))) pins
      then Some (last (filter (fun q => q = name) pins))
      else None
  | None => None
  end.

(** [Resizer::swapPins(inst, port1, port2, journal)] on a design without
    module nets. *)
Definition swapPins (inst : Instance) (port1 port2 : LibertyPort) (journal : bool)
    (r : Resizer) : option Resizer :=
  let r := if journal then journalSwapPins inst port1 port2 r else r in
  match find_pin r inst (snd port1), find_pin r inst (snd port2) with
  | Some found_pin1, Some found_pin2 =>
      match found_pin1, found_pin2 with
      | Some q1, Some q2 =>
          match net_of_pin (netlist r) (ITermPin inst q1),
                net_of_pin (netlist r) (ITermPin inst q2) with
          | Some net1, Some net2 =>
              let r := edit (disconnectPin (ITermPin inst q1)) r in
              let r := edit (connectPin inst q1 net2) r in
              let r := edit (disconnectPin (ITermPin inst q2)) r in
              let r := edit (connectPin inst q2 net1) r in
              if haveEstimatedParasitics r then
                match invalidateParasitics (ITermPin inst q2) (Some net1) r with
                | Some r => invalidateParasitics (ITermPin inst q1) (Some net2) r
                | None => None
                end
              else Some r
          | _, _ => Some r
          end
      | _, _ => Some r
      end
  | _, _ => None
  end.

(** The netlist after the four edits of a swap. *)
Definition swapped (inst : Instance) (q1 q2 : string) (net1 net2 : Net) (n : Netlist)
    : Netlist :=
  connectPin inst q2 net1
    (disconnectPin (ITermPin inst q2)
       (connectPin inst q1 net2 (disconnectPin (ITermPin inst q1) n))).

Section SwapPinCandidate.
Variable env : DelayEnv.
(** [port->direction()->isInput()] and [sta::LibertyPort::equiv], of the
    timing engine. *)
Variable isInput : LibertyPort -> bool.
Variable equiv : LibertyPort -> LibertyPort -> bool.
Variable input_port : LibertyPort.
Variable load_cap : Q.

(** The first loop of [findSwapPinCandidate], for one arc: [base_delay]
    and the map [port_delays]. *)
Definition port_delays_arc (acc : Q * gmap LibertyPort Q) (arc : TimingArc)
    : Q * gmap LibertyPort Q :=
  let base_delay := fst acc in
  let port_delays := snd acc in
  let port := arc_from arc in
  let gate_delay := gateDelay (arc_dcalc env load_cap arc) in
  if bool_decide (port = input_port) then (fmax base_delay gate_delay, port_delays)
  else
    match port_delays !! port with
    | None => (base_delay, <[port := gate_delay]> port_delays)
    | Some delay => (base_delay, <[input_port := fmax delay gate_delay]> port_delays)
    end.

(** The second loop, for one equivalent port: [base_delay] and [*swap_port]. *)
Definition swap_candidate (drvr_port : LibertyPort) (port_delays : gmap LibertyPort Q)
    (acc : Q * option LibertyPort) (port : LibertyPort) : Q * option LibertyPort :=
  match port_delays !! port with
  | None => acc
  | Some delay =>
      if isInput port && negb (equiv input_port port) && negb (equiv drvr_port port)
         && Qltb delay (fst acc)
      then (delay, Some port)
      else acc
  end.

(** [Resizer::findSwapPinCandidate]: the value of [*swap_port] at the
    return, from its value at the call; [cell] is [drvr_port->libertyCell()]. *)
Definition findSwapPinCandidate (cell : LibertyCell) (drvr_port : LibertyPort)
    (equiv_ports : list LibertyPort) (swap_port : option LibertyPort)
    : option LibertyPort :=
  let '(base_delay, port_delays) :=
    fold_left port_delays_arc (drvr_arcs cell drvr_port) (- INF env, ∅) in
  snd (fold_left (swap_candidate drvr_port port_delays) equiv_ports (base_delay, swap_port)).

(** The delay of the first of the arcs that starts at the port. *)
Definition first_delay (arcs : list TimingArc) (port : LibertyPort) : option Q :=
  (fun arc => gateDelay (arc_dcalc env load_cap arc))
    <$> head (filter (fun arc => arc_from arc = port) arcs).

(** The largest delay of the arcs from [input_port], from [-INF]. *)
Definition input_delay (arcs : list TimingArc) : Q :=
  fold_left (fun base arc => fmax base (gateDelay (arc_dcalc env load_cap arc)))
    (filter (fun arc => arc_from arc = input_port) arcs) (- INF env).

End SwapPinCandidate.

(** ** The other delay queries *)

Section GateDelaysOverloads.
Variable env : DelayEnv.

(** Body of the inner loop of the overload of [gateDelays] that is given
    the input slews. *)
Definition gateDelays_in_slews_arc (in_slews : RiseFallValues) (load_cap : Q)
    (acc : RiseFallValues * RiseFallValues) (arc : TimingArc)
    : RiseFallValues * RiseFallValues :=
  let out_rf := toEdge arc in
  let dcalc_result :=
    arc_delay_calc_gateDelay env arc (rf_get in_slews (fromEdge arc)) load_cap in
  (rf_max (fst acc) out_rf (gateDelay dcalc_result),
   rf_max (snd acc) out_rf (drvrSlew dcalc_result)).

(** [Resizer::gateDelays(drvr_port, load_cap, in_slews, dcalc_ap, delays,
    out_slews)]. *)
Definition gateDelays_in_slews (cell : LibertyCell) (drvr_port : LibertyPort)
    (load_cap : Q) (in_slews : RiseFallValues) : RiseFallValues * RiseFallValues :=
  let init := {| rise_value := - INF env; fall_value := - INF env |} in
  fold_left
    (fun acc arc_set =>
       if bool_decide (set_to arc_set = drvr_port) && negb (role_isTimingCheck arc_set)
       then fold_left (gateDelays_in_slews_arc in_slews load_cap) (arcs arc_set) acc
       else acc)
    (timingArcSets cell) (init, init).

(** [Resizer::gateDelay(drvr_port, rf, load_cap, dcalc_ap)]. *)
Definition gateDelay_rf (cell : LibertyCell) (drvr_port : LibertyPort) (rf : RiseFall)
    (load_cap : Q) : Q :=
  rf_get (fst (gateDelays env cell drvr_port load_cap)) rf.

(** [Resizer::gateDelay(drvr_port, load_cap, dcalc_ap)]. *)
Definition gateDelay_max (cell : LibertyCell) (drvr_port : LibertyPort) (load_cap : Q) : Q :=
  let delays := fst (gateDelays env cell drvr_port load_cap) in
  fmax (rf_get delays Rise) (rf_get delays Fall).

(** [Resizer::bufferDelay(buffer_cell, rf, load_cap, dcalc_ap)]. *)
Definition bufferDelay_rf (buffer_cell : LibertyCell) (rf : RiseFall) (load_cap : Q) : Q :=
  let output := (cell_name buffer_cell, snd (bufferPorts buffer_cell)) in
  rf_get (fst (gateDelays env buffer_cell output load_cap)) rf.

End GateDelaysOverloads.

(** ** The target load of a cell *)

Section CellTargetLoad.
Variable tgt_slews_ : RiseFallValues.
(** The role of the arc set is one of [tristateDisable], [tristateEnable],
    [clockTreePathMin] and [clockTreePathMax]. *)
Variable role_excluded : TimingArcSet -> bool.




End CellTargetLoad.

(** ** Drivers by load limit *)

(** [a == b] on floats. *)
Definition Qeqb (x y : Q) : bool :=
  match x ?= y with Eq => true | _ => false end.

(** [Resizer::libraryPins(cell)] and [Resizer::libraryOutputPins(cell)]:
    the ports of the cell, and those of them with an output direction. *)
Definition libraryPins (cell : LibertyCell) : list (string * PortDirection) :=
  cell_ports cell.

Definition libraryOutputPins (cell : LibertyCell) : list (string * PortDirection) :=
  List.filter (fun pd => isAnyOutput (snd pd)) (libraryPins cell).

Section ClosestDriver.
Variable r : Resizer.
(** The queries [isClockGate], [isPad], [isMacro] and [hasSequentials] of
    a liberty cell, and [Resizer::maxLoad] of a cell. *)
Variables isClockGate isPad isMacro hasSequentials : LibertyCell -> bool.
Variable maxLoad : LibertyCell -> Q.

(** [Resizer::isCombinational] of a cell that is not null. *)
Definition isCombinational (cell : LibertyCell) : bool :=
  negb (isClockGate cell) && negb (isPad cell) && negb (isMacro cell)
  && negb (hasSequentials cell).

(** [Resizer::isSingleOutputCombinational] of a cell that is not null. *)
Definition isSingleOutputCombinational (cell : LibertyCell) : bool :=
  Nat.eqb (length (libraryOutputPins cell)) 1 && isCombinational cell.

(** The loop of [closestDriver]; the first output pin of a candidate is
    dereferenced. *)
Fixpoint closestDriver_loop (current_limit : Q) (candidates : list LibertyCell)
    (diff : Q) (closest : option LibertyCell) : option (option LibertyCell) :=
  match candidates with
  | [] => Some closest
  | cand :: candidates' =>
      if dontUse r cand then closestDriver_loop current_limit candidates' diff closest
      else
        match libraryOutputPins cand with
        | [] => None
        | _ :: _ =>
            let limit := maxLoad cand in
            if Qeqb limit current_limit then Some (Some cand)
            else
              let new_diff := Qabs (limit - current_limit) in
              if Qltb new_diff diff
              then closestDriver_loop current_limit candidates' new_diff (Some cand)
              else closestDriver_loop current_limit candidates' diff closest
        end
  end.

(** [Resizer::closestDriver(cell, candidates, scale)]: the inner option
    is the pointer returned. *)
Definition closestDriver (cell : LibertyCell) (candidates : list LibertyCell) (scale : Q)
    : option (option LibertyCell) :=
  match candidates with
  | [] => Some None
  | _ :: _ =>
      if negb (isSingleOutputCombinational cell) then Some None
      else
        let current_limit := scale * maxLoad cell in
        closestDriver_loop current_limit candidates (INF (delay_env (engine r))) None
  end.

End ClosestDriver.

(** What [maxLoad] asks of a port of the cell: whether its direction is
    [isOutput], whether it is [isAnyOutput], the capacitance limit of its
    corner port and the default of its library. *)
Record PortLimits := {
  port_isOutput : bool;
  port_isAnyOutput : bool;
  port_capacitanceLimit : option Q;
  library_defaultMaxCapacitance : option Q }.

Section MaxLoad.
(** [MinMax::max()->compare] of the timing engine, and the limits
    [sdc->capacitanceLimit] has for the top cell and for the cell. *)
Variable compare : Q -> Q -> bool.
Variables top_limit cell_limit : option Q.

(** [if (exists1 && (!exists || min_max->compare(limit, limit1)))
    { limit = limit1; exists = true; }]. *)
Definition take_limit (limit limit1 : option Q) : option Q :=
  match limit1 with
  | Some l1 =>
      match limit with
      | None => Some l1
      | Some l => if compare l l1 then Some l1 else Some l
      end
  | None => limit
  end.

(** The limit of the port itself: that of its corner port, else, for an
    output, the default of its library. *)
Definition own_limit (port : PortLimits) : option Q :=
  match port_capacitanceLimit port with
  | Some l => Some l
  | None => if port_isAnyOutput port then library_defaultMaxCapacitance port else None
  end.

(** The limit [maxLoad] has for one output port. *)
Definition port_limit (port : PortLimits) : option Q :=
  take_limit (take_limit top_limit cell_limit) (own_limit port).

(** [Resizer::maxLoad(cell)], over the ports of the liberty cell. *)
Fixpoint maxLoad (ports : list PortLimits) : Q :=
  match ports with
  | [] => 0
  | port :: ports' =>
      if port_isOutput port then
        match port_limit port with
        | Some limit => limit
        | None => maxLoad ports'
        end
      else maxLoad ports'
  end.

End MaxLoad.

(** ** Locations and names *)

#[global] Instance is_int_dec (z : Z) : Decision (is_int z).
Proof. unfold is_int. apply _. Defined.

(** The result of an [int] operation: signed overflow has no defined
    behaviour. *)
Definition int_of (z : Z) : option Z := if decide (is_int z) then Some z else None.

(** [abs(a - b)] on [int]s. *)
Definition abs_diff (a b : Z) : option Z := d ← int_of (a - b); int_of (Z.abs d).

(** [odb::Rect], by its corners. *)
Record Rect := { xMin : Z; yMin : Z; xMax : Z; yMax : Z }.

(** [Resizer::tieLocation(load, separation)]: [load_loc] is the location
    of the load pin and [bbox] the bounding box of its instance, absent for
    a top-level port. *)
Definition tieLocation (load_loc : Z * Z) (bbox : option Rect) (separation : Z)
    : option (Z * Z) :=
  let load_x := fst load_loc in
  let load_y := snd load_loc in
  match bbox with
  | None => Some (load_x, load_y)
  | Some bbox =>
      left_dist ← abs_diff load_x (xMin bbox);
      right_dist ← abs_diff load_x (xMax bbox);
      bot_dist ← abs_diff load_y (yMin bbox);
      top_dist ← abs_diff load_y (yMax bbox);
      tie_x ← (if (left_dist <? right_dist) && (left_dist <? bot_dist)
                  && (left_dist <? top_dist)
               then int_of (load_x - separation) else Some load_x);
      tie_x ← (if (right_dist <? left_dist) && (right_dist <? bot_dist)
                  && (right_dist <? top_dist)
               then int_of (tie_x + separation) else Some tie_x);
      tie_y ← (if (bot_dist <? left_dist) && (bot_dist <? right_dist)
                  && (bot_dist <? top_dist)
               then int_of (load_y - separation) else Some load_y);
      tie_y ← (if (top_dist <? left_dist) && (top_dist <? right_dist)
                  && (top_dist <? bot_dist)
               then int_of (tie_y + separation) else Some tie_y);
      Some (tie_x, tie_y)
  end%Z.

(** [d] is strictly the smallest of the four distances. *)
Definition nearest (d a b c : Z) : Prop := (d < a /\ d < b /\ d < c)%Z.

(** One coordinate of [Resizer::setLocation]: the clamped value and
    whether it was changed. *)
Definition clamp_into_core (x lo hi size : Z) : option (Z * bool) :=
  if (x <? lo)%Z then Some (lo, true)
  else
    limit ← int_of (hi - size);
    if (limit <? x)%Z then Some (limit, true) else Some (x, false).

(** [Resizer::setLocation(db_inst, pt)]: the location given to the
    instance and the new value of [buffer_moved_into_core_]. [width] and
    [height] are those of the master of the instance. *)
Definition setLocation (core_exists_ : bool) (core_ : Rect) (width height : Z)
    (pt : Z * Z) (buffer_moved_into_core_ : bool) : option (Z * Z * bool) :=
  if core_exists_ then
    x ← clamp_into_core (fst pt) (xMin core_) (xMax core_) width;
    y ← clamp_into_core (snd pt) (yMin core_) (yMax core_) height;
    Some (fst x, fst y, buffer_moved_into_core_ || snd x || snd y)
  else Some (fst pt, snd pt, buffer_moved_into_core_).



(** The [do ... while] loop of [makeUniqueNetName] and of
    [makeUniqueInstName]: the name of the counter, which is then
    incremented, until no object has the name. At most [fuel] names are
    tried. Returns the name and the new counter. *)
Fixpoint unique_name_loop (name_of : Z -> string) (taken : string -> bool)
    (fuel : nat) (index : Z) : option (string * Z) :=
  match fuel with
  | O => None
  | S fuel' =>
      let name := name_of index in
      index' ← int_of (index + 1);
      if taken name then unique_name_loop name_of taken fuel' index'
      else Some (name, index')
  end.

(** The names [stringPrint] makes with the formats ["net%d"], ["%s_%d"]
    and ["%s%d"]. *)
Definition net_name (index : Z) : string := "net" +:+ pretty index.

Definition inst_name (base_name : string) (underscore : bool) (index : Z) : string :=
  if underscore then base_name +:+ "_" +:+ pretty index else base_name +:+ pretty index.

(** [Resizer::makeUniqueNetName]: [unique_net_index_] is the counter. *)
Definition makeUniqueNetName (r : Resizer) (fuel : nat) (unique_net_index_ : Z)
    : option (string * Z) :=
  unique_name_loop net_name
    (fun name => bool_decide (is_Some (db_nets (netlist r) !! name)))
    fuel unique_net_index_.

(** [Resizer::makeUniqueInstName(base_name, underscore)]:
    [unique_inst_index_] is the counter. *)
Definition makeUniqueInstName (r : Resizer) (base_name : string) (underscore : bool)
    (fuel : nat) (unique_inst_index_ : Z) : option (string * Z) :=
  unique_name_loop (inst_name base_name underscore)
    (fun name => bool_decide (is_Some (db_insts (netlist r) !! name)))
    fuel unique_inst_index_.

(** ** Dead logic *)

(** [network_->instance(pin)]: the instance of an instance pin and, for a
    top-level port, the top instance, written [None] here. It is never
    null, so the test [if (auto inst = network_->instance(drvr_pin))] of
    [eliminateDeadLogic] always holds. *)
Definition instance_of (p : Pin) : option Instance :=
  match p with
  | ITermPin inst _ => Some inst
  | BTermPin _ => None
  end.

(** The vector [queue] of [eliminateDeadLogic], its back first, and the set
    [kept_instances]. *)
Record Marking := {
  queue : list (option Instance);
  kept_instances : gset (option Instance) }.

(** The lambda [keepInst]. *)
Definition keepInst (inst : option Instance) (m : Marking) : Marking :=
  if decide (inst ∈ kept_instances m) then m
  else {| queue := inst :: queue m; kept_instances := {[ inst ]} ∪ kept_instances m |}.

(** The loop over a set of driver pins, in [keepPinDriver] and in the loop
    over the top-level ports. *)
Definition keepDrivers (drivers : list Pin) (m : Marking) : Marking :=
  fold_left (fun m drvr_pin => keepInst (instance_of drvr_pin) m) drivers m.

(** A marking that continues another one: what was kept is kept, and the
    queue has gained the newly kept instances and nothing else. *)
Definition continues (m m' : Marking) : Prop :=
  kept_instances m ⊆ kept_instances m'
  /\ forall x, x ∈ queue m' <->
               x ∈ queue m \/ (x ∈ kept_instances m' /\ x ∉ kept_instances m).

(** The instances still to be popped or to be met for the first time,
    among those of [U]: the loop over the queue ends within that many
    turns. *)
Definition turns_left (U : gset (option Instance)) (m : Marking) : nat :=
  length (queue m) + size (U ∖ kept_instances m).

Section DeadLogic.

(** [network_->drivers(net)] and [network_->drivers(pin)] (OpenSTA, outside
    the given sources): the driver pins, a null set being an empty one. *)
Variable net_drivers : Net -> list Pin.
Variable pin_drivers : Pin -> list Pin.

(** Whether the visitor [FindNetDrvrLoads] (outside the given sources)
    finds neither a driver nor a load on the net. *)
Variable unused : Netlist -> Net -> bool.

Variable r : Resizer.

(** The loop over the pins of the top instance: the drivers of the net of
    every top-level port are kept. The top-level ports are those of
    [bterm_net], each with its net. *)
Definition keep_port_drivers (m : Marking) : Marking :=
  fold_left (fun m kv => keepDrivers (net_drivers (snd kv)) m)
    (map_to_list (bterm_net (netlist r))) m.

(** The loop over the pins of a leaf instance that is a logic cell and not
    dont-touch: the instance is kept for every pin on a dont-touch net.
    [dontTouch(net)] dereferences the net of the database. *)
Fixpoint keep_dontTouch_nets (inst : Instance) (pins : list string) (m : Marking)
    : option Marking :=
  match pins with
  | [] => Some m
  | q :: pins' =>
      match net_of_pin (netlist r) (ITermPin inst q) with
      | Some net =>
          match db_nets (netlist r) !! net with
          | Some db_net =>
              keep_dontTouch_nets inst pins'
                (if net_doNotTouch db_net then keepInst (Some inst) m else m)
          | None => None
          end
      | None => keep_dontTouch_nets inst pins' m
      end
  end.

(** The first loop over the leaf instances. *)
Fixpoint keep_leaf_seeds (insts : list Instance) (m : Marking) : option Marking :=
  match insts with
  | [] => Some m
  | inst :: insts' =>
      if negb (isLogicStdCell r inst) || dontTouch r inst
      then keep_leaf_seeds insts' (keepInst (Some inst) m)
      else
        match instance_pins r inst with
        | Some pins =>
            match keep_dontTouch_nets inst pins m with
            | Some m' => keep_leaf_seeds insts' m'
            | None => None
            end
        | None => None
        end
  end.

(** [network_->pinIterator(inst)]: the pins of a leaf instance, and the
    top-level ports for the top instance. *)
Definition pins_of (inst : option Instance) : option (list Pin) :=
  match inst with
  | Some i => map (ITermPin i) <$> instance_pins r i
  | None => Some (map (fun kv => BTermPin (fst kv)) (map_to_list (bterm_net (netlist r))))
  end.

(** The loop [while (!queue.empty())]: the instance at the back is popped
    and the drivers of each of its pins are kept. *)
Fixpoint mark (fuel : nat) (m : Marking) : option (gset (option Instance)) :=
  match queue m with
  | [] => Some (kept_instances m)
  | inst :: rest =>
      match fuel with
      | O => None
      | S fuel' =>
          match pins_of inst with
          | Some pins =>
              mark fuel'
                (fold_left (fun m pin => keepDrivers (pin_drivers pin) m) pins
                   {| queue := rest; kept_instances := kept_instances m |})
          | None => None
          end
      end
  end.

(** The second loop over the leaf instances: those not kept are deleted
    and counted, in an [int]. *)
Fixpoint delete_unkept (kept : gset (option Instance)) (insts : list Instance)
    (remove_inst_count : Z) (s : Resizer) : Z * Resizer :=
  match insts with
  | [] => (remove_inst_count, s)
  | inst :: insts' =>
      if decide (Some inst ∈ kept)
      then delete_unkept kept insts' remove_inst_count s
      else delete_unkept kept insts' (to_int (remove_inst_count + 1))
             (edit (deleteInstance inst) s)
  end.

(** The nets collected in [to_delete]. *)
Definition nets_to_delete (s : Resizer) : list Net :=
  map fst
    (List.filter (fun kv => unused (netlist s) (fst kv) && negb (net_doNotTouch (snd kv)))
       (map_to_list (db_nets (netlist s)))).

(** The loop over [to_delete]. *)
Fixpoint delete_nets (nets : list Net) (remove_net_count : Z) (s : Resizer) : Z * Resizer :=
  match nets with
  | [] => (remove_net_count, s)
  | net :: nets' =>
      delete_nets nets' (to_int (remove_net_count + 1)) (edit (deleteNet net) s)
  end.

(** [network_->leafInstances()], in the order the database yields them. *)
Definition leafInstances : list Instance := map fst (map_to_list (db_insts (netlist r))).

(** [Resizer::eliminateDeadLogic(clean_nets)]: the two counts it reports
    and the new state. *)
Definition eliminateDeadLogic (fuel : nat) (clean_nets : bool) : option (Z * Z * Resizer) :=
  match keep_leaf_seeds leafInstances
          (keep_port_drivers {| queue := []; kept_instances := ∅ |}) with
  | Some m =>
      match mark fuel m with
      | Some kept =>
          let (remove_inst_count, r1) := delete_unkept kept leafInstances 0 r in
          let (remove_net_count, r2) :=
            if clean_nets then delete_nets (nets_to_delete r1) 0 r1 else (0%Z, r1) in
          Some (remove_inst_count, remove_net_count, r2)
      | None => None
      end
  | None => None
  end.

(** What makes the first loop over the leaf instances keep one: it is not
    a logic cell, or it is dont-touch, or one of its pins is on a dont-touch
    net. *)
Definition leaf_seed (i : Instance) : Prop :=
  isLogicStdCell r i = false
  \/ dontTouch r i = true
  \/ exists pins q net db_net,
       instance_pins r i = Some pins /\ q ∈ pins
       /\ iterm_net (netlist r) !! (i, q) = Some net
       /\ db_nets (netlist r) !! net = Some db_net /\ net_doNotTouch db_net = true.

(** The instances [eliminateDeadLogic] has a reason to keep: the drivers of
    the nets of the top-level ports; the leaf instances the first loop
    keeps; and the drivers of the pins of an instance it has a reason to
    keep. *)
Inductive live : option Instance -> Prop :=
| live_port port net p :
    bterm_net (netlist r) !! port = Some net -> p ∈ net_drivers net ->
    live (instance_of p)
| live_leaf i :
    is_Some (db_insts (netlist r) !! i) -> leaf_seed i -> live (Some i)
| live_driver j pins pin p :
    live j -> pins_of j = Some pins -> pin ∈ pins -> p ∈ pin_drivers pin ->
    live (instance_of p).

(** The drivers of the pins of an instance are all in a set. *)
Definition drivers_kept (K : gset (option Instance)) (x : option Instance) : Prop :=
  forall pins pin p,
    pins_of x = Some pins -> pin ∈ pins -> p ∈ pin_drivers pin -> instance_of p ∈ K.

(** The netlist is complete: every instance has its master and every net
    an instance pin is on is a net of the database; the driver pins are
    pins of instances of the database or top-level ports. *)
Definition complete : Prop :=
  (forall i di, db_insts (netlist r) !! i = Some di ->
     is_Some (db_masters (netlist r) !! inst_master di))
  /\ (forall i q net, iterm_net (netlist r) !! (i, q) = Some net ->
        is_Some (db_nets (netlist r) !! net))
  /\ (forall net i q, ITermPin i q ∈ net_drivers net -> is_Some (db_insts (netlist r) !! i))
  /\ (forall pin i q, ITermPin i q ∈ pin_drivers pin -> is_Some (db_insts (netlist r) !! i)).

End DeadLogic.

(** ** The longest wire worth driving *)

(** [std::min(a, b)] on floats. *)
Definition fmin (a b : Q) : Q := if Qltb b a then b else a.

Abbreviation Corner := string.

(** The loop state of the search for the wire length of a buffer. *)
Record WireSearch := { wire_length1 : Q; wire_length2 : Q; wire_diff1 : Q }.

Section MaxWireLength.

(** [wireSignalResistance(corner)]; [drvr_port->driveResistance()] of the
    output port of a buffer cell; whether [db_network_->staToDb(cell)] is
    not null; and the delay [bufferWireDelay] gives for a buffer cell and a
    wire length, which [cellWireDelay] has from the delay calculator of a
    block made for it. *)
Variable wireSignalResistance : Corner -> Q.
Variable driveResistance : LibertyCell -> Q.
Variable has_master : LibertyCell -> bool.
Variable bufferWireDelay : LibertyCell -> Q -> Q.

(** [Resizer::splitWireDelayDiff], the objective function. *)
Definition splitWireDelayDiff (wire_length : Q) (buffer_cell : LibertyCell) : Q :=
  bufferWireDelay buffer_cell wire_length - bufferWireDelay buffer_cell (wire_length / 2) * 2.

(** The loop test
    [abs(wire_length1 - wire_length2) > max(wire_length1, wire_length2) * tol]. *)
Definition wire_search_continues (s : WireSearch) : bool :=
  Qltb (fmax (wire_length1 s) (wire_length2 s) * tol) (Qabs (wire_length1 s - wire_length2 s)).

(** The loop body. *)
Definition wire_search_step (cell : LibertyCell) (s : WireSearch) : WireSearch :=
  if Qltb (wire_diff1 s) 0 then
    let wire_length2' := wire_length2 s * 2 in
    {| wire_length1 := wire_length2 s; wire_length2 := wire_length2';
       wire_diff1 := splitWireDelayDiff wire_length2' cell |}
  else
    let wire_length3 := (wire_length1 s + wire_length2 s) / 2 in
    let diff2 := splitWireDelayDiff wire_length3 cell in
    if Qltb diff2 0 then
      {| wire_length1 := wire_length3; wire_length2 := wire_length2 s;
         wire_diff1 := wire_diff1 s |}
    else
      {| wire_length1 := wire_length1 s; wire_length2 := wire_length3; wire_diff1 := diff2 |}.

(** The [while] loop, run for at most [fuel] tests of its condition;
    [None] when the fuel does not suffice. *)
Fixpoint wire_search_loop (fuel : nat) (cell : LibertyCell) (s : WireSearch) : option Q :=
  match fuel with
  | O => None
  | S fuel' =>
      if wire_search_continues s then wire_search_loop fuel' cell (wire_search_step cell s)
      else Some (wire_length1 s)
  end.

(** [Resizer::findMaxWireLength(drvr_port, corner)] for the output port of
    a buffer cell, as [findMaxWireLength(buffer_cell, corner)] calls it. The
    error [RSZ-0070] for a cell without master is [None] too. *)
Definition findMaxWireLength (fuel : nat) (buffer_cell : LibertyCell) (corner : Corner)
    : option Q :=
  if has_master buffer_cell then
    let drvr_r := driveResistance buffer_cell in
    let wire_length2 := drvr_r / wireSignalResistance corner in
    wire_search_loop fuel buffer_cell
      {| wire_length1 := 0; wire_length2 := wire_length2;
         wire_diff1 := splitWireDelayDiff wire_length2 buffer_cell |}
  else None.

(** The loop of [findMaxWireLength1] over the buffer cells, for one
    corner. *)
Fixpoint buffer_lengths (INF : Q) (fuel : nat) (corner : Corner)
    (buffer_cells : list LibertyCell) (max_length : option Q) : option (option Q) :=
  match buffer_cells with
  | [] => Some max_length
  | buffer_cell :: buffer_cells' =>
      match findMaxWireLength fuel buffer_cell corner with
      | Some buffer_length =>
          buffer_lengths INF fuel corner buffer_cells'
            (Some (fmin (default INF max_length) buffer_length))
      | None => None
      end
  end.

(** The loop of [findMaxWireLength1] over the corners. *)
Fixpoint corner_lengths (INF : Q) (fuel : nat) (corners : list Corner)
    (buffer_cells : list LibertyCell) (max_length : option Q) : option (option Q) :=
  match corners with
  | [] => Some max_length
  | corner :: corners' =>
      if Qle_bool (wireSignalResistance corner) 0
      then corner_lengths INF fuel corners' buffer_cells max_length
      else
        match buffer_lengths INF fuel corner buffer_cells max_length with
        | Some max_length' => corner_lengths INF fuel corners' buffer_cells max_length'
        | None => None
        end
  end.

(** [Resizer::findMaxWireLength1]: the error [RSZ-0089], when no length
    was found, is [None] too. *)
Definition findMaxWireLength1 (INF : Q) (fuel : nat) (corners : list Corner)
    (buffer_cells : list LibertyCell) : option Q :=
  match corner_lengths INF fuel corners buffer_cells None with
  | Some (Some max_length) => Some max_length
  | Some None => None
  | None => None
  end.

End MaxWireLength.

(** ** More of the small design *)

Module Cases.



(** The design after a second sizing of the driver [u1/ZN]. *)
Definition u1_resized_again : Resizer :=
  match resizeToTargetSlew (ITermPin "u1" "ZN") Design.u1_resized with
  | Some (_, r) => r
  | None => Design.u1_resized
  end.

(** The design after the attempt to remove [b3] in auto mode, and after
    the removal of all buffers. *)
Definition b3_kept : Resizer :=
  match removeBuffer "b3" true false Design.the_resizer with
  | Some (_, r) => r
  | None => Design.the_resizer
  end.

Definition buffers_removed : Resizer :=
  match removeBuffers [] false Design.the_resizer with
  | Some (_, r) => r
  | None => Design.the_resizer
  end.

(** The design after the swap of the inputs of [u1], and after a second
    swap of them. *)
Definition A1 : LibertyPort := ("NAND2_X1", "A1").
Definition A2 : LibertyPort := ("NAND2_X1", "A2").
Definition ZN : LibertyPort := ("NAND2_X1", "ZN").

Definition u1_swapped : Resizer :=
  default Design.the_resizer (swapPins "u1" A1 A2 true Design.the_resizer).

Definition u1_swapped_back : Resizer :=
  default Design.the_resizer (swapPins "u1" A1 A2 false u1_swapped).

(** A NAND2 whose input [A1] is slower than [A2], and the two queries on
    ports. *)
Definition skewed : LibertyCell :=
  {| cell_lib := "lib"; cell_name := "NAND2_X1"; isBuffer := false; isInverter := false;
     bufferPorts := ("", ""); cell_dontUse := false; footprint := None;
     userFunctionClass := None;
     cell_ports := [("A1", Design.input); ("A2", Design.input); ("ZN", Design.output)];
     timingArcSets := [Design.arc_set "NAND2_X1" "A1" "ZN" 3;
                       Design.arc_set "NAND2_X1" "A2" "ZN" 1] |}.

Definition is_input (port : LibertyPort) : bool := negb (bool_decide (snd port = "ZN")).

Definition same_port (a b : LibertyPort) : bool := bool_decide (a = b).


(** The load limit of a buffer, for the example: its target load. *)
Definition limit_of (cell : LibertyCell) : Q := target_load Design.the_resizer cell.

(** An output port with its own limit, under a limit of the design. *)
Definition limited_port : PortLimits :=
  {| port_isOutput := true; port_isAnyOutput := true;
     port_capacitanceLimit := Some (3 # 10);
     library_defaultMaxCapacitance := Some 1 |}.

(** The design with two nets that have generated names. *)
Definition named : Resizer :=
  edit (set_db_nets
          (<["net0" := {| net_doNotTouch := false |}]>
             (<["net1" := {| net_doNotTouch := false |}]>
                (db_nets Design.the_netlist)))) Design.the_resizer.

Definition core : Rect := {| xMin := 0; yMin := 0; xMax := 1000; yMax := 500 |}.

(** The design with one more buffer, [d1], from [n1] onto a net that
    nothing reads. *)
Definition with_dead : Resizer :=
  edit (fun n =>
          connectPin "d1" "Z" "n_dead"
            (connectPin "d1" "A" "n1"
               (set_db_nets (<["n_dead" := {| net_doNotTouch := false |}]> (db_nets n))
                  (set_db_insts (<["d1" := Design.an_inst "BUF_X1"]> (db_insts n)) n))))
       Design.the_resizer.

(** The drivers there: the output pins of the instances and the input
    ports [in] and [p1]. *)
Definition is_driver (p : Pin) : bool :=
  match p with
  | ITermPin _ _ =>
      match libertyPort_direction with_dead p with
      | Some d => isAnyOutput d
      | None => false
      end
  | BTermPin q => bool_decide (q ∈ ["in"; "p1"])
  end.

Definition drivers_on (net : Net) : list Pin :=
  List.filter is_driver (connectedPins (netlist with_dead) net).

Definition drivers_at (pin : Pin) : list Pin :=
  match net_of_pin (netlist with_dead) pin with
  | Some net => drivers_on net
  | None => []
  end.

(** A net with nothing connected. *)
Definition no_pins (n : Netlist) (net : Net) : bool :=
  match connectedPins n net with
  | [] => true
  | _ :: _ => false
  end.

Definition dead_removed : Resizer :=
  match eliminateDeadLogic drivers_on drivers_at no_pins with_dead 7 true with
  | Some (_, r) => r
  | None => with_dead
  end.


(** A wire whose delay grows with the square of its length, and two
    corners, of which [slow] has no wire resistance. *)
Definition wire_delay : LibertyCell -> Q -> Q := fun _ wire_length => wire_length * wire_length + 1.

Definition wire_resistance : Corner -> Q :=
  fun corner => if String.eqb corner "typ" then 1 else 0.

Definition drive_resistance : LibertyCell -> Q :=
  fun cell => if String.eqb (cell_name cell) "BUF_X1" then 1 else 1 # 2.

Definition wire_length : Q :=
  default 0
    (findMaxWireLength wire_resistance drive_resistance (fun _ => true) wire_delay
       12 Design.BUF_X1 "typ").

Definition shortest_wire : Q :=
  default 0
    (findMaxWireLength1 wire_resistance drive_resistance (fun _ => true) wire_delay
       (INF (delay_env Design.the_engine)) 12 ["slow"; "typ"] [Design.BUF_X1; Design.BUF_X2]).

End Cases.

(** * Properties *)

(** ** Arithmetic *)

Lemma Qltb_lt x y : Qltb x y = true <-> x < y.
Proof. unfold Qltb. rewrite Qlt_alt. destruct (x ?= y); split; congruence. Qed.

Lemma Qltb_ge x y : Qltb x y = false <-> y <= x.
Proof.
  split.
  - intros E. apply Qnot_lt_le. intros H. apply Qltb_lt in H. congruence.
  - intros H. destruct (Qltb x y) eqn:E; [| reflexivity].
    apply Qltb_lt in E. apply Qle_not_lt in H. contradiction.
Qed.

Lemma fmax_cases a b : (fmax a b = a /\ b <= a) \/ (fmax a b = b /\ a < b).
Proof.
  unfold fmax. destruct (Qltb a b) eqn:E.
  - right. split; [reflexivity | now apply Qltb_lt].
  - left. split; [reflexivity | now apply Qltb_ge].
Qed.

Lemma fmax_ge_l a b : a <= fmax a b.
Proof. destruct (fmax_cases a b) as [[-> H] | [-> H]]; lra. Qed.

Lemma fmax_ge_r a b : b <= fmax a b.
Proof. destruct (fmax_cases a b) as [[-> H] | [-> H]]; lra. Qed.


(** Two ways to name the result of a computation that is known to succeed. *)
Lemma some_pair_eta {A B : Type} (o : option (A * B)) (a : A) (d : B) :
  fst <$> o = Some a ->
  o = Some (a, match o with Some (_, b) => b | None => d end).
Proof. destruct o as [[a' b] |]; simpl; [intros [= ->]; reflexivity | discriminate]. Qed.

Lemma some_default {A : Type} (o : option A) (d : A) :
  match o with Some _ => true | None => false end = true ->
  o = Some (default d o).
Proof. destruct o; [reflexivity | discriminate]. Qed.

(** ** Delay/slew query adapter *)

Lemma rf_get_set a rf rf' v :
  rf_get (rf_set a rf v) rf' = if decide (rf = rf') then v else rf_get a rf'.
Proof. destruct rf, rf'; reflexivity. Qed.

Section MaxFold.
Context {A : Type} (key : A -> RiseFall) (val : A -> Q).

Let step (a : RiseFallValues) (x : A) := rf_max a (key x) (val x).

Lemma rf_max_fold_spec (l : list A) (a : RiseFallValues) (rf : RiseFall) :
  let r := fold_left step l a in
  rf_get a rf <= rf_get r rf /\
  (forall x, x ∈ l -> key x = rf -> val x <= rf_get r rf) /\
  (rf_get r rf = rf_get a rf \/
   exists x, x ∈ l /\ key x = rf /\ rf_get r rf = val x).
Proof.
  revert a. induction l as [| y l IH]; intros a; simpl.
  - split; [lra |]. split; [| now left].
    intros x Hx. now apply elem_of_nil in Hx.
  - destruct (IH (step a y)) as (Hge & Hub & Hat).
    assert (Hstep : rf_get (step a y) rf
                    = if decide (key y = rf) then fmax (rf_get a (key y)) (val y)
                      else rf_get a rf)
      by apply rf_get_set.
    split; [| split].
    + rewrite Hstep in Hge. destruct (decide (key y = rf)) as [<- |]; [| exact Hge].
      pose proof (fmax_ge_l (rf_get a (key y)) (val y)). lra.
    + intros x Hx Hk. apply elem_of_cons in Hx as [-> | Hx]; [| now apply Hub].
      rewrite Hstep in Hge. rewrite decide_True in Hge by exact Hk.
      pose proof (fmax_ge_r (rf_get a (key y)) (val y)). lra.
    + destruct Hat as [Heq | (x & Hx & Hk & Heq)].
      * rewrite Hstep in Heq. destruct (decide (key y = rf)) as [Hk |]; [| now left].
        destruct (fmax_cases (rf_get a (key y)) (val y)) as [[E _] | [E _]];
          rewrite E in Heq.
        -- left. now rewrite Heq, Hk.
        -- right. exists y. split; [apply list_elem_of_here | now split].
      * right. exists x. split; [now apply list_elem_of_further | now split].
Qed.
End MaxFold.

Lemma gateDelays_flat env cell drvr_port load_cap :
  gateDelays env cell drvr_port load_cap
  = fold_left (gateDelays_arc env load_cap) (drvr_arcs cell drvr_port)
      ({| rise_value := - INF env; fall_value := - INF env |},
       {| rise_value := - INF env; fall_value := - INF env |}).
Proof.
  unfold gateDelays, drvr_arcs.
  generalize ({| rise_value := - INF env; fall_value := - INF env |},
              {| rise_value := - INF env; fall_value := - INF env |}).
  induction (timingArcSets cell) as [| s l IH]; intros acc; simpl; [reflexivity |].
  rewrite IH. unfold gateDelays_set.
  rewrite filter_cons. case_bool_decide as Hto; simpl.
  - destruct (role_isTimingCheck s) eqn:Hrole; simpl.
    + rewrite decide_False by (intros [_ ?]; discriminate). reflexivity.
    + rewrite decide_True by (split; [exact Hto | reflexivity]).
      simpl. now rewrite fold_left_app.
  - rewrite decide_False by (intros [? _]; contradiction). reflexivity.
Qed.

Lemma gateDelays_arc_fst env load_cap l acc :
  fst (fold_left (gateDelays_arc env load_cap) l acc)
  = fold_left (fun a arc => rf_max a (toEdge arc) (gateDelay (arc_dcalc env load_cap arc)))
      l (fst acc).
Proof. revert acc. induction l as [| x l IH]; intros acc; simpl; [| rewrite IH]; reflexivity. Qed.

Lemma gateDelays_arc_snd env load_cap l acc :
  snd (fold_left (gateDelays_arc env load_cap) l acc)
  = fold_left (fun a arc => rf_max a (toEdge arc) (drvrSlew (arc_dcalc env load_cap arc)))
      l (snd acc).
Proof. revert acc. induction l as [| x l IH]; intros acc; simpl; [| rewrite IH]; reflexivity. Qed.

(** C7. For every driver port and load capacitance, [gateDelays] returns,
    for each output edge, the maximum gate delay and the maximum driver slew
    over the non-check timing arcs into the port that end in that edge, each
    arc evaluated at the annotated input slew of its source port when there
    is one and at the target slew otherwise. The maximum starts from the
    sentinel [-INF]: with no such arc all values are [-INF]. The function
    is total. *)
Theorem gateDelays_worst_case env cell drvr_port load_cap rf :
  let delays := fst (gateDelays env cell drvr_port load_cap) in
  let slews := snd (gateDelays env cell drvr_port load_cap) in
  let arcs_rf := filter (fun arc => toEdge arc = rf) (drvr_arcs cell drvr_port) in
  let in_slew arc :=
    match input_slew_map_ env !! arc_from arc with
    | Some slew => rf_get slew (fromEdge arc)
    | None => rf_get (tgt_slews_ env) (fromEdge arc)
    end in
  let delay_of arc := gateDelay (arc_delay_calc_gateDelay env arc (in_slew arc) load_cap) in
  let slew_of arc := drvrSlew (arc_delay_calc_gateDelay env arc (in_slew arc) load_cap) in
  Forall (fun arc => delay_of arc <= rf_get delays rf /\ slew_of arc <= rf_get slews rf)
         arcs_rf /\
  (rf_get delays rf = - INF env \/ Exists (fun arc => rf_get delays rf = delay_of arc) arcs_rf) /\
  (rf_get slews rf = - INF env \/ Exists (fun arc => rf_get slews rf = slew_of arc) arcs_rf) /\
  - INF env <= rf_get delays rf /\ - INF env <= rf_get slews rf /\
  match arcs_rf with
  | [] => rf_get delays rf = - INF env /\ rf_get slews rf = - INF env
  | _ :: _ => True
  end.
Proof.
  intros delays slews arcs_rf in_slew delay_of slew_of.
  subst delays slews. rewrite gateDelays_flat, gateDelays_arc_fst, gateDelays_arc_snd.
  simpl fst; simpl snd.
  set (init := {| rise_value := - INF env; fall_value := - INF env |}).
  assert (Hinit : rf_get init rf = - INF env) by (destruct rf; reflexivity).
  destruct (rf_max_fold_spec toEdge (fun arc => gateDelay (arc_dcalc env load_cap arc))
              (drvr_arcs cell drvr_port) init rf) as (Hd1 & Hd2 & Hd3).
  destruct (rf_max_fold_spec toEdge (fun arc => drvrSlew (arc_dcalc env load_cap arc))
              (drvr_arcs cell drvr_port) init rf) as (Hs1 & Hs2 & Hs3).
  rewrite Hinit in Hd1, Hd3, Hs1, Hs3.
  assert (Hex : forall (v : Q) (f : TimingArc -> Q),
             (exists x, x ∈ drvr_arcs cell drvr_port /\ toEdge x = rf /\ v = f x) ->
             Exists (fun arc => v = f arc) arcs_rf).
  { intros v f (x & Hx & Hk & Hv). apply Exists_exists. exists x.
    split; [| exact Hv]. apply list_elem_of_filter. now split. }
  repeat split.
  - apply Forall_forall. intros arc Harc.
    apply list_elem_of_filter in Harc as [Hk Harc].
    split; [now apply Hd2 | now apply Hs2].
  - destruct Hd3 as [? | H]; [now left | right; now apply Hex].
  - destruct Hs3 as [? | H]; [now left | right; now apply Hex].
  - exact Hd1.
  - exact Hs1.
  - destruct arcs_rf as [| a l] eqn:E; [| exact I].
    assert (Hnone : forall (v : Q) (f : TimingArc -> Q), ~ Exists (fun arc : TimingArc => v = f arc) (@nil TimingArc)).
    { intros v f H. now apply Exists_nil in H. }
    split.
    + destruct Hd3 as [? | H]; [assumption |]. apply Hex in H.
      now apply Hnone in H.
    + destruct Hs3 as [? | H]; [assumption |]. apply Hex in H.
      now apply Hnone in H.
Qed.

(** ** Parasitics invalidation tracker *)

(** C9. Invalidating the parasitics of a pin leaves the set of invalid nets
    as it is when the net is null or the liberty direction of the pin is a
    tristate one ([isAnyTristate]); for any other direction the net is added
    and the membership of every other net is unchanged, as is the rest of
    the state. (A pin with a net but without a liberty port is dereferenced
    through a null pointer.) Erasing removes the one net only. *)
Theorem invalidateParasitics_frame (pin : Pin) (net : option Net) (r : Resizer) :
  match net, libertyPort_direction r pin with
  | None, _ => invalidateParasitics pin net r = Some r
  | Some x, Some direction =>
      if isAnyTristate direction
      then invalidateParasitics pin net r = Some r
      else invalidateParasitics pin net r
             = Some (set_parasitics_invalid ({[x]} ∪ parasitics_invalid_ r) r)
           /\ forall y : Net,
                y ∈ ({[x]} ∪ parasitics_invalid_ r : gset Net)
                <-> y = x \/ y ∈ parasitics_invalid_ r
  | Some x, None => invalidateParasitics pin net r = None
  end
  /\ forall x y : Net,
       y ∈ parasitics_invalid_ (eraseParasitics x r) <-> y <> x /\ y ∈ parasitics_invalid_ r.
Proof.
  split.
  - unfold invalidateParasitics. destruct net as [x |]; [| reflexivity].
    destruct (libertyPort_direction r pin) as [direction |]; [| reflexivity].
    destruct (isAnyTristate direction); simpl; [reflexivity |].
    split; [reflexivity |]. intros y. set_solver.
  - intros x y. unfold eraseParasitics. simpl. set_solver.
Qed.

(** ** Journal restore *)

Lemma to_int_id z : (- 2 ^ 31 <= z < 2 ^ 31)%Z -> to_int z = z.
Proof.
  intros H. unfold to_int.
  rewrite Z.mod_small by lia. lia.
Qed.

(** C1. If the ECO checkpoint recorded no edits, [journalRestore] closes
    the checkpoint (and the incremental-parasitics period) and leaves the
    counters, the logs and the netlist as they are. Otherwise each counter
    is decremented by the number of entries of its log (the resized
    instances, the inserted buffers, the clone pairs, the instances with
    swapped pins, the removed-buffer records) and every per-kind log is
    empty afterwards. The counters are C [int]s; the subtraction is exact
    whenever its result is one. *)
Theorem journalRestore_counters (r : Resizer) (c : Counters) :
  counters_fit c (journal_ r) ->
  let r' := fst (journalRestore r c) in
  let c' := snd (journalRestore r c) in
  let j := journal_ r in
  (ecoEmpty (db_ r) = true /\
   r' = incrementalParasiticsEnd (set_db (endEco (db_ r)) (init r)) /\
   c' = c /\ journal_ r' = j /\ netlist r' = netlist r /\
   eco_open (db_ r') = false)
  \/
  (ecoEmpty (db_ r) = false /\
   resize_count c' = (resize_count c - Z.of_nat (size (resized_inst_map_ j)))%Z /\
   inserted_buffer_count c'
     = (inserted_buffer_count c - Z.of_nat (length (inserted_buffers_ j)))%Z /\
   cloned_gate_count c' = (cloned_gate_count c - Z.of_nat (length (cloned_gates_ j)))%Z /\
   swap_pin_count c' = (swap_pin_count c - Z.of_nat (size (swapped_pins_ j)))%Z /\
   removed_buffer_count c'
     = (removed_buffer_count c - Z.of_nat (size (removed_buffer_map_ j)))%Z /\
   resized_inst_map_ (journal_ r') = ∅ /\
   inserted_buffers_ (journal_ r') = [] /\
   inserted_buffer_set_ (journal_ r') = ∅ /\
   cloned_gates_ (journal_ r') = [] /\
   cloned_inst_set_ (journal_ r') = ∅ /\
   swapped_pins_ (journal_ r') = ∅ /\
   removed_buffer_map_ (journal_ r') = ∅).
Proof.
  intros (H1 & H2 & H3 & H4 & H5). unfold is_int in *. unfold journalRestore.
  change (db_ (init r)) with (db_ r).
  destruct (ecoEmpty (db_ r)) eqn:E; simpl.
  - left. repeat split.
  - right. unfold decrement. destruct (callback_registered_ r); simpl;
      rewrite !to_int_id by assumption;
    repeat split.
Qed.

Lemma journalRestore_counters_witness :
  counters_fit Design.some_counters (journal_ Design.resized_once)
  /\ resize_count (snd (journalRestore Design.resized_once Design.some_counters)) = 2%Z
  /\ resized_inst_map_ (journal_ (fst (journalRestore Design.resized_once
                                         Design.some_counters))) = ∅.
Proof.
  assert (H : counters_fit Design.some_counters (journal_ Design.resized_once)).
  { unfold counters_fit, is_int. vm_compute. repeat split; discriminate. }
  split; [exact H |].
  destruct (journalRestore_counters Design.resized_once Design.some_counters H)
    as [(E & _) | (_ & Hc & _ & _ & _ & _ & Hm & _)].
  - vm_compute in E. discriminate E.
  - split; [| exact Hm]. rewrite Hc. vm_compute. reflexivity.
Defined.

(** ** Resize journal *)

Lemma set_parasitics_invalid_id r : set_parasitics_invalid (parasitics_invalid_ r) r = r.
Proof. now destruct r. Qed.

Lemma invalidateParasitics_only_set pin net r r' :
  invalidateParasitics pin net r = Some r' ->
  exists inv, r' = set_parasitics_invalid inv r.
Proof.
  unfold invalidateParasitics. intros H.
  destruct net as [x |].
  - destruct (libertyPort_direction r pin) as [d |]; [| discriminate].
    destruct (negb (isAnyTristate d)); injection H as <-.
    + eexists. reflexivity.
    + exists (parasitics_invalid_ r). now destruct r.
  - injection H as <-. exists (parasitics_invalid_ r). now destruct r.
Qed.

Lemma invalidate_pins_only_set inst ports r r' :
  invalidate_pins inst ports r = Some r' ->
  exists inv, r' = set_parasitics_invalid inv r.
Proof.
  revert r. induction ports as [| port ports IH]; intros r H; simpl in H.
  - injection H as <-. exists (parasitics_invalid_ r). now destruct r.
  - destruct (invalidateParasitics _ _ r) as [r1 |] eqn:E; [| discriminate].
    apply invalidateParasitics_only_set in E as [inv1 ->].
    apply IH in H as [inv2 ->]. exists inv2. reflexivity.
Qed.

(** What a call of [replaceCell] that returns does to the state. *)
Lemma replaceCell_inv inst replacement journal r b r' :
  replaceCell inst replacement journal r = Some (b, r') ->
  (b = false /\ r' = r) \/
  (b = true /\ exists a1 a2 inv,
     r' = set_parasitics_invalid inv
            (designAreaIncr a2
               (edit (sta_replaceCell inst (cell_name replacement))
                  ((if journal then journalInstReplaceCellBefore inst else id)
                     (designAreaIncr a1 r))))).
Proof.
  unfold replaceCell. intros H.
  destruct (db_masters (netlist r) !! cell_name replacement) as [rm |];
    [| injection H as <- <-; now left].
  destruct (db_insts (netlist r) !! inst) as [dinst |]; [| discriminate].
  destruct (db_masters (netlist r) !! inst_master dinst) as [master |]; [| discriminate].
  right.
  match type of H with
  | (if ?c then _ else _) = _ => destruct c
  end.
  - match type of H with
    | match ?m with _ => _ end = _ => destruct m as [r1 |] eqn:E; [| discriminate]
    end.
    injection H as <- <-. split; [reflexivity |].
    apply invalidate_pins_only_set in E as [inv ->].
    destruct journal; do 3 eexists; reflexivity.
  - injection H as <- <-. split; [reflexivity |].
    destruct journal; do 3 eexists; symmetry; apply set_parasitics_invalid_id.
Qed.

Lemma libertyCell_journalBegin r i : libertyCell (journalBegin r) i = libertyCell r i.
Proof.
  unfold libertyCell, journalBegin, netlist. simpl.
  destruct (callback_registered_ r); reflexivity.
Qed.

Lemma journalInstReplaceCellBefore_map inst r :
  resized_inst_map_ (journal_ (journalInstReplaceCellBefore inst r))
  = match resized_inst_map_ (journal_ r) !! inst with
    | Some _ => resized_inst_map_ (journal_ r)
    | None => <[inst := libertyCell r inst]> (resized_inst_map_ (journal_ r))
    end.
Proof.
  unfold journalInstReplaceCellBefore.
  destruct (resized_inst_map_ (journal_ r) !! inst); reflexivity.
Qed.

Lemma journalInstReplaceCellBefore_frame inst r :
  engine (journalInstReplaceCellBefore inst r) = engine r
  /\ db_ (journalInstReplaceCellBefore inst r) = db_ r.
Proof.
  unfold journalInstReplaceCellBefore.
  destruct (resized_inst_map_ (journal_ r) !! inst); split; reflexivity.
Qed.

(** One journalled resize: the log gains the prior cell of the instance if
    it has no entry yet, and changes in no other way; the cells of the other
    instances stay. *)
Lemma replaceCell_journal inst cell r b r' :
  replaceCell inst cell true r = Some (b, r') ->
  engine r' = engine r
  /\ (forall i, i <> inst -> libertyCell r' i = libertyCell r i)
  /\ (b = false -> r' = r)
  /\ (b = true ->
      resized_inst_map_ (journal_ r')
      = match resized_inst_map_ (journal_ r) !! inst with
        | Some _ => resized_inst_map_ (journal_ r)
        | None => <[inst := libertyCell r inst]> (resized_inst_map_ (journal_ r))
        end).
Proof.
  intros H. apply replaceCell_inv in H as [[-> ->] | [-> (a1 & a2 & inv & ->)]].
  - split; [reflexivity |]. split; [reflexivity |]. split; [reflexivity | discriminate].
  - destruct (journalInstReplaceCellBefore_frame inst (designAreaIncr a1 r)) as [He Hd].
    split; [| split; [| split]].
    + simpl. exact He.
    + intros i Hi. unfold libertyCell, netlist. simpl. rewrite He, Hd. simpl.
      now rewrite lookup_alter_ne by congruence.
    + discriminate.
    + intros _. simpl. rewrite journalInstReplaceCellBefore_map. reflexivity.
Qed.

Lemma replaceCells_first_wins r0 ops r r' :
  engine r = engine r0 ->
  (forall i, match resized_inst_map_ (journal_ r) !! i with
             | Some prior => prior = libertyCell r0 i
             | None => libertyCell r i = libertyCell r0 i
             end) ->
  replaceCells ops r = Some r' ->
  engine r' = engine r0
  /\ (forall i, match resized_inst_map_ (journal_ r') !! i with
                | Some prior => prior = libertyCell r0 i
                | None => libertyCell r' i = libertyCell r0 i
                end)
  /\ (forall i prior, resized_inst_map_ (journal_ r) !! i = Some prior ->
                      resized_inst_map_ (journal_ r') !! i = Some prior).
Proof.
  revert r. induction ops as [| [inst cell] ops IH]; intros r He Hinv H; simpl in H.
  - injection H as <-. auto.
  - destruct (replaceCell inst cell true r) as [[b r1] |] eqn:E; [| discriminate].
    apply replaceCell_journal in E as (He1 & Hother & Hfalse & Htrue).
    assert (Hmap : forall i prior,
               resized_inst_map_ (journal_ r) !! i = Some prior ->
               resized_inst_map_ (journal_ r1) !! i = Some prior).
    { intros i prior Hi. destruct b; [| now rewrite (Hfalse eq_refl)].
      rewrite (Htrue eq_refl).
      destruct (resized_inst_map_ (journal_ r) !! inst) eqn:Ei; [exact Hi |].
      rewrite lookup_insert_ne; [exact Hi | congruence]. }
    assert (Hinv1 : forall i, match resized_inst_map_ (journal_ r1) !! i with
                              | Some prior => prior = libertyCell r0 i
                              | None => libertyCell r1 i = libertyCell r0 i
                              end).
    { intros i. destruct b; [| rewrite (Hfalse eq_refl); apply Hinv].
      rewrite (Htrue eq_refl).
      destruct (decide (i = inst)) as [-> | Hne].
      - specialize (Hinv inst).
        destruct (resized_inst_map_ (journal_ r) !! inst) eqn:Ei.
        + rewrite Ei. exact Hinv.
        + rewrite lookup_insert_eq. exact Hinv.
      - specialize (Hinv i).
        assert (Hl : match resized_inst_map_ (journal_ r) !! inst with
                     | Some _ => resized_inst_map_ (journal_ r)
                     | None => <[inst:=libertyCell r inst]> (resized_inst_map_ (journal_ r))
                     end !! i = resized_inst_map_ (journal_ r) !! i).
        { destruct (resized_inst_map_ (journal_ r) !! inst); [reflexivity |].
          now rewrite lookup_insert_ne by congruence. }
        rewrite Hl. destruct (resized_inst_map_ (journal_ r) !! i); [exact Hinv |].
        now rewrite Hother. }
    destruct (IH r1 (eq_trans He1 He) Hinv1 H) as (He' & Hinv' & Hkeep).
    repeat split; [exact He' | exact Hinv' |].
    intros i prior Hi. apply Hkeep, Hmap, Hi.
Qed.

(** C8. Within one journal transaction the resize log holds, for an
    instance that has been resized, the cell it was bound to before its
    first resize: whatever resizes (of this or of other instances) precede
    and follow a successful resize of the instance after [journalBegin], the
    recorded prior cell is the cell bound at the start of the transaction,
    and a recorded entry is kept by every later resize. *)
Theorem journal_first_resize_wins (r r1 r2 r3 : Resizer)
    (ops1 ops2 : list (Instance * LibertyCell)) (inst : Instance) (cell : LibertyCell) :
  replaceCells ops1 (journalBegin r) = Some r1 ->
  replaceCell inst cell true r1 = Some (true, r2) ->
  replaceCells ops2 r2 = Some r3 ->
  resized_inst_map_ (journal_ r2) !! inst = Some (libertyCell r inst)
  /\ resized_inst_map_ (journal_ r3) !! inst = Some (libertyCell r inst)
  /\ forall i prior, resized_inst_map_ (journal_ r2) !! i = Some prior ->
                     resized_inst_map_ (journal_ r3) !! i = Some prior.
Proof.
  intros H1 H2 H3.
  assert (Hinv0 : forall i,
             match resized_inst_map_ (journal_ (journalBegin r)) !! i with
             | Some prior => prior = libertyCell (journalBegin r) i
             | None => libertyCell (journalBegin r) i = libertyCell (journalBegin r) i
             end).
  { intros i. unfold journalBegin. simpl. now rewrite lookup_empty. }
  destruct (replaceCells_first_wins (journalBegin r) ops1 (journalBegin r) r1
              eq_refl Hinv0 H1) as (He1 & Hinv1 & _).
  assert (H12 : replaceCells [(inst, cell)] r1 = Some r2) by (simpl; now rewrite H2).
  destruct (replaceCells_first_wins _ _ _ _ He1 Hinv1 H12) as (He2 & Hinv2 & _).
  destruct (replaceCells_first_wins _ _ _ _ He2 Hinv2 H3) as (_ & _ & Hkeep).
  assert (Hrec : resized_inst_map_ (journal_ r2) !! inst = Some (libertyCell r inst)).
  { apply replaceCell_journal in H2 as (_ & _ & _ & Htrue).
    rewrite (Htrue eq_refl). specialize (Hinv1 inst).
    destruct (resized_inst_map_ (journal_ r1) !! inst) eqn:Ei.
    - rewrite Ei, Hinv1. now rewrite libertyCell_journalBegin.
    - rewrite lookup_insert_eq, Hinv1. now rewrite libertyCell_journalBegin. }
  split; [exact Hrec |]. split; [now apply Hkeep | exact Hkeep].
Qed.

Lemma journal_first_resize_wins_witness :
  resized_inst_map_ (journal_ Design.resized_twice) !! "u1"
  = Some (Some Design.NAND2_X1).
Proof.
  assert (H2 : replaceCell "u1" Design.NAND2_X2 true (journalBegin Design.the_resizer)
               = Some (true, Design.resized_once))
    by (apply some_pair_eta; vm_compute; reflexivity).
  assert (H3 : replaceCells [("u1", Design.NAND2_X4)] Design.resized_once
               = Some Design.resized_twice)
    by (apply some_default; vm_compute; reflexivity).
  pose proof (journal_first_resize_wins Design.the_resizer
                (journalBegin Design.the_resizer) Design.resized_once
                Design.resized_twice [] [("u1", Design.NAND2_X4)] "u1" Design.NAND2_X2
                eq_refl H2 H3) as (_ & H & _).
  rewrite H. vm_compute. reflexivity.
Defined.

(** ** Sizing engine: the count returned by a resize *)

(** C6 (as the code has it). [resizeToTargetSlew] returns 0 or 1, and it
    returns 1 exactly when the driver pin is on an eligible instance (not a
    top-level port, not dont-touch, with a liberty cell, a CORE master), the
    load capacitance is positive, a different cell was selected, the
    [replaceCell] rebinding succeeded and the instance is not being
    revisited. On a second or later visit of an instance with several driven
    outputs it returns 0, also when the cell was replaced. *)
Theorem resizeToTargetSlew_count (drvr_pin : Pin) (r r' : Resizer) (n : Z) :
  resizeToTargetSlew drvr_pin r = Some (n, r') ->
  (n = 0%Z \/ n = 1%Z)
  /\ (n = 1%Z <->
      exists inst port cell,
        drvr_pin = ITermPin inst port
        /\ libertyCell r inst = Some cell
        /\ dontTouch r inst = false
        /\ isLogicStdCell r inst = true
        /\ 0 < graph_delay_calc_loadCap (engine r) drvr_pin
        /\ same_cell
             (findTargetCell (visit drvr_pin inst r) cell
                (graph_delay_calc_loadCap (engine r) drvr_pin) (revisiting r inst))
             cell = false
        /\ replaceCell inst
             (findTargetCell (visit drvr_pin inst r) cell
                (graph_delay_calc_loadCap (engine r) drvr_pin) (revisiting r inst))
             true (visit drvr_pin inst r) = Some (true, r')
        /\ revisiting r inst = false).
Proof.
  intros H.
  assert (Hno : forall P : Prop, (0%Z = 1%Z <-> P) <-> ~ P).
  { intros P. split; [intros [_ HP] HP'; now apply HP in HP' | intros HP; split; [discriminate | tauto]]. }
  unfold resizeToTargetSlew in H.
  destruct drvr_pin as [inst port | port].
  2: { injection H as <- <-. split; [now left |]. apply Hno.
       intros (? & ? & ? & ? & _). congruence. }
  destruct (libertyCell r inst) as [cell |] eqn:Ecell.
  2: { injection H as <- <-. split; [now left |]. apply Hno.
       intros (? & ? & ? & [= <- <-] & ? & _). congruence. }
  destruct (dontTouch r inst) eqn:Edt; simpl in H.
  { injection H as <- <-. split; [now left |]. apply Hno.
    intros (? & ? & ? & [= <- <-] & _ & ? & _). congruence. }
  destruct (isLogicStdCell r inst) eqn:Estd; simpl in H.
  2: { injection H as <- <-. split; [now left |]. apply Hno.
       intros (? & ? & ? & [= <- <-] & _ & _ & ? & _). congruence. }
  assert (Heng : engine (visit (ITermPin inst port) inst r) = engine r).
  { unfold visit, ensureWireParasitic.
    destruct (hasMultipleOutputs r inst);
      match goal with |- context [match ?m with _ => _ end] => destruct m end;
      reflexivity. }
  rewrite Heng in H.
  destruct (Qltb 0 (graph_delay_calc_loadCap (engine r) (ITermPin inst port))) eqn:Eload.
  2: { injection H as <- <-. split; [now left |]. apply Hno.
       intros (? & ? & ? & [= <- <-] & _ & _ & _ & Hpos & _).
       apply Qltb_lt in Hpos. congruence. }
  apply Qltb_lt in Eload.
  match type of H with
  | context [same_cell ?t cell] => destruct (same_cell t cell) eqn:Esame
  end; simpl in H.
  { injection H as <- <-. split; [now left |]. apply Hno.
    intros (? & ? & c & [= <- <-] & Hc & _ & _ & _ & Hs & _).
    rewrite Ecell in Hc. injection Hc as <-. congruence. }
  match type of H with
  | match ?m with _ => _ end = _ => destruct m as [[replaced r2] |] eqn:Erep
  end; [| discriminate].
  destruct replaced; simpl in H.
  - destruct (revisiting r inst) eqn:Erev; simpl in H; injection H as <- <-.
    + split; [now left |]. apply Hno.
      intros (? & ? & ? & [= <- <-] & _ & _ & _ & _ & _ & _ & ?). congruence.
    + split; [now right |]. split; [intros _ | reflexivity].
      exists inst, port, cell. rewrite Erev. repeat split; assumption.
  - injection H as <- <-. split; [now left |]. apply Hno.
    intros (? & ? & c & [= <- <-] & Hc & _ & _ & _ & _ & Hr & _).
    rewrite Ecell in Hc. injection Hc as <-. congruence.
Qed.

Lemma resizeToTargetSlew_count_witness :
  resizeToTargetSlew (ITermPin "u1" "ZN") Design.the_resizer
  = Some (1%Z, Design.u1_resized)
  /\ libertyCell Design.u1_resized "u1" = Some Design.NAND2_X2
  /\ (1 = 0 \/ 1 = 1)%Z.
Proof.
  assert (H : resizeToTargetSlew (ITermPin "u1" "ZN") Design.the_resizer
              = Some (1%Z, Design.u1_resized))
    by (apply some_pair_eta; vm_compute; reflexivity).
  pose proof (resizeToTargetSlew_count _ _ _ _ H) as [Hn _].
  split; [exact H |]. split; [vm_compute; reflexivity | exact Hn].
Defined.

(** The claim as stated fails on a revisit: for the flip-flop [ff1], already
    visited, a different cell is selected at [ff1/Q] and [replaceCell]
    rebinds the instance, yet the function returns 0. *)
Lemma resizeToTargetSlew_revisit_counterexample :
  let r := Design.revisited in
  let pin := ITermPin "ff1" "Q" in
  let target :=
    findTargetCell (visit pin "ff1" r) Design.DFF_X1
      (graph_delay_calc_loadCap (engine r) pin) (revisiting r "ff1") in
  libertyCell r "ff1" = Some Design.DFF_X1
  /\ same_cell target Design.DFF_X1 = false
  /\ fst <$> replaceCell "ff1" target true (visit pin "ff1" r) = Some true
  /\ resizeToTargetSlew pin r = Some (0%Z, Design.ff1_revisited)
  /\ libertyCell Design.ff1_revisited "ff1" = Some Design.DFF_X2.
Proof.
  cbv zeta.
  split; [vm_compute; reflexivity |]. split; [vm_compute; reflexivity |].
  split; [vm_compute; reflexivity |]. split.
  - apply some_pair_eta. vm_compute. reflexivity.
  - vm_compute. reflexivity.
Qed.

(** ** Sizing engine: the search for the target cell *)

Section FindTargetCellFacts.
Variable r : Resizer.
Variable load_cap : Q.
Variables revisiting_inst is_buf_inv : bool.

Let dist (c : LibertyCell) : Q := targetLoadDist load_cap (target_load r c).




End FindTargetCellFacts.





(** ** Target characterization: the search for the target load *)




Section SearchFacts.
Variable model : Q -> Q -> ArcDcalcResult.
Variables in_slew out_slew : Q.

Let diff := gateSlewDiff model in_slew out_slew.
Let step := search_step model in_slew out_slew.






Hypothesis monotone : forall c c', c <= c' -> diff c <= diff c'.





Variables lo hi : Q.
Hypothesis lo_pos : 0 < lo.
Hypothesis lo_below : diff lo < 0.
Hypothesis hi_reaches : 0 <= diff hi.





End SearchFacts.




(** ** Buffer removal *)

Lemma same_wiring_refl r : same_wiring r r.
Proof. repeat split. Qed.

Lemma same_wiring_trans r1 r2 r3 :
  same_wiring r1 r2 -> same_wiring r2 r3 -> same_wiring r1 r3.
Proof.
  intros (E1 & C1 & P1) (E2 & C2 & P2).
  split; [congruence |]. split; congruence.
Qed.

Lemma fmap_alter_master (f : dbInst -> dbInst) (i : Instance) (m : gmap Instance dbInst) :
  (forall di, inst_master (f di) = inst_master di) ->
  inst_master <$> alter f i m = inst_master <$> m.
Proof.
  intros Hf. apply map_eq. intros j. rewrite !lookup_fmap.
  destruct (decide (i = j)) as [-> | Hne].
  - rewrite lookup_alter_eq. destruct (m !! j); simpl; [now rewrite Hf | reflexivity].
  - now rewrite lookup_alter_ne.
Qed.

Lemma same_wiring_inst_setDoNotTouch r i v :
  same_wiring r (edit (inst_setDoNotTouch i v) r).
Proof.
  split; [reflexivity |]. split; [| reflexivity].
  unfold connectivity, netlist. simpl. now rewrite fmap_alter_master.
Qed.

Lemma same_wiring_inst_setPlaced r i :
  same_wiring r (edit (inst_setPlaced i) r).
Proof.
  split; [reflexivity |]. split; [| reflexivity].
  unfold connectivity, netlist. simpl. now rewrite fmap_alter_master.
Qed.

Lemma same_wiring_net_setDoNotTouch r x v :
  same_wiring r (edit (net_setDoNotTouch x v) r).
Proof.
  split; [reflexivity |]. split; [| reflexivity].
  unfold connectivity, netlist. simpl. now rewrite dom_alter_L.
Qed.

Lemma same_wiring_journalRemoveBuffer r buffer :
  same_wiring r (journalRemoveBuffer buffer r).
Proof.
  unfold journalRemoveBuffer.
  repeat match goal with
         | |- context [match ?x with _ => _ end] => destruct x
         end; try apply same_wiring_refl; repeat split.
Qed.

Lemma same_wiring_if r (b : bool) r' :
  same_wiring r r' -> same_wiring r (if b then r' else r).
Proof. destruct b; [auto | intros _; apply same_wiring_refl]. Qed.

(** What states with the same wiring agree on. *)
Lemma same_wiring_queries r r' :
  same_wiring r r' ->
  (forall p, net_of_pin (netlist r') p = net_of_pin (netlist r) p)
  /\ (forall x, hasPort r' x = hasPort r x)
  /\ (forall i, libertyCell r' i = libertyCell r i).
Proof.
  intros (He & Hc & _). unfold connectivity in Hc.
  injection Hc as Hm Hd Hi Hb.
  split; [| split].
  - intros [i q | q]; simpl; congruence.
  - intros [x |]; [| reflexivity]. unfold hasPort, has_bterms. now rewrite Hb.
  - intros i. unfold libertyCell. rewrite He.
    assert (H : (inst_master <$> db_insts (netlist r')) !! i
                = (inst_master <$> db_insts (netlist r)) !! i) by now rewrite Hm.
    rewrite !lookup_fmap in H.
    destruct (db_insts (netlist r') !! i), (db_insts (netlist r) !! i);
      simpl in H; congruence.
Qed.

(** Every call of [removeBuffer] that returns either changes nothing but
    flags and the journal, or reaches the SDC test with both nets present
    and not both with a port. *)
Lemma removeBuffer_inv buffer honor record r b r' :
  removeBuffer buffer honor record r = Some (b, r') ->
  (b = false /\ same_wiring r r')
  \/ (exists lib_cell in_net out_net r0,
        libertyCell r buffer = Some lib_cell
        /\ net_of_pin (netlist r) (ITermPin buffer (fst (bufferPorts lib_cell))) = Some in_net
        /\ net_of_pin (netlist r) (ITermPin buffer (snd (bufferPorts lib_cell))) = Some out_net
        /\ is_Some (db_nets (netlist r) !! in_net)
        /\ is_Some (db_nets (netlist r) !! out_net)
        /\ same_wiring r r0
        /\ (b, r') = removeBuffer_merge buffer
                       (ITermPin buffer (fst (bufferPorts lib_cell)))
                       (ITermPin buffer (snd (bufferPorts lib_cell)))
                       (if hasPort r (Some out_net) then out_net else in_net)
                       (if hasPort r (Some out_net) then in_net else out_net) r0).
Proof.
  unfold removeBuffer. intros H.
  destruct (libertyCell r buffer) as [lib_cell |] eqn:Ecell;
    [| injection H as <- <-; left; split; [reflexivity | apply same_wiring_refl]].
  destruct (negb (isBuffer lib_cell));
    [injection H as <- <-; left; split; [reflexivity | apply same_wiring_refl] |].
  destruct (bufferBetweenPorts r buffer) as [[|] |]; [| | discriminate].
  { injection H as <- <-; left; split; [reflexivity | apply same_wiring_refl]. }
  destruct (db_insts (netlist r) !! buffer) as [db_inst |]; [| discriminate].
  destruct (inst_doNotTouch db_inst && honor);
    [injection H as <- <-; left; split; [reflexivity | apply same_wiring_refl] |].
  set (r1 := if inst_doNotTouch db_inst then edit (inst_setDoNotTouch buffer false) r else r) in *.
  assert (W1 : same_wiring r r1)
    by (apply same_wiring_if, same_wiring_inst_setDoNotTouch).
  destruct (inst_isFixed db_inst && honor);
    [injection H as <- <-; left; split; [reflexivity | exact W1] |].
  set (r2 := if inst_isFixed db_inst then edit (inst_setPlaced buffer) r1 else r1) in *.
  assert (W2 : same_wiring r r2).
  { apply (same_wiring_trans _ r1); [exact W1 |].
    apply same_wiring_if, same_wiring_inst_setPlaced. }
  destruct (same_wiring_queries _ _ W2) as (Hnet2 & _ & _).
  rewrite !Hnet2 in H.
  assert (Hdom : dom (db_nets (netlist r2)) = dom (db_nets (netlist r))).
  { destruct W2 as (_ & Hc & _). unfold connectivity in Hc. now injection Hc. }
  destruct (net_of_pin (netlist r) (ITermPin buffer (fst (bufferPorts lib_cell))))
    as [in_net |] eqn:Ein; [| discriminate].
  destruct (db_nets (netlist r2) !! in_net) as [in_db_net |] eqn:Edin; [| discriminate].
  destruct (net_doNotTouch in_db_net && honor);
    [injection H as <- <-; left; split; [reflexivity | exact W2] |].
  destruct (net_of_pin (netlist r) (ITermPin buffer (snd (bufferPorts lib_cell))))
    as [out_net |] eqn:Eout; [| discriminate].
  destruct (db_nets (netlist r2) !! out_net) as [out_db_net |] eqn:Edout; [| discriminate].
  assert (Hin : is_Some (db_nets (netlist r) !! in_net)).
  { apply elem_of_dom. rewrite <- Hdom. apply elem_of_dom. eauto. }
  assert (Hout : is_Some (db_nets (netlist r) !! out_net)).
  { apply elem_of_dom. rewrite <- Hdom. apply elem_of_dom. eauto. }
  destruct ((net_doNotTouch in_db_net || net_doNotTouch out_db_net) && honor);
    [injection H as <- <-; left; split; [reflexivity | exact W2] |].
  set (r3 := if net_doNotTouch in_db_net || net_doNotTouch out_db_net
             then edit (net_setDoNotTouch out_net false)
                    (edit (net_setDoNotTouch in_net false) r2)
             else r2) in *.
  assert (W3 : same_wiring r r3).
  { apply (same_wiring_trans _ r2); [exact W2 |]. apply same_wiring_if.
    eapply same_wiring_trans; apply same_wiring_net_setDoNotTouch. }
  destruct (same_wiring_queries _ _ W3) as (_ & Hport3 & _).
  rewrite !Hport3 in H.
  destruct (hasPort r (Some out_net) && hasPort r (Some in_net));
    [injection H as <- <-; left; split; [reflexivity | exact W3] |].
  set (r4 := if record then journalRemoveBuffer buffer r3 else r3) in *.
  assert (W4 : same_wiring r r4).
  { apply (same_wiring_trans _ r3); [exact W3 |].
    apply same_wiring_if, same_wiring_journalRemoveBuffer. }
  right. exists lib_cell, in_net, out_net, r4.
  injection H as H.
  split; [reflexivity |]. split; [exact Ein |]. split; [exact Eout |].
  split; [exact Hin |]. split; [exact Hout |]. split; [exact W4 |].
  symmetry. exact H.
Qed.




(** C10. A buffer with an SDC constraint on its input pin, its output pin,
    the net that would be removed or the instance itself is not removed:
    [removeBuffer] returns false, and the structure of the netlist (the
    masters of the instances, the nets, the net of every pin and port) and
    the set of invalid nets are as before. *)
Theorem removeBuffer_constrained (buffer : Instance) (honorDontTouchFixed recordJournal : bool)
    (r r' : Resizer) (b : bool) (lib_cell : LibertyCell) (in_net out_net : Net) :
  removeBuffer buffer honorDontTouchFixed recordJournal r = Some (b, r') ->
  libertyCell r buffer = Some lib_cell ->
  net_of_pin (netlist r) (ITermPin buffer (fst (bufferPorts lib_cell))) = Some in_net ->
  net_of_pin (netlist r) (ITermPin buffer (snd (bufferPorts lib_cell))) = Some out_net ->
  (ITermPin buffer (fst (bufferPorts lib_cell)) ∈ sdc_pins (engine r))
  \/ (ITermPin buffer (snd (bufferPorts lib_cell)) ∈ sdc_pins (engine r))
  \/ ((if hasPort r (Some out_net) then in_net else out_net) ∈ sdc_nets (engine r))
  \/ (buffer ∈ sdc_insts (engine r)) ->
  b = false
  /\ connectivity (netlist r') = connectivity (netlist r)
  /\ parasitics_invalid_ r' = parasitics_invalid_ r.
Proof.
  intros H Hcell Hin Hout Hsdc.
  apply removeBuffer_inv in H
    as [[-> (_ & Hc & Hp)] | (lc & i & o & r0 & Hcell' & Hin' & Hout' & _ & _ & W & H)];
    [now repeat split |].
  rewrite Hcell in Hcell'. injection Hcell' as <-.
  rewrite Hin in Hin'. injection Hin' as <-.
  rewrite Hout in Hout'. injection Hout' as <-.
  destruct W as (He & Hc & Hp).
  unfold removeBuffer_merge in H. rewrite He in H.
  assert (Hcond :
    negb (bool_decide (ITermPin buffer (fst (bufferPorts lib_cell)) ∈ sdc_pins (engine r)))
    && negb (bool_decide (ITermPin buffer (snd (bufferPorts lib_cell)) ∈ sdc_pins (engine r)))
    && negb (bool_decide ((if hasPort r (Some out_net) then in_net else out_net)
                          ∈ sdc_nets (engine r)))
    && negb (bool_decide (buffer ∈ sdc_insts (engine r))) = false).
  { destruct Hsdc as [Hs | [Hs | [Hs | Hs]]];
      rewrite (bool_decide_eq_true_2 _ Hs); simpl;
      rewrite ?andb_false_r; reflexivity. }
  rewrite Hcond in H. injection H as -> ->. now repeat split.
Qed.




Lemma removeBuffer_constrained_witness :
  removeBuffer "b1" false true Design.the_resizer = Some (false, Design.b1_kept)
  /\ connectivity (netlist Design.b1_kept) = connectivity (netlist Design.the_resizer).
Proof.
  assert (H : removeBuffer "b1" false true Design.the_resizer
              = Some (false, Design.b1_kept))
    by (apply some_pair_eta; vm_compute; reflexivity).
  split; [exact H |].
  refine (proj1 (proj2 (removeBuffer_constrained "b1" false true Design.the_resizer
            Design.b1_kept false Design.BUF_X1 "n_in" "n1" H _ _ _ _))).
  - vm_compute. reflexivity.
  - vm_compute. reflexivity.
  - vm_compute. reflexivity.
  - right. right. right. vm_compute. reflexivity.
Defined.


(** * Properties of the rest of the code *)

Lemma replaceCell_success inst replacement journal r r' :
  replaceCell inst replacement journal r = Some (true, r') ->
  exists replacement_master dinst master,
    db_masters (netlist r) !! cell_name replacement = Some replacement_master
    /\ db_insts (netlist r) !! inst = Some dinst
    /\ db_masters (netlist r) !! inst_master dinst = Some master
    /\ engine r' = engine r
    /\ netlist r' = sta_replaceCell inst (cell_name replacement) (netlist r)
    /\ design_area_ r' = design_area_ r + - area r master + area r replacement_master
    /\ journal_ r' = journal_ ((if journal then journalInstReplaceCellBefore inst else id) r)
    /\ resized_multi_output_insts_ r' = resized_multi_output_insts_ r
    /\ (if haveEstimatedParasitics r
        then exists r0, parasitics_invalid_ r0 = parasitics_invalid_ r
                        /\ netlist r0 = netlist r' /\ engine r0 = engine r
                        /\ invalidate_pins inst (map fst (master_mterms replacement_master)) r0
                           = Some r'
        else parasitics_invalid_ r' = parasitics_invalid_ r).
Proof.
  unfold replaceCell. intros H.
  destruct (db_masters (netlist r) !! cell_name replacement) as [rm |] eqn:Erm;
    [| discriminate].
  destruct (db_insts (netlist r) !! inst) as [dinst |] eqn:Ei; [| discriminate].
  destruct (db_masters (netlist r) !! inst_master dinst) as [master |] eqn:Em;
    [| discriminate].
  exists rm, dinst, master.
  split; [reflexivity |]. split; [reflexivity |]. split; [exact Em |].
  assert (Hj : forall r0, engine ((if journal then journalInstReplaceCellBefore inst else id) r0)
                          = engine r0
                 /\ db_ ((if journal then journalInstReplaceCellBefore inst else id) r0) = db_ r0
                 /\ design_area_ ((if journal then journalInstReplaceCellBefore inst else id) r0)
                    = design_area_ r0
                 /\ parasitics_invalid_ ((if journal then journalInstReplaceCellBefore inst else id) r0)
                    = parasitics_invalid_ r0
                 /\ resized_multi_output_insts_
                      ((if journal then journalInstReplaceCellBefore inst else id) r0)
                    = resized_multi_output_insts_ r0).
  { intros r0. destruct journal; [| repeat split].
    unfold journalInstReplaceCellBefore.
    destruct (resized_inst_map_ (journal_ r0) !! inst); repeat split. }
  assert (Hjj : journal_ ((if journal then journalInstReplaceCellBefore inst else id)
                            (designAreaIncr (- area r master) r))
                = journal_ ((if journal then journalInstReplaceCellBefore inst else id) r)).
  { destruct journal; [| reflexivity]. unfold journalInstReplaceCellBefore. simpl.
    unfold libertyCell, netlist. simpl.
    destruct (resized_inst_map_ (journal_ r) !! inst); reflexivity. }
  destruct (Hj (designAreaIncr (- area r master) r)) as (He & Hd & Ha & Hp & Hm).
  set (r1 := (if journal then journalInstReplaceCellBefore inst else id)
               (designAreaIncr (- area r master) r)) in *.
  assert (E1 : (if journal then journalInstReplaceCellBefore inst
                   (designAreaIncr (- area r master) r)
                else designAreaIncr (- area r master) r) = r1)
    by (unfold r1; destruct journal; reflexivity).
  rewrite E1 in H.
  set (r2 := designAreaIncr
               (area (edit (sta_replaceCell inst (cell_name replacement)) r1) rm)
               (edit (sta_replaceCell inst (cell_name replacement)) r1)) in *.
  assert (Hhave : haveEstimatedParasitics r2 = haveEstimatedParasitics r).
  { unfold haveEstimatedParasitics, r2. simpl. now rewrite He. }
  assert (Harea : area (edit (sta_replaceCell inst (cell_name replacement)) r1) rm = area r rm).
  { unfold area, dbuToMeters. simpl. now rewrite He. }
  assert (Hn2 : netlist r2 = sta_replaceCell inst (cell_name replacement) (netlist r)).
  { unfold r2, netlist. simpl. now rewrite Hd. }
  assert (Ha2 : design_area_ r2 = design_area_ r + - area r master + area r rm).
  { unfold r2. simpl. rewrite Ha, Harea. reflexivity. }
  rewrite Hhave in H.
  destruct (haveEstimatedParasitics r).
  - destruct (invalidate_pins inst (map fst (master_mterms rm)) r2) as [r3 |] eqn:E3;
      [| discriminate].
    injection H as <-.
    destruct (invalidate_pins_only_set _ _ _ _ E3) as [inv ->].
    split; [exact He |]. split; [exact Hn2 |]. split; [exact Ha2 |].
    split; [exact Hjj |]. split; [exact Hm |].
    exists r2. split; [exact Hp |]. split; [reflexivity |]. split; [exact He |]. exact E3.
  - injection H as <-.
    split; [exact He |]. split; [exact Hn2 |]. split; [exact Ha2 |].
    split; [exact Hjj |]. split; [exact Hm |]. exact Hp.
Qed.








(** X1. [replaceCell] returns false exactly when the database has no
    master with the name of the replacement cell, and a call that returns
    false leaves the whole state as it was. *)
Theorem replaceCell_missing_master (inst : Instance) (replacement : LibertyCell)
    (journal : bool) (r r' : Resizer) (b : bool) :
  replaceCell inst replacement journal r = Some (b, r') ->
  (b = false <-> db_masters (netlist r) !! cell_name replacement = None)
  /\ (b = false -> r' = r).
Proof.
  intros H. split.
  - unfold replaceCell in H.
    destruct (db_masters (netlist r) !! cell_name replacement) as [rm |].
    + split; [| discriminate]. intros ->.
      destruct (db_insts (netlist r) !! inst) as [di |]; [| discriminate].
      destruct (db_masters (netlist r) !! inst_master di); [| discriminate].
      match type of H with
      | (if ?c then _ else _) = _ => destruct c
      end; [| discriminate].
      match type of H with
      | match ?m with _ => _ end = _ => destruct m; discriminate
      end.
    + injection H as <- <-. split; reflexivity.
  - intros ->. apply replaceCell_inv in H as [[_ ->] | [? _]]; [reflexivity | discriminate].
Qed.


Lemma invalidateParasitics_frame_state pin net r r' :
  invalidateParasitics pin net r = Some r' ->
  engine r' = engine r /\ db_ r' = db_ r /\ parasitics_invalid_ r ⊆ parasitics_invalid_ r'.
Proof.
  intros H.
  destruct (invalidateParasitics_only_set _ _ _ _ H) as [inv ->].
  split; [reflexivity |]. split; [reflexivity |].
  unfold invalidateParasitics in H.
  destruct net as [x |]; [| injection H as <-; reflexivity].
  destruct (libertyPort_direction r pin) as [d |]; [| discriminate].
  destruct (negb (isAnyTristate d)); injection H as <-; simpl; set_solver.
Qed.

Lemma libertyPort_direction_frame r r' pin :
  engine r' = engine r -> db_ r' = db_ r ->
  libertyPort_direction r' pin = libertyPort_direction r pin.
Proof.
  intros He Hd. unfold libertyPort_direction, libertyCell, netlist. now rewrite He, Hd.
Qed.

Lemma invalidate_pins_marks inst ports r r' :
  invalidate_pins inst ports r = Some r' ->
  engine r' = engine r /\ db_ r' = db_ r
  /\ parasitics_invalid_ r ⊆ parasitics_invalid_ r'
  /\ forall port x d,
       port ∈ ports ->
       net_of_pin (netlist r) (ITermPin inst port) = Some x ->
       libertyPort_direction r (ITermPin inst port) = Some d ->
       isAnyTristate d = false ->
       x ∈ parasitics_invalid_ r'.
Proof.
  revert r. induction ports as [| p ports IH]; intros r H; simpl in H.
  - injection H as <-. split; [reflexivity |]. split; [reflexivity |].
    split; [reflexivity |]. intros port x d Hin. inversion Hin.
  - destruct (invalidateParasitics _ _ r) as [r1 |] eqn:E; [| discriminate].
    destruct (invalidateParasitics_frame_state _ _ _ _ E) as (He1 & Hd1 & Hs1).
    destruct (IH _ H) as (He & Hd & Hs & Hall).
    split; [congruence |]. split; [congruence |]. split; [set_solver |].
    intros port x d Hin Hnet Hdir Htri.
    apply elem_of_cons in Hin as [-> | Hin].
    + apply Hs. unfold invalidateParasitics in E. simpl in Hnet.
      rewrite Hnet, Hdir, Htri in E.
      simpl in E. injection E as <-. simpl. set_solver.
    + apply (Hall port x d Hin).
      * unfold netlist. rewrite Hd1. exact Hnet.
      * rewrite (libertyPort_direction_frame r r1) by assumption. exact Hdir.
      * exact Htri.
Qed.

(** X4. A successful [replaceCell] never takes a net out of the set of
    invalid nets. Without estimated parasitics the set is unchanged; with
    them, the net of every connected pin of the instance (a terminal of the
    new master) whose liberty port is not a tristate is in the set
    afterwards. *)
Theorem replaceCell_invalidates (inst : Instance) (replacement : LibertyCell) (journal : bool)
    (r r' : Resizer) (replacement_master : dbMaster) :
  replaceCell inst replacement journal r = Some (true, r') ->
  db_masters (netlist r) !! cell_name replacement = Some replacement_master ->
  parasitics_invalid_ r ⊆ parasitics_invalid_ r'
  /\ (haveEstimatedParasitics r = false -> parasitics_invalid_ r' = parasitics_invalid_ r)
  /\ (haveEstimatedParasitics r = true ->
      forall port x d,
        port ∈ map fst (master_mterms replacement_master) ->
        net_of_pin (netlist r) (ITermPin inst port) = Some x ->
        libertyPort_direction r' (ITermPin inst port) = Some d ->
        isAnyTristate d = false ->
        x ∈ parasitics_invalid_ r').
Proof.
  intros H Hrm.
  apply replaceCell_success in H
    as (rm & di & ma & Hrm' & Hi & Hm & He & Hn & _ & _ & _ & Hp).
  rewrite Hrm in Hrm'. injection Hrm' as <-.
  destruct (haveEstimatedParasitics r).
  - destruct Hp as (r0 & Hp0 & Hn0 & He0 & Hloop).
    destruct (invalidate_pins_marks _ _ _ _ Hloop) as (He1 & Hd1 & Hs & Hall).
    split; [now rewrite <- Hp0 |]. split; [discriminate |].
    intros _ port x d Hin Hnet Hdir Htri.
    apply (Hall port x d Hin).
    + rewrite Hn0, Hn. destruct r as [? [nl ? ? ?] ? ? ? ? ? ?]. exact Hnet.
    + rewrite <- (libertyPort_direction_frame r0 r') by assumption. exact Hdir.
    + exact Htri.
  - split; [now rewrite Hp |]. split; [intros _; exact Hp | discriminate].
Qed.

Lemma visit_frame drvr_pin inst r :
  engine (visit drvr_pin inst r) = engine r /\ db_ (visit drvr_pin inst r) = db_ r.
Proof.
  unfold visit, ensureWireParasitic.
  destruct (hasMultipleOutputs r inst); simpl;
    match goal with
    | |- context [net_of_pin ?n ?p] => destruct (net_of_pin n p)
    end; split; reflexivity.
Qed.





Lemma findTargetCell_frame r r' cell load_cap revisiting_inst :
  engine r' = engine r ->
  findTargetCell r' cell load_cap revisiting_inst
  = findTargetCell r cell load_cap revisiting_inst.
Proof.
  intros He. unfold findTargetCell, getSwappableCells, target_load, cell_delay.
  rewrite He.
  assert (Hc : consider r' load_cap revisiting_inst (isBuffer cell || isInverter cell)
               = consider r load_cap revisiting_inst (isBuffer cell || isInverter cell)).
  { unfold consider, dontUse, isLinkCell, target_load, cell_delay. now rewrite He. }
  now rewrite Hc.
Qed.

Lemma visit_keeps drvr_pin inst r :
  journal_ (visit drvr_pin inst r) = journal_ r
  /\ design_area_ (visit drvr_pin inst r) = design_area_ r
  /\ parasitics_invalid_ (visit drvr_pin inst r) ⊆ parasitics_invalid_ r.
Proof.
  unfold visit, ensureWireParasitic.
  destruct (hasMultipleOutputs r inst); simpl;
    match goal with
    | |- context [net_of_pin ?n ?p] => destruct (net_of_pin n p)
    end; simpl; (split; [reflexivity |]); (split; [reflexivity |]); set_solver.
Qed.

(** X6. When the cell [findTargetCell] selects is the cell already
    bound, [resizeToTargetSlew] returns 0 and leaves the database, the
    journal and the design area as they were; no net is added to the set of
    invalid nets. *)
Theorem resizeToTargetSlew_same_cell (inst : Instance) (port : string) (r : Resizer)
    (cell : LibertyCell) :
  libertyCell r inst = Some cell ->
  same_cell
    (findTargetCell r cell (graph_delay_calc_loadCap (engine r) (ITermPin inst port))
       (revisiting r inst)) cell = true ->
  exists r',
    resizeToTargetSlew (ITermPin inst port) r = Some (0%Z, r')
    /\ engine r' = engine r
    /\ db_ r' = db_ r
    /\ journal_ r' = journal_ r
    /\ design_area_ r' = design_area_ r
    /\ parasitics_invalid_ r' ⊆ parasitics_invalid_ r.
Proof.
  intros Hcell Hsame. unfold resizeToTargetSlew. rewrite Hcell.
  destruct (negb (dontTouch r inst) && isLogicStdCell r inst);
    [| exists r; repeat split; reflexivity].
  destruct (visit_frame (ITermPin inst port) inst r) as [Hev Hdv].
  destruct (visit_keeps (ITermPin inst port) inst r) as (Hj & Ha & Hp).
  rewrite Hev.
  destruct (Qltb 0 (graph_delay_calc_loadCap (engine r) (ITermPin inst port)));
    [| exists (visit (ITermPin inst port) inst r); repeat split; assumption].
  rewrite (findTargetCell_frame r) by exact Hev.
  rewrite Hsame. simpl.
  exists (visit (ITermPin inst port) inst r). repeat split; assumption.
Qed.

(** X7. [removeBuffer] returns true only for an instance whose liberty
    cell is a buffer, whose two pins are on nets of the database that do not
    both have a top-level port, with no SDC constraint on either pin, on the
    net to remove or on the instance; in auto mode, moreover, neither the
    instance nor either net is dont-touch and the instance is not fixed. *)
Theorem removeBuffer_removed_only_if (buffer : Instance)
    (honorDontTouchFixed recordJournal : bool) (r r' : Resizer) :
  removeBuffer buffer honorDontTouchFixed recordJournal r = Some (true, r') ->
  exists lib_cell db_inst in_net out_net in_db_net out_db_net,
    libertyCell r buffer = Some lib_cell
    /\ isBuffer lib_cell = true
    /\ db_insts (netlist r) !! buffer = Some db_inst
    /\ net_of_pin (netlist r) (ITermPin buffer (fst (bufferPorts lib_cell))) = Some in_net
    /\ net_of_pin (netlist r) (ITermPin buffer (snd (bufferPorts lib_cell))) = Some out_net
    /\ db_nets (netlist r) !! in_net = Some in_db_net
    /\ db_nets (netlist r) !! out_net = Some out_db_net
    /\ (hasPort r (Some in_net) = false \/ hasPort r (Some out_net) = false)
    /\ (honorDontTouchFixed = true ->
        inst_doNotTouch db_inst = false /\ inst_isFixed db_inst = false
        /\ net_doNotTouch in_db_net = false /\ net_doNotTouch out_db_net = false)
    /\ (ITermPin buffer (fst (bufferPorts lib_cell)) ∉ sdc_pins (engine r))
    /\ (ITermPin buffer (snd (bufferPorts lib_cell)) ∉ sdc_pins (engine r))
    /\ ((if hasPort r (Some out_net) then in_net else out_net) ∉ sdc_nets (engine r))
    /\ (buffer ∉ sdc_insts (engine r)).
Proof.
  intros H.
  pose proof H as H0.
  apply removeBuffer_inv in H0
    as [[? _] | (lc & i & o & r0 & Hcell & Hin & Hout & Hdin & Hdout & W & Hm)];
    [discriminate |].
  unfold removeBuffer in H. rewrite Hcell in H.
  destruct (isBuffer lc) eqn:Ebuf; [| discriminate]. cbv beta iota zeta delta [negb] in H.
  unfold bufferBetweenPorts in *. rewrite Hcell, Hin, Hout in H.
  destruct (hasPort r (Some i) && hasPort r (Some o)) eqn:Eports; [discriminate |].
  destruct (db_insts (netlist r) !! buffer) as [db_inst |] eqn:Einst; [| discriminate].
  destruct Hdin as [idb Hidb]. destruct Hdout as [odb Hodb].
  exists lc, db_inst, i, o, idb, odb.
  do 7 (split; [first [reflexivity | assumption] |]).
  split; [apply andb_false_iff in Eports; exact Eports |].
  split.
  { intros ->. rewrite !andb_true_r in H.
    destruct (inst_doNotTouch db_inst); [discriminate |].
    destruct (inst_isFixed db_inst); [discriminate |].
    cbv beta iota zeta in H. rewrite Hin, Hidb in H.
    destruct (net_doNotTouch idb); [discriminate |].
    rewrite Hout, Hodb in H. cbv beta iota zeta delta [orb] in H.
    destruct (net_doNotTouch odb); [discriminate |]. repeat split. }
  destruct W as (He & _ & _).
  unfold removeBuffer_merge in Hm. rewrite He in Hm.
  destruct (bool_decide (ITermPin buffer (fst (bufferPorts lc)) ∈ sdc_pins (engine r))) eqn:E1;
    [discriminate |].
  destruct (bool_decide (ITermPin buffer (snd (bufferPorts lc)) ∈ sdc_pins (engine r))) eqn:E2;
    [discriminate |].
  destruct (bool_decide ((if hasPort r (Some o) then i else o) ∈ sdc_nets (engine r))) eqn:E3;
    [discriminate |].
  destruct (bool_decide (buffer ∈ sdc_insts (engine r))) eqn:E4; [discriminate |].
  apply bool_decide_eq_false in E1, E2, E3, E4. now repeat split.
Qed.

(** X8. In auto mode (dont-touch and fixed honoured) a [removeBuffer]
    that returns false has changed nothing, except that with journalling the
    restoration record may have been made: the state is the original one or
    the one after [journalRemoveBuffer]. *)
Theorem removeBuffer_auto_refusal (buffer : Instance) (recordJournal : bool)
    (r r' : Resizer) :
  removeBuffer buffer true recordJournal r = Some (false, r') ->
  r' = r \/ (recordJournal = true /\ r' = journalRemoveBuffer buffer r).
Proof.
  unfold removeBuffer. intros H.
  destruct (libertyCell r buffer) as [lc |]; [| injection H as <-; now left].
  destruct (negb (isBuffer lc)); [injection H as <-; now left |].
  destruct (bufferBetweenPorts r buffer) as [[|] |];
    [injection H as <-; now left | | discriminate].
  destruct (db_insts (netlist r) !! buffer) as [db_inst |]; [| discriminate].
  rewrite !andb_true_r in H.
  destruct (inst_doNotTouch db_inst); [injection H as <-; now left |].
  destruct (inst_isFixed db_inst); [injection H as <-; now left |].
  cbv beta iota zeta in H.
  destruct (net_of_pin (netlist r) (ITermPin buffer (fst (bufferPorts lc)))) as [i |];
    [| discriminate].
  destruct (db_nets (netlist r) !! i) as [idb |]; [| discriminate].
  destruct (net_doNotTouch idb); [injection H as <-; now left |].
  destruct (net_of_pin (netlist r) (ITermPin buffer (snd (bufferPorts lc)))) as [o |];
    [| discriminate].
  destruct (db_nets (netlist r) !! o) as [odb |]; [| discriminate].
  cbv beta iota zeta delta [orb] in H.
  destruct (net_doNotTouch odb); [injection H as <-; now left |].
  destruct (hasPort r (Some o) && hasPort r (Some i)); [injection H as <-; now left |].
  cbv beta iota zeta delta [andb orb] in H. unfold removeBuffer_merge in H.

  match type of H with
  | Some (if ?c then _ else _) = _ => destruct c; [discriminate |]
  end.
  injection H as <-.
  destruct recordJournal; [right; now split | now left].
Qed.

Lemma nets_cleared (n : Netlist) (i o x : Net) (d : dbNet) :
  x = i \/ x = o ->
  db_nets n !! x = Some d ->
  db_nets (net_setDoNotTouch o false (net_setDoNotTouch i false n)) !! x
  = Some {| net_doNotTouch := false |}.
Proof.
  intros Hx Hd. simpl.
  destruct (decide (x = o)) as [-> | Hxo].
  - rewrite lookup_alter_eq.
    destruct (decide (o = i)) as [-> | Hoi].
    + rewrite lookup_alter_eq, Hd. reflexivity.
    + rewrite lookup_alter_ne, Hd by congruence. reflexivity.
  - destruct Hx as [-> | ->]; [| congruence].
    rewrite lookup_alter_ne, lookup_alter_eq, Hd by congruence. reflexivity.
Qed.

Lemma journalRemoveBuffer_records (buffer : Instance) (r : Resizer) (lib_cell : LibertyCell)
    (db_inst : dbInst) (in_net out_net : Net) :
  libertyCell r buffer = Some lib_cell ->
  db_insts (netlist r) !! buffer = Some db_inst ->
  net_of_pin (netlist r) (ITermPin buffer (fst (bufferPorts lib_cell))) = Some in_net ->
  net_of_pin (netlist r) (ITermPin buffer (snd (bufferPorts lib_cell))) = Some out_net ->
  exists data,
    removed_buffer_map_ (journal_ (journalRemoveBuffer buffer r)) !! buffer = Some data
    /\ bd_lib_cell data = lib_cell
    /\ bd_location data = inst_location db_inst
    /\ bd_parent data = top_instance_name (engine r).
Proof.
  intros Hc Hi Hin Hout. unfold journalRemoveBuffer.
  rewrite Hc, Hi, Hin, Hout. eexists. simpl. rewrite lookup_insert_eq.
  split; [reflexivity |]. repeat split.
Qed.

(** X9. In manual mode a [removeBuffer] that gets past the port check
    and is then refused (by the SDC test) has already cleared the flags: the
    buffer is neither dont-touch nor fixed and neither of its nets is
    dont-touch afterwards. With journalling the journal has a restoration
    record for the buffer, with its liberty cell, although nothing was
    removed. *)
Theorem removeBuffer_manual_refusal (buffer : Instance) (recordJournal : bool)
    (r r' : Resizer) (lib_cell : LibertyCell) (in_net out_net : Net) :
  removeBuffer buffer false recordJournal r = Some (false, r') ->
  libertyCell r buffer = Some lib_cell ->
  isBuffer lib_cell = true ->
  net_of_pin (netlist r) (ITermPin buffer (fst (bufferPorts lib_cell))) = Some in_net ->
  net_of_pin (netlist r) (ITermPin buffer (snd (bufferPorts lib_cell))) = Some out_net ->
  bufferBetweenPorts r buffer = Some false ->
  (exists db_inst, db_insts (netlist r') !! buffer = Some db_inst
                   /\ inst_doNotTouch db_inst = false /\ inst_isFixed db_inst = false)
  /\ db_nets (netlist r') !! in_net = Some {| net_doNotTouch := false |}
  /\ db_nets (netlist r') !! out_net = Some {| net_doNotTouch := false |}
  /\ (recordJournal = true ->
      exists data, removed_buffer_map_ (journal_ r') !! buffer = Some data
                   /\ bd_lib_cell data = lib_cell).
Proof.
  intros H Hcell Hbuf Hin Hout Hbetween.
  assert (Hports : hasPort r (Some out_net) && hasPort r (Some in_net) = false).
  { unfold bufferBetweenPorts in Hbetween. rewrite Hcell, Hin, Hout in Hbetween.
    injection Hbetween as Hb. now rewrite andb_comm. }
  unfold removeBuffer in H. rewrite Hcell, Hbuf, Hbetween in H.
  destruct (db_insts (netlist r) !! buffer) as [db_inst |] eqn:Einst;
    cbv beta iota zeta delta [negb] in H; [| congruence].
  rewrite !andb_false_r in H. cbv beta iota zeta in H.
  set (r1 := if inst_doNotTouch db_inst
             then edit (inst_setDoNotTouch buffer false) r else r) in *.
  set (r2 := if inst_isFixed db_inst then edit (inst_setPlaced buffer) r1 else r1) in *.
  assert (W2 : same_wiring r r2).
  { apply (same_wiring_trans _ r1).
    - apply same_wiring_if, same_wiring_inst_setDoNotTouch.
    - apply same_wiring_if, same_wiring_inst_setPlaced. }
  assert (Hinst2 : exists d2, db_insts (netlist r2) !! buffer = Some d2
                              /\ inst_doNotTouch d2 = false /\ inst_isFixed d2 = false).
  { unfold r2, r1.
    destruct (inst_doNotTouch db_inst) eqn:E1, (inst_isFixed db_inst) eqn:E2;
      unfold netlist, edit; simpl; fold (netlist r);
      rewrite ?lookup_alter_eq, ?Einst; simpl; eexists; (split; [reflexivity |]);
      simpl; split; (reflexivity || assumption). }
  assert (Hnets2 : db_nets (netlist r2) = db_nets (netlist r)).
  { unfold r2, r1. destruct (inst_doNotTouch db_inst), (inst_isFixed db_inst); reflexivity. }
  destruct (same_wiring_queries _ _ W2) as (Hnet2 & Hport2 & Hcell2).
  rewrite !Hnet2, Hin, Hout in H.
  destruct (db_nets (netlist r2) !! in_net) as [idb |] eqn:Eidb; [| discriminate H].
  rewrite andb_false_r in H. cbv iota in H.
  destruct (db_nets (netlist r2) !! out_net) as [odb |] eqn:Eodb; [| discriminate H].
  rewrite andb_false_r in H. cbv iota zeta in H.
  set (r3 := if net_doNotTouch idb || net_doNotTouch odb
             then edit (net_setDoNotTouch out_net false)
                    (edit (net_setDoNotTouch in_net false) r2)
             else r2) in *.
  assert (W3 : same_wiring r2 r3).
  { apply same_wiring_if.
    eapply same_wiring_trans; apply same_wiring_net_setDoNotTouch. }
  assert (Hinst3 : db_insts (netlist r3) = db_insts (netlist r2)).
  { unfold r3. destruct (net_doNotTouch idb || net_doNotTouch odb); reflexivity. }
  assert (Hnets3 : db_nets (netlist r3) !! in_net = Some {| net_doNotTouch := false |}
                   /\ db_nets (netlist r3) !! out_net = Some {| net_doNotTouch := false |}).
  { unfold r3. destruct (net_doNotTouch idb || net_doNotTouch odb) eqn:Edt.
    - split.
      + apply (nets_cleared (netlist r2) in_net out_net in_net idb); [now left | exact Eidb].
      + apply (nets_cleared (netlist r2) in_net out_net out_net odb); [now right | exact Eodb].
    - apply orb_false_iff in Edt as [Ei Eo].
      destruct idb as [fi], odb as [fo]. simpl in Ei, Eo. subst fi fo. now split. }
  destruct (same_wiring_queries _ _ (same_wiring_trans _ _ _ W2 W3))
    as (Hnet3 & Hport3 & Hcell3).
  rewrite !Hport3, Hports in H.
  set (r4 := if recordJournal then journalRemoveBuffer buffer r3 else r3) in *.
  assert (Hn4 : netlist r4 = netlist r3).
  { unfold r4. destruct recordJournal; [| reflexivity].
    unfold journalRemoveBuffer.
    repeat match goal with
           | |- context [match ?m with _ => _ end] => destruct m
           end; reflexivity. }
  unfold removeBuffer_merge in H.
  match type of H with
  | Some (if ?c then _ else _) = _ => destruct c; [discriminate H |]
  end.
  injection H as <-.
  rewrite Hn4. destruct Hinst2 as (d2 & Hd2 & Hdt & Hfx).
  split; [exists d2; rewrite Hinst3; now split |].
  split; [apply Hnets3 |]. split; [apply Hnets3 |].
  intros ->. unfold r4.
  destruct (journalRemoveBuffer_records buffer r3 lib_cell d2 in_net out_net)
    as (data & Hdata & Hlc & _).
  - rewrite Hcell3. exact Hcell.
  - rewrite Hinst3. exact Hd2.
  - rewrite Hnet3. exact Hin.
  - rewrite Hnet3. exact Hout.
  - exists data. now split.
Qed.

Lemma removeBuffer_insts buffer honor record r b r' :
  removeBuffer buffer honor record r = Some (b, r') ->
  engine r' = engine r
  /\ inst_master <$> db_insts (netlist r')
     = inst_master <$> (if b then delete buffer (db_insts (netlist r))
                        else db_insts (netlist r))
  /\ (b = true -> exists c, libertyCell r buffer = Some c /\ isBuffer c = true).
Proof.
  intros H. pose proof H as H0.
  apply removeBuffer_inv in H0
    as [[-> (He & Hc & _)] | (lc & i & o & r0 & Hcell & _ & _ & _ & _ & W & Hm)].
  - split; [exact He |]. split; [| discriminate].
    unfold connectivity in Hc. now injection Hc.
  - destruct W as (He & Hc & _). unfold connectivity in Hc. injection Hc as Hmas _ _ _.
    unfold removeBuffer_merge in Hm.
    match type of Hm with
    | _ = (if ?c then _ else _) => destruct c
    end; injection Hm as -> ->.
    + split; [exact He |]. split.
      * unfold netlist, edit. simpl. fold (netlist r0).
        rewrite !fmap_delete. now rewrite Hmas.
      * intros _. exists lc. split; [exact Hcell |].
        unfold removeBuffer in H. rewrite Hcell in H.
        destruct (isBuffer lc); [reflexivity |]. simpl in H. congruence.
    + split; [exact He |]. split; [exact Hmas | discriminate].
Qed.

Lemma removeBuffers_loop_spec honor record insts : forall n0 r n r',
  removeBuffers_loop honor record insts n0 r = Some (n, r') ->
  (0 <= n0)%Z -> (n0 + Z.of_nat (length insts) < 2 ^ 31)%Z ->
  engine r' = engine r
  /\ dom (db_insts (netlist r')) ⊆ dom (db_insts (netlist r))
  /\ n = (n0 + Z.of_nat (size (dom (db_insts (netlist r)) ∖ dom (db_insts (netlist r')))))%Z
  /\ (forall i, i ∈ dom (db_insts (netlist r')) ->
        inst_master <$> db_insts (netlist r') !! i = inst_master <$> db_insts (netlist r) !! i)
  /\ (forall i, i ∈ dom (db_insts (netlist r)) -> i ∉ dom (db_insts (netlist r')) ->
        i ∈ insts /\ exists c, libertyCell r i = Some c /\ isBuffer c = true).
Proof.
  induction insts as [| buffer insts IH]; intros n0 r n r' H Hn0 Hlen; simpl in H.
  - injection H as <- <-. split; [reflexivity |]. split; [reflexivity |].
    split; [| split].
    + replace (dom (db_insts (netlist r)) ∖ dom (db_insts (netlist r))) with (∅ : gset Instance)
        by set_solver.
      rewrite size_empty. lia.
    + reflexivity.
    + intros i Hi Hni. contradiction.
  - simpl length in Hlen.
    destruct (removeBuffer buffer honor record r) as [[b r1] |] eqn:E; [| discriminate].
    destruct (removeBuffer_insts _ _ _ _ _ _ E) as (He1 & Hm1 & Hb1).
    assert (Hlk1 : forall i, inst_master <$> db_insts (netlist r1) !! i
                             = inst_master <$> (if b then delete buffer (db_insts (netlist r))
                                                else db_insts (netlist r)) !! i).
    { intros i. rewrite <- !lookup_fmap. now rewrite Hm1. }
    assert (Hdom1 : dom (db_insts (netlist r1))
                    = dom (if b then delete buffer (db_insts (netlist r))
                           else db_insts (netlist r))).
    { rewrite <- (dom_fmap_L inst_master (db_insts (netlist r1))), Hm1.
      now rewrite dom_fmap_L. }
    assert (Hcell1 : forall i, i ∈ dom (db_insts (netlist r1)) ->
                               libertyCell r1 i = libertyCell r i).
    { intros i Hi. unfold libertyCell. rewrite He1.
      pose proof (Hlk1 i) as Hl.
      destruct b.
      - rewrite Hdom1 in Hi. apply elem_of_dom in Hi.
        destruct (decide (i = buffer)) as [-> | Hne].
        + rewrite lookup_delete_eq in Hi. now destruct Hi.
        + rewrite lookup_delete_ne in Hl by congruence.
          destruct (db_insts (netlist r1) !! i), (db_insts (netlist r) !! i);
            simpl in Hl; congruence.
      - destruct (db_insts (netlist r1) !! i), (db_insts (netlist r) !! i);
          simpl in Hl; congruence. }
    destruct b.
    + destruct (Hb1 eq_refl) as (c & Hc & Hbuf).
      assert (Hin : buffer ∈ dom (db_insts (netlist r))).
      { apply elem_of_dom. unfold libertyCell in Hc.
        destruct (db_insts (netlist r) !! buffer); [eauto | discriminate]. }
      rewrite to_int_id in H by lia.
      apply IH in H as (He & Hsub & Hn & Hkeep & Hgone); [| lia | lia].
      rewrite dom_delete_L in Hdom1.
      split; [congruence |]. split; [set_solver |].
      split; [| split].
      * replace (dom (db_insts (netlist r)) ∖ dom (db_insts (netlist r')))
          with ({[buffer]} ∪ (dom (db_insts (netlist r1)) ∖ dom (db_insts (netlist r')))).
        -- rewrite size_union by set_solver. rewrite size_singleton. lia.
        -- rewrite Hdom1. apply set_eq. intros x.
           destruct (decide (x = buffer)) as [-> | Hx]; set_solver.
      * intros i Hi. rewrite (Hkeep i Hi), Hlk1.
        rewrite lookup_delete_ne; [reflexivity |]. set_solver.
      * intros i Hi Hni. destruct (decide (i = buffer)) as [-> | Hx].
        -- split; [apply list_elem_of_here | eauto].
        -- assert (Hi1 : i ∈ dom (db_insts (netlist r1))) by set_solver.
           destruct (Hgone i Hi1 Hni) as (Hl & c' & Hc' & Hb').
           split; [now apply list_elem_of_further |].
           exists c'. rewrite <- (Hcell1 i Hi1). now split.
    + apply IH in H as (He & Hsub & Hn & Hkeep & Hgone); [| lia | lia].
      split; [congruence |]. rewrite Hdom1 in Hsub, Hn, Hgone.
      split; [exact Hsub |]. split; [exact Hn |]. split.
      * intros i Hi. rewrite (Hkeep i Hi), Hlk1. reflexivity.
      * intros i Hi Hni. destruct (Hgone i Hi Hni) as (Hl & c' & Hc' & Hb').
        split; [now apply list_elem_of_further |].
        exists c'. rewrite <- (Hcell1 i) by (now rewrite Hdom1). now split.
Qed.

(** X10. The count [removeBuffers] reports is the number of instances
    that are gone afterwards. It creates no instance, every instance that
    stays keeps its master, and every instance that is gone had a buffer as
    its liberty cell and, when instances were given, was one of them. (The
    numbers of instances are taken to fit an [int].) *)
Theorem removeBuffers_count (insts : list Instance) (recordJournal : bool)
    (r r' : Resizer) (n : Z) :
  removeBuffers insts recordJournal r = Some (n, r') ->
  (Z.of_nat (length insts) < 2 ^ 31)%Z ->
  (Z.of_nat (size (db_insts (netlist r))) < 2 ^ 31)%Z ->
  dom (db_insts (netlist r')) ⊆ dom (db_insts (netlist r))
  /\ n = Z.of_nat (size (dom (db_insts (netlist r)) ∖ dom (db_insts (netlist r'))))
  /\ (forall i, i ∈ dom (db_insts (netlist r')) ->
        inst_master <$> db_insts (netlist r') !! i = inst_master <$> db_insts (netlist r) !! i)
  /\ (forall i, i ∈ dom (db_insts (netlist r)) -> i ∉ dom (db_insts (netlist r')) ->
        (insts = [] \/ i ∈ insts)
        /\ exists c, libertyCell r i = Some c /\ isBuffer c = true).
Proof.
  intros H Hlen Hsize. unfold removeBuffers in H.
  destruct insts as [| i0 insts].
  - apply removeBuffers_loop_spec in H as (_ & Hsub & Hn & Hkeep & Hgone).
    + split; [exact Hsub |]. split; [lia |]. split; [exact Hkeep |].
      intros i Hi Hni. destruct (Hgone i Hi Hni) as [_ Hc]. split; [now left | exact Hc].
    + lia.
    + rewrite length_map, length_map_to_list. lia.
  - apply removeBuffers_loop_spec in H as (_ & Hsub & Hn & Hkeep & Hgone); [| lia | lia].
    split; [exact Hsub |]. split; [lia |]. split; [exact Hkeep |].
    intros i Hi Hni. destruct (Hgone i Hi Hni) as [Hl Hc]. split; [now right | exact Hc].
Qed.

Lemma journal_consistent_clear j : journal_consistent (clear_logs j).
Proof. unfold journal_consistent. simpl. rewrite dom_empty_L. set_solver. Qed.

Lemma journal_call_step r call :
  (journal_consistent (journal_ r) -> journal_consistent (journal_ (journal_call r call)))
  /\ cumulative_le (journal_ r) (journal_ (journal_call r call)).
Proof.
  destruct call as [| | c | inst | inst p1 p2 | buffer | buffer]; simpl.
  - unfold journalBegin. simpl.
    destruct (callback_registered_ r); simpl;
      (split; [intros _; apply journal_consistent_clear | repeat split; reflexivity]).
  - unfold journalEnd. simpl.
    split; [intros _; apply journal_consistent_clear |].
    destruct (negb (ecoEmpty (db_ r))); repeat split; reflexivity.
  - unfold journalRestore.
    destruct (ecoEmpty (db_ (init r))); simpl.
    + split; [tauto | repeat split; reflexivity].
    + split; [intros _; apply journal_consistent_clear |].
      destruct (callback_registered_ r); repeat split; reflexivity.
  - unfold journalInstReplaceCellBefore.
    destruct (resized_inst_map_ (journal_ r) !! inst) eqn:E.
    + split; [tauto | repeat split; reflexivity].
    + split.
      * intros (H1 & H2 & H3 & H4). unfold journal_consistent. simpl.
        rewrite dom_insert_L. repeat split; [exact H1 | set_solver | exact H3 | exact H4].
      * unfold cumulative_le. simpl. repeat split; set_solver.
  - split.
    + intros (H1 & H2 & H3 & H4). unfold journal_consistent. simpl.
      rewrite dom_insert_L. repeat split; [exact H1 | exact H2 | exact H3 | set_solver].
    + unfold cumulative_le. simpl. repeat split; set_solver.
  - split.
    + intros (H1 & H2 & H3 & H4). unfold journal_consistent. simpl.
      rewrite list_to_set_app_L, H1. simpl.
      repeat split; [set_solver | exact H2 | set_solver | exact H4].
    + unfold cumulative_le. simpl. repeat split; set_solver.
  - unfold journalRemoveBuffer.
    repeat match goal with
           | |- context [match ?m with _ => _ end] => destruct m
           end; (split; [tauto | repeat split; reflexivity]).
Qed.

(** X11. Every sequence of journal calls ([journalBegin], [journalEnd],
    [journalRestore], [journalInstReplaceCellBefore], [journalSwapPins],
    [journalMakeBuffer], [journalRemoveBuffer]) keeps the logs consistent:
    the set of inserted buffers holds the elements of their list, and the
    instances of the resize, insertion and swap logs are in the cumulative
    sets of their kind. The cumulative sets only grow: no call, not even the
    restore, takes an instance out of them. *)
Theorem journal_calls_consistent (calls : list JournalCall) (r : Resizer) :
  journal_consistent (journal_ r) ->
  journal_consistent (journal_ (fold_left journal_call calls r))
  /\ cumulative_le (journal_ r) (journal_ (fold_left journal_call calls r)).
Proof.
  revert r. induction calls as [| call calls IH]; intros r H; simpl.
  - split; [exact H | repeat split; reflexivity].
  - destruct (journal_call_step r call) as [Hc Hle].
    destruct (IH _ (Hc H)) as [Hc' Hle'].
    split; [exact Hc' |].
    destruct Hle as (A1 & A2 & A3 & A4), Hle' as (B1 & B2 & B3 & B4).
    repeat split; set_solver.
Qed.

Lemma journalSwapPins_fold (swaps : list (Instance * (LibertyPort * LibertyPort)))
    (r : Resizer) :
  swapped_pins_ (journal_ (fold_left
     (fun r s => journalSwapPins (fst s) (fst (snd s)) (snd (snd s)) r) swaps r))
  = list_to_map (reverse swaps) ∪ swapped_pins_ (journal_ r).
Proof.
  revert r. induction swaps as [| [i [p1 p2]] swaps IH]; intros r; simpl.
  - now rewrite map_empty_union.
  - rewrite IH. simpl. rewrite reverse_cons, list_to_map_app. simpl.
    rewrite insert_empty, (insert_union_singleton_l (swapped_pins_ (journal_ r))).
    now rewrite (assoc_L (∪)).
Qed.

(** X12. The swap log has one record for each instance, the latest:
    after a sequence of [journalSwapPins] the record of an instance is the
    port pair of its last swap, the records of the other instances are as
    before, and, from an empty log, the size of the log is the number of
    distinct instances swapped, not the number of swaps. *)
Theorem journalSwapPins_latest (swaps : list (Instance * (LibertyPort * LibertyPort)))
    (r : Resizer) :
  let r' := fold_left (fun r s => journalSwapPins (fst s) (fst (snd s)) (snd (snd s)) r)
              swaps r in
  (forall before inst ports after,
     swaps = before ++ (inst, ports) :: after ->
     inst ∉ map fst after ->
     swapped_pins_ (journal_ r') !! inst = Some ports)
  /\ (forall inst, inst ∉ map fst swaps ->
        swapped_pins_ (journal_ r') !! inst = swapped_pins_ (journal_ r) !! inst)
  /\ (swapped_pins_ (journal_ r) = ∅ ->
      size (swapped_pins_ (journal_ r'))
      = size (list_to_set (map fst swaps) : gset Instance)).
Proof.
  cbv zeta. rewrite journalSwapPins_fold.
  split; [| split].
  - intros before inst ports after -> Hafter.
    rewrite reverse_app, reverse_cons, <- app_assoc, list_to_map_app. simpl.
    apply lookup_union_Some_l.
    rewrite lookup_union_r.
    + apply lookup_insert_eq.
    + apply not_elem_of_list_to_map_1. rewrite fmap_reverse, elem_of_reverse. exact Hafter.
  - intros inst Hinst. rewrite lookup_union_r; [reflexivity |].
    apply not_elem_of_list_to_map_1. rewrite fmap_reverse, elem_of_reverse. exact Hinst.
  - intros Hempty. rewrite Hempty, map_union_empty.
    rewrite <- size_dom. f_equal.
    rewrite dom_list_to_map_L, fmap_reverse.
    apply set_eq. intros x. rewrite !elem_of_list_to_set, elem_of_reverse. reflexivity.
Qed.


Lemma last_filter_eq (name : string) (pins : list string) :
  last (filter (fun q => q = name) pins) = if decide (name ∈ pins) then Some name else None.
Proof.
  induction pins as [| p pins IH]; [reflexivity |].
  rewrite filter_cons. destruct (decide (p = name)) as [-> | Hne].
  - rewrite decide_True by apply list_elem_of_here.
    destruct (filter (fun q => q = name) pins) as [| x l] eqn:E; [reflexivity |].
    change (last (name :: x :: l)) with (last (x :: l)). rewrite IH.
    destruct (decide (name ∈ pins)) as [| Hn]; [reflexivity |].
    exfalso. apply Hn.
    assert (Hx : x ∈ filter (fun q => q = name) pins) by (rewrite E; apply list_elem_of_here).
    apply list_elem_of_filter in Hx as [-> Hx]. exact Hx.
  - rewrite IH. destruct (decide (name ∈ pins)) as [Hin | Hn].
    + rewrite decide_True by now apply list_elem_of_further. reflexivity.
    + rewrite decide_False; [reflexivity |].
      intros Hc. apply elem_of_cons in Hc as [-> | Hc]; [congruence | contradiction].
Qed.


Lemma swapPins_connected inst port1 port2 journal r r' pins net1 net2 :
  swapPins inst port1 port2 journal r = Some r' ->
  instance_pins r inst = Some pins ->
  snd port1 ∈ pins -> snd port2 ∈ pins ->
  net_of_pin (netlist r) (ITermPin inst (snd port1)) = Some net1 ->
  net_of_pin (netlist r) (ITermPin inst (snd port2)) = Some net2 ->
  let rj := if journal then journalSwapPins inst port1 port2 r else r in
  let rs := edit (connectPin inst (snd port2) net1)
              (edit (disconnectPin (ITermPin inst (snd port2)))
                 (edit (connectPin inst (snd port1) net2)
                    (edit (disconnectPin (ITermPin inst (snd port1))) rj))) in
  if haveEstimatedParasitics r then
    exists ra, invalidateParasitics (ITermPin inst (snd port2)) (Some net1) rs = Some ra
               /\ invalidateParasitics (ITermPin inst (snd port1)) (Some net2) ra = Some r'
  else r' = rs.
Proof.
  unfold swapPins. intros H Hpins H1 H2 E1 E2.
  set (rj := if journal then journalSwapPins inst port1 port2 r else r) in *.
  assert (Hj : engine rj = engine r /\ db_ rj = db_ r).
  { unfold rj. destruct journal; repeat split. }
  destruct Hj as (Hje & Hjd).
  assert (Hjn : netlist rj = netlist r) by (unfold netlist; now rewrite Hjd).
  assert (Hpj : instance_pins rj inst = instance_pins r inst)
    by (unfold instance_pins; now rewrite Hjn).
  unfold find_pin in H. rewrite Hpj, Hpins in H.
  destruct (forallb _ pins); [| discriminate].
  rewrite !last_filter_eq, Hjn in H.
  rewrite !decide_True in H by assumption.
  rewrite E1, E2 in H.
  cbv zeta.
  match type of H with
  | (if ?c then _ else _) = _ =>
      replace c with (haveEstimatedParasitics r) in H
        by (unfold haveEstimatedParasitics; simpl; now rewrite Hje)
  end.
  destruct (haveEstimatedParasitics r).
  - match type of H with
    | match ?m with _ => _ end = _ => destruct m as [ra |] eqn:Ea; [| discriminate]
    end.
    exists ra. split; [reflexivity | exact H].
  - now injection H as <-.
Qed.

Lemma swapped_lookup (m : gmap (Instance * string) Net) inst q1 q2 net1 net2 :
  q1 <> q2 ->
  let m' := <[(inst, q2) := net1]>
              (delete (inst, q2) (<[(inst, q1) := net2]> (delete (inst, q1) m))) in
  m' !! (inst, q1) = Some net2
  /\ m' !! (inst, q2) = Some net1
  /\ forall k, k <> (inst, q1) -> k <> (inst, q2) -> m' !! k = m !! k.
Proof.
  intros Hne m'. unfold m'. split; [| split].
  - rewrite lookup_insert_ne, lookup_delete_ne, lookup_insert_eq by congruence. reflexivity.
  - apply lookup_insert_eq.
  - intros k Hk1 Hk2.
    rewrite lookup_insert_ne, lookup_delete_ne, lookup_insert_ne, lookup_delete_ne
      by congruence.
    reflexivity.
Qed.

(** X13. When both ports name pins of the instance, different ones, and
    both pins are connected, a [swapPins] that returns has put each pin on the
    net of the other; the net of every other pin and port, the instances, the
    nets and the masters are unchanged, and with journalling the swap log
    has the port pair for the instance. *)
Theorem swapPins_exchanges (inst : Instance) (port1 port2 : LibertyPort) (journal : bool)
    (r r' : Resizer) (pins : list string) (net1 net2 : Net) :
  swapPins inst port1 port2 journal r = Some r' ->
  instance_pins r inst = Some pins ->
  snd port1 ∈ pins -> snd port2 ∈ pins ->
  snd port1 <> snd port2 ->
  net_of_pin (netlist r) (ITermPin inst (snd port1)) = Some net1 ->
  net_of_pin (netlist r) (ITermPin inst (snd port2)) = Some net2 ->
  net_of_pin (netlist r') (ITermPin inst (snd port1)) = Some net2
  /\ net_of_pin (netlist r') (ITermPin inst (snd port2)) = Some net1
  /\ (forall p, p <> ITermPin inst (snd port1) -> p <> ITermPin inst (snd port2) ->
                net_of_pin (netlist r') p = net_of_pin (netlist r) p)
  /\ db_insts (netlist r') = db_insts (netlist r)
  /\ db_nets (netlist r') = db_nets (netlist r)
  /\ db_masters (netlist r') = db_masters (netlist r)
  /\ (journal = true ->
      swapped_pins_ (journal_ r') !! inst = Some (port1, port2)).
Proof.
  intros H Hpins H1 H2 Hne E1 E2.
  pose proof (swapPins_connected _ _ _ _ _ _ _ _ _ H Hpins H1 H2 E1 E2) as Hs.
  cbv zeta in Hs.
  set (rj := if journal then journalSwapPins inst port1 port2 r else r) in *.
  set (rs := edit (connectPin inst (snd port2) net1)
               (edit (disconnectPin (ITermPin inst (snd port2)))
                  (edit (connectPin inst (snd port1) net2)
                     (edit (disconnectPin (ITermPin inst (snd port1))) rj)))) in *.
  assert (Hr' : exists inv, r' = set_parasitics_invalid inv rs).
  { destruct (haveEstimatedParasitics r).
    - destruct Hs as (ra & Ea & Eb).
      destruct (invalidateParasitics_only_set _ _ _ _ Ea) as [inva ->].
      destruct (invalidateParasitics_only_set _ _ _ _ Eb) as [invb ->].
      exists invb. reflexivity.
    - exists (parasitics_invalid_ rs). rewrite Hs. symmetry. apply set_parasitics_invalid_id. }
  destruct Hr' as [inv ->].
  assert (Hjd : db_ rj = db_ r) by (unfold rj; destruct journal; reflexivity).
  assert (Hn : netlist (set_parasitics_invalid inv rs)
               = swapped inst (snd port1) (snd port2) net1 net2 (netlist r)).
  { unfold netlist, rs, edit. simpl. rewrite Hjd. reflexivity. }
  rewrite Hn.
  destruct (swapped_lookup (iterm_net (netlist r)) inst (snd port1) (snd port2) net1 net2 Hne)
    as (L1 & L2 & L3).
  split; [exact L1 |]. split; [exact L2 |].
  split.
  { intros [i q | q] Hp1 Hp2; [| reflexivity]. simpl. apply L3; congruence. }
  do 3 (split; [reflexivity |]).
  intros ->. simpl. apply lookup_insert_eq.
Qed.

Lemma swapped_twice (n : Netlist) inst q1 q2 net1 net2 :
  iterm_net n !! (inst, q1) = Some net1 ->
  iterm_net n !! (inst, q2) = Some net2 ->
  let n' := swapped inst q1 q2 net1 net2 n in
  exists a b,
    iterm_net n' !! (inst, q1) = Some a
    /\ iterm_net n' !! (inst, q2) = Some b
    /\ swapped inst q1 q2 a b n' = n.
Proof.
  intros E1 E2 n'.
  destruct (decide (q1 = q2)) as [<- | Hne].
  - rewrite E1 in E2. injection E2 as <-.
    exists net1, net1.
    assert (L : iterm_net n' !! (inst, q1) = Some net1) by apply lookup_insert_eq.
    split; [exact L |]. split; [exact L |].
    destruct n as [ma ins ne it bt]. unfold n', swapped, connectPin, disconnectPin, set_iterm_net. simpl.
    f_equal. apply map_eq. intros k. simpl in E1.
    destruct (decide (k = (inst, q1))) as [-> | Hk].
    + now rewrite lookup_insert_eq.
    + repeat ((rewrite lookup_insert_ne by congruence) || (rewrite lookup_delete_ne by congruence));
        reflexivity.
  - destruct (swapped_lookup (iterm_net n) inst q1 q2 net1 net2 Hne) as (L1 & L2 & L3).
    exists net2, net1. split; [exact L1 |]. split; [exact L2 |].
    destruct n as [ma ins ne it bt]. unfold n', swapped, connectPin, disconnectPin, set_iterm_net. simpl.
    f_equal. apply map_eq. intros k. simpl in E1, E2.
    destruct (decide (k = (inst, q2))) as [-> | Hk2].
    + now rewrite lookup_insert_eq.
    + rewrite lookup_insert_ne, lookup_delete_ne by congruence.
      destruct (decide (k = (inst, q1))) as [-> | Hk1].
      * now rewrite lookup_insert_eq.
      * repeat ((rewrite lookup_insert_ne by congruence) || (rewrite lookup_delete_ne by congruence));
        reflexivity.
Qed.

Lemma swapPins_netlist inst port1 port2 journal r r' pins net1 net2 :
  swapPins inst port1 port2 journal r = Some r' ->
  instance_pins r inst = Some pins ->
  snd port1 ∈ pins -> snd port2 ∈ pins ->
  net_of_pin (netlist r) (ITermPin inst (snd port1)) = Some net1 ->
  net_of_pin (netlist r) (ITermPin inst (snd port2)) = Some net2 ->
  netlist r' = swapped inst (snd port1) (snd port2) net1 net2 (netlist r).
Proof.
  intros H Hpins H1 H2 E1 E2.
  pose proof (swapPins_connected _ _ _ _ _ _ _ _ _ H Hpins H1 H2 E1 E2) as Hs.
  cbv zeta in Hs.
  assert (Hjd : db_ (if journal then journalSwapPins inst port1 port2 r else r) = db_ r)
    by (destruct journal; reflexivity).
  destruct (haveEstimatedParasitics r).
  - destruct Hs as (ra & Ea & Eb).
    destruct (invalidateParasitics_only_set _ _ _ _ Ea) as [inva ->].
    destruct (invalidateParasitics_only_set _ _ _ _ Eb) as [invb ->].
    unfold netlist, edit. simpl. rewrite Hjd. reflexivity.
  - rewrite Hs. unfold netlist, edit. simpl. rewrite Hjd. reflexivity.
Qed.

(** X14. Swapping the same two connected pins of an instance a second
    time gives back the netlist from before the first swap, with or without
    journalling. *)
Theorem swapPins_twice (inst : Instance) (port1 port2 : LibertyPort) (journal journal' : bool)
    (r r' r'' : Resizer) (pins : list string) (net1 net2 : Net) :
  swapPins inst port1 port2 journal r = Some r' ->
  swapPins inst port1 port2 journal' r' = Some r'' ->
  instance_pins r inst = Some pins ->
  snd port1 ∈ pins -> snd port2 ∈ pins ->
  net_of_pin (netlist r) (ITermPin inst (snd port1)) = Some net1 ->
  net_of_pin (netlist r) (ITermPin inst (snd port2)) = Some net2 ->
  netlist r'' = netlist r.
Proof.
  intros H H' Hpins H1 H2 E1 E2.
  pose proof (swapPins_netlist _ _ _ _ _ _ _ _ _ H Hpins H1 H2 E1 E2) as Hn.
  destruct (swapped_twice (netlist r) inst (snd port1) (snd port2) net1 net2 E1 E2)
    as (a & b & La & Lb & Hback).
  rewrite <- Hn in La, Lb, Hback.
  assert (Hpins' : instance_pins r' inst = Some pins).
  { unfold instance_pins. rewrite Hn. exact Hpins. }
  rewrite (swapPins_netlist _ _ _ _ _ _ _ _ _ H' Hpins' H1 H2 La Lb). exact Hback.
Qed.

Section SwapPinCandidateFacts.
Variable env : DelayEnv.
Variable isInput : LibertyPort -> bool.
Variable equiv : LibertyPort -> LibertyPort -> bool.
Variable input_port : LibertyPort.
Variable load_cap : Q.

Lemma port_delays_fold (arcs : list TimingArc) :
  let res := fold_left (port_delays_arc env input_port load_cap) arcs (- INF env, ∅) in
  fst res = input_delay env input_port load_cap arcs
  /\ forall port, port <> input_port -> snd res !! port = first_delay env load_cap arcs port.
Proof.
  cbv zeta. unfold input_delay, first_delay.
  assert (H : forall arcs base (m : gmap LibertyPort Q),
    let res := fold_left (port_delays_arc env input_port load_cap) arcs (base, m) in
    fst res = fold_left (fun base arc => fmax base (gateDelay (arc_dcalc env load_cap arc)))
                (filter (fun arc => arc_from arc = input_port) arcs) base
    /\ forall port, port <> input_port ->
         snd res !! port
         = match m !! port with
           | Some d => Some d
           | None => (fun arc => gateDelay (arc_dcalc env load_cap arc))
                       <$> head (filter (fun arc => arc_from arc = port) arcs)
           end).
  { clear arcs. intros arcs. induction arcs as [| arc arcs IH]; intros base m; cbv zeta; simpl.
    - split; [reflexivity |]. intros port _. now destruct (m !! port).
    - unfold port_delays_arc at 2 4. cbn [fst snd]. rewrite !filter_cons.
      case_bool_decide as Hin.
      + destruct (IH (fmax base (gateDelay (arc_dcalc env load_cap arc))) m) as [IH1 IH2].
        rewrite ?decide_True by exact Hin. split; [exact IH1 |].
        intros port Hp. rewrite (IH2 port Hp).
        rewrite filter_cons, decide_False by congruence. reflexivity.
      + rewrite ?decide_False by exact Hin.
        destruct (m !! arc_from arc) as [d |] eqn:Em.
        * destruct (IH base (<[input_port := fmax d (gateDelay (arc_dcalc env load_cap arc))]> m))
            as [IH1 IH2].
          split; [exact IH1 |]. intros port Hp. rewrite (IH2 port Hp).
          rewrite lookup_insert_ne by congruence.
          destruct (m !! port) as [d' |] eqn:Ep; [reflexivity |].
          rewrite filter_cons, decide_False by congruence. reflexivity.
        * destruct (IH base (<[arc_from arc := gateDelay (arc_dcalc env load_cap arc)]> m))
            as [IH1 IH2].
          split; [exact IH1 |]. intros port Hp. rewrite (IH2 port Hp), filter_cons.
          destruct (decide (arc_from arc = port)) as [<- | Hne].
          -- rewrite lookup_insert_eq, Em. reflexivity.
          -- rewrite lookup_insert_ne by congruence. reflexivity. }
  destruct (H arcs (- INF env) ∅) as [H1 H2].
  split; [exact H1 |]. intros port Hp. rewrite (H2 port Hp), lookup_empty. reflexivity.
Qed.

Lemma swap_candidate_fold (drvr_port : LibertyPort) (D : gmap LibertyPort Q)
    (ports : list LibertyPort) : forall (base : Q) (swap_port : option LibertyPort),
  let eligible p :=
    isInput p = true /\ equiv input_port p = false /\ equiv drvr_port p = false in
  let res := fold_left (swap_candidate isInput equiv input_port drvr_port D) ports (base, swap_port) in
  (res = (base, swap_port)
   /\ forall p d, p ∈ ports -> eligible p -> D !! p = Some d -> base <= d)
  \/ (exists p, snd res = Some p /\ p ∈ ports /\ eligible p /\ D !! p = Some (fst res)
                /\ fst res < base
                /\ forall q d, q ∈ ports -> eligible q -> D !! q = Some d -> fst res <= d).
Proof.
  cbv zeta. induction ports as [| port ports IH]; intros base swap_port; simpl.
  - left. split; [reflexivity |]. intros p d Hp. inversion Hp.
  - unfold swap_candidate at 2 4 6 8 10. cbn [fst].
    destruct (D !! port) as [delay |] eqn:Ed.
    + destruct (isInput port && negb (equiv input_port port) && negb (equiv drvr_port port)
                && Qltb delay base) eqn:Ec.
      * apply andb_true_iff in Ec as [Ec Hlt]. apply Qltb_lt in Hlt.
        apply andb_true_iff in Ec as [Ec He2]. apply andb_true_iff in Ec as [He0 He1].
        apply negb_true_iff in He1, He2.
        destruct (IH delay (Some port)) as [[E Hall] | (p & Hp & Hin & Hel & Hd & Hlt' & Hall)].
        -- right. exists port. rewrite E. simpl.
           split; [reflexivity |]. split; [apply list_elem_of_here |].
           split; [now repeat split |]. split; [exact Ed |]. split; [exact Hlt |].
           intros q d Hq Helq Hdq. apply elem_of_cons in Hq as [-> | Hq].
           ++ rewrite Ed in Hdq. injection Hdq as <-. lra.
           ++ now apply (Hall q d).
        -- right. exists p. split; [exact Hp |]. split; [now apply list_elem_of_further |].
           split; [exact Hel |]. split; [exact Hd |]. split; [lra |].
           intros q d Hq Helq Hdq. apply elem_of_cons in Hq as [-> | Hq].
           ++ rewrite Ed in Hdq. injection Hdq as <-. lra.
           ++ now apply (Hall q d).
      * destruct (IH base swap_port) as [[E Hall] | (p & Hp & Hin & Hel & Hd & Hlt' & Hall)].
        -- left. split; [exact E |].
           intros q d Hq (Hq0 & Hq1 & Hq2) Hdq. apply elem_of_cons in Hq as [-> | Hq].
           ++ rewrite Ed in Hdq. injection Hdq as <-.
              rewrite Hq0, Hq1, Hq2 in Ec. simpl in Ec. now apply Qltb_ge.
           ++ now apply (Hall q d).
        -- right. exists p. split; [exact Hp |]. split; [now apply list_elem_of_further |].
           split; [exact Hel |]. split; [exact Hd |]. split; [exact Hlt' |].
           intros q d Hq (Hq0 & Hq1 & Hq2) Hdq. apply elem_of_cons in Hq as [-> | Hq].
           ++ rewrite Ed in Hdq. injection Hdq as <-.
              rewrite Hq0, Hq1, Hq2 in Ec. simpl in Ec. apply Qltb_ge in Ec. lra.
           ++ now apply (Hall q d).
    + destruct (IH base swap_port) as [[E Hall] | (p & Hp & Hin & Hel & Hd & Hlt' & Hall)].
      * left. split; [exact E |].
        intros q d Hq Helq Hdq. apply elem_of_cons in Hq as [-> | Hq]; [congruence |].
        now apply (Hall q d).
      * right. exists p. split; [exact Hp |]. split; [now apply list_elem_of_further |].
        split; [exact Hel |]. split; [exact Hd |]. split; [exact Hlt' |].
        intros q d Hq Helq Hdq. apply elem_of_cons in Hq as [-> | Hq]; [congruence |].
        now apply (Hall q d).
Qed.

(** X15. For an [equiv] that holds of a port and itself:
    [findSwapPinCandidate] leaves [*swap_port] as it was when no equivalent
    port that is an input, not equivalent to the input port or the driver
    port, has a recorded delay below the delay of the input port (the largest
    delay of its arcs into the driver port, from [-INF]). Otherwise it
    returns such a port whose recorded delay is below that delay and is the
    smallest among these ports. The delay recorded for a port is that of the
    first arc from it into the driver port: a later arc of the same port
    updates the entry of the input port instead. *)
Theorem findSwapPinCandidate_fastest (cell : LibertyCell) (drvr_port : LibertyPort)
    (equiv_ports : list LibertyPort) (swap_port : option LibertyPort) :
  (forall p, equiv p p = true) ->
  let arcs := drvr_arcs cell drvr_port in
  let eligible p :=
    isInput p = true /\ equiv input_port p = false /\ equiv drvr_port p = false in
  let result := findSwapPinCandidate env isInput equiv input_port load_cap cell drvr_port
      equiv_ports swap_port in
  (result = swap_port
   /\ forall p d, p ∈ equiv_ports -> eligible p -> first_delay env load_cap arcs p = Some d ->
                  input_delay env input_port load_cap arcs <= d)
  \/ (exists p d,
        result = Some p /\ p ∈ equiv_ports /\ eligible p
        /\ first_delay env load_cap arcs p = Some d
        /\ d < input_delay env input_port load_cap arcs
        /\ forall q d', q ∈ equiv_ports -> eligible q -> first_delay env load_cap arcs q = Some d' ->
                        d <= d').
Proof.
  intros Hrefl. cbv zeta. unfold findSwapPinCandidate.
  destruct (port_delays_fold (drvr_arcs cell drvr_port)) as [Hbase Hmap].
  destruct (fold_left (port_delays_arc env input_port load_cap) (drvr_arcs cell drvr_port) (- INF env, ∅))
    as [base_delay port_delays].
  cbn [fst snd] in Hbase, Hmap. subst base_delay.
  assert (Hne : forall p, equiv input_port p = false -> p <> input_port).
  { intros p He ->. rewrite Hrefl in He. discriminate. }
  destruct (swap_candidate_fold drvr_port port_delays equiv_ports
              (input_delay env input_port load_cap (drvr_arcs cell drvr_port)) swap_port)
    as [[E Hall] | (p & Hp & Hin & Hel & Hd & Hlt & Hall)].
  - left. rewrite E. split; [reflexivity |].
    intros p d Hp Hel Hd. apply (Hall p d Hp Hel).
    rewrite Hmap; [exact Hd |]. apply Hne, Hel.
  - right. exists p. eexists. split; [exact Hp |]. split; [exact Hin |].
    split; [exact Hel |]. split; [rewrite <- Hmap; [exact Hd | apply Hne, Hel] |].
    split; [exact Hlt |].
    intros q d' Hq Helq Hdq. apply (Hall q d' Hq Helq).
    rewrite Hmap; [exact Hdq |]. apply Hne, Helq.
Qed.

End SwapPinCandidateFacts.

(** X16. The overload of [gateDelays] that is given the input slews
    returns what the other overload returns whenever the slew given for the
    input edge of each non-check arc into the port is the one that overload
    takes (the annotated slew of the source port, else the target slew). *)
Theorem gateDelays_overloads_agree (env : DelayEnv) (cell : LibertyCell)
    (drvr_port : LibertyPort) (load_cap : Q) (in_slews : RiseFallValues) :
  (forall arc, arc ∈ drvr_arcs cell drvr_port ->
     rf_get in_slews (fromEdge arc) = arc_in_slew env arc) ->
  gateDelays_in_slews env cell drvr_port load_cap in_slews
  = gateDelays env cell drvr_port load_cap.
Proof.
  unfold gateDelays_in_slews, gateDelays, drvr_arcs.
  generalize ({| rise_value := - INF env; fall_value := - INF env |},
              {| rise_value := - INF env; fall_value := - INF env |}).
  induction (timingArcSets cell) as [| s l IH]; intros acc H; simpl; [reflexivity |].
  assert (Hs : (if bool_decide (set_to s = drvr_port) && negb (role_isTimingCheck s)
                then fold_left (gateDelays_in_slews_arc env in_slews load_cap) (arcs s) acc
                else acc)
               = gateDelays_set env drvr_port load_cap acc s).
  { unfold gateDelays_set.
    destruct (bool_decide (set_to s = drvr_port) && negb (role_isTimingCheck s)) eqn:E;
      [| reflexivity].
    apply andb_true_iff in E as [E1 E2]. apply bool_decide_eq_true in E1.
    apply negb_true_iff in E2.
    assert (Harcs : forall arc, arc ∈ arcs s -> rf_get in_slews (fromEdge arc)
                                               = arc_in_slew env arc).
    { intros arc Ha. apply H. rewrite filter_cons, decide_True by now split.
      simpl. apply elem_of_app. now left. }
    clear H IH. revert acc. induction (arcs s) as [| a la IHa]; intros acc; simpl;
      [reflexivity |].
    rewrite IHa by (intros arc Ha; apply Harcs; now apply list_elem_of_further).
    f_equal. unfold gateDelays_in_slews_arc, gateDelays_arc, arc_dcalc.
    rewrite Harcs by apply list_elem_of_here. reflexivity. }
  rewrite Hs. apply IH.
  intros arc Ha. apply H. rewrite filter_cons.
  destruct (decide _); [| exact Ha]. simpl. apply elem_of_app. now right.
Qed.

(** X17. The scalar [gateDelay] of a port is at least its delay for
    each edge and at least the delay of every non-check arc into the port; it
    is [-INF] or the delay of one of these arcs. [bufferDelay] of a cell is
    the scalar [gateDelay] of its output port, and is at least the
    [bufferDelay] for each edge. *)
Theorem gateDelay_worst_edge (env : DelayEnv) (cell : LibertyCell) (drvr_port : LibertyPort)
    (load_cap : Q) :
  let worst := gateDelay_max env cell drvr_port load_cap in
  let delay_of arc := gateDelay (arc_dcalc env load_cap arc) in
  (forall rf, gateDelay_rf env cell drvr_port rf load_cap <= worst)
  /\ Forall (fun arc => delay_of arc <= worst) (drvr_arcs cell drvr_port)
  /\ (worst = - INF env
      \/ Exists (fun arc => worst = delay_of arc) (drvr_arcs cell drvr_port))
  /\ bufferDelay env cell load_cap
     = gateDelay_max env cell (cell_name cell, snd (bufferPorts cell)) load_cap
  /\ (forall rf, bufferDelay_rf env cell rf load_cap <= bufferDelay env cell load_cap).
Proof.
  cbv zeta. unfold gateDelay_max, gateDelay_rf, bufferDelay_rf, bufferDelay.
  assert (Hrf : forall (d : RiseFallValues) rf, rf_get d rf <= fmax (rf_get d Rise) (rf_get d Fall)).
  { intros d []; [apply fmax_ge_l | apply fmax_ge_r]. }
  split; [intros rf; apply Hrf |].
  rewrite gateDelays_flat, gateDelays_arc_fst. simpl fst.
  set (init := {| rise_value := - INF env; fall_value := - INF env |}).
  set (d := fold_left _ _ init).
  assert (Hspec : forall rf,
    rf_get init rf <= rf_get d rf
    /\ (forall x, x ∈ drvr_arcs cell drvr_port -> toEdge x = rf ->
                  gateDelay (arc_dcalc env load_cap x) <= rf_get d rf)
    /\ (rf_get d rf = rf_get init rf
        \/ exists x, x ∈ drvr_arcs cell drvr_port /\ toEdge x = rf
                     /\ rf_get d rf = gateDelay (arc_dcalc env load_cap x))).
  { intros rf.
    apply (rf_max_fold_spec toEdge (fun arc => gateDelay (arc_dcalc env load_cap arc))). }
  split; [| split; [| split; [reflexivity | intros rf; apply Hrf]]].
  - apply Forall_forall. intros arc Harc.
    destruct (Hspec (toEdge arc)) as (_ & Hub & _).
    specialize (Hub arc Harc eq_refl).
    pose proof (Hrf d (toEdge arc)). lra.
  - destruct (fmax_cases (rf_get d Rise) (rf_get d Fall)) as [[-> _] | [-> _]].
    + destruct (Hspec Rise) as (_ & _ & [E | (x & Hx & _ & E)]).
      * left. rewrite E. reflexivity.
      * right. apply Exists_exists. now exists x.
    + destruct (Hspec Fall) as (_ & _ & [E | (x & Hx & _ & E)]).
      * left. rewrite E. reflexivity.
      * right. apply Exists_exists. now exists x.
Qed.



Lemma Qeqb_eq x y : Qeqb x y = true <-> x == y.
Proof. unfold Qeqb. rewrite Qeq_alt. destruct (x ?= y); split; congruence. Qed.

Lemma closestDriver_loop_spec r maxLoad current_limit candidates :
  forall diff closest result,
    closestDriver_loop r maxLoad current_limit candidates diff closest = Some result ->
    let dist c := Qabs (maxLoad c - current_limit) in
    (result = closest
     /\ forall c, c ∈ candidates -> dontUse r c = false -> diff <= dist c /\ ~ maxLoad c == current_limit)
    \/ (exists c, result = Some c /\ c ∈ candidates /\ dontUse r c = false
                  /\ (maxLoad c == current_limit
                      \/ (dist c < diff
                          /\ forall c', c' ∈ candidates -> dontUse r c' = false ->
                                        dist c <= dist c' /\ ~ maxLoad c' == current_limit))).
Proof.
  cbv zeta.
  induction candidates as [| cand candidates IH]; intros diff closest result H;
    cbn [closestDriver_loop] in H.
  - injection H as <-. left. split; [reflexivity |]. intros c Hc. inversion Hc.
  - destruct (dontUse r cand) eqn:Edu.
    + destruct (IH _ _ _ H) as [[-> Hall] | (c & -> & Hin & Hdu & Hc)].
      * left. split; [reflexivity |]. intros c Hc Hdu.
        apply elem_of_cons in Hc as [-> | Hc]; [congruence | now apply Hall].
      * right. exists c. split; [reflexivity |]. split; [now apply list_elem_of_further |].
        split; [exact Hdu |].
        destruct Hc as [Hc | [Hlt Hall]]; [now left | right].
        split; [exact Hlt |]. intros c' Hc' Hdu'.
        apply elem_of_cons in Hc' as [-> | Hc']; [congruence | now apply Hall].
    + destruct (libraryOutputPins cand) as [| p ps]; [discriminate |].
      destruct (Qeqb (maxLoad cand) current_limit) eqn:Eeq.
      * injection H as <-. right. exists cand. split; [reflexivity |].
        split; [apply list_elem_of_here |]. split; [exact Edu |].
        left. now apply Qeqb_eq.
      * assert (Hneq : ~ maxLoad cand == current_limit).
        { intros Hc. apply Qeqb_eq in Hc. congruence. }
        destruct (Qltb (Qabs (maxLoad cand - current_limit)) diff) eqn:Elt.
        -- apply Qltb_lt in Elt.
           destruct (IH _ _ _ H) as [[-> Hall] | (c & -> & Hin & Hdu & Hc)].
           ++ right. exists cand. split; [reflexivity |].
              split; [apply list_elem_of_here |]. split; [exact Edu |].
              right. split; [exact Elt |]. intros c' Hc' Hdu'.
              apply elem_of_cons in Hc' as [-> | Hc']; [split; [lra | exact Hneq] |].
              now apply Hall.
           ++ right. exists c. split; [reflexivity |].
              split; [now apply list_elem_of_further |]. split; [exact Hdu |].
              destruct Hc as [Hc | [Hlt Hall]]; [now left | right].
              split; [lra |]. intros c' Hc' Hdu'.
              apply elem_of_cons in Hc' as [-> | Hc']; [split; [lra | exact Hneq] |].
              now apply Hall.
        -- apply Qltb_ge in Elt.
           destruct (IH _ _ _ H) as [[-> Hall] | (c & -> & Hin & Hdu & Hc)].
           ++ left. split; [reflexivity |]. intros c Hc Hdu.
              apply elem_of_cons in Hc as [-> | Hc]; [split; [lra | exact Hneq] |].
              now apply Hall.
           ++ right. exists c. split; [reflexivity |].
              split; [now apply list_elem_of_further |]. split; [exact Hdu |].
              destruct Hc as [Hc | [Hlt Hall]]; [now left | right].
              split; [exact Hlt |]. intros c' Hc' Hdu'.
              apply elem_of_cons in Hc' as [-> | Hc']; [split; [lra | exact Hneq] |].
              now apply Hall.
Qed.

(** X19. The cell [closestDriver] returns is one of the candidates and
    not don't-use, and the given cell is then a combinational one with a
    single output. Either its load limit equals the scaled limit of the
    given cell, or no usable candidate has that limit and its distance to it
    is below [INF] and the smallest among the usable candidates. It returns
    null only when there is no candidate, the given cell is not a
    single-output combinational one, or no usable candidate is within [INF]
    of the limit. *)
Theorem closestDriver_closest (r : Resizer)
    (isClockGate isPad isMacro hasSequentials : LibertyCell -> bool)
    (maxLoad : LibertyCell -> Q) (cell : LibertyCell) (candidates : list LibertyCell)
    (scale : Q) (result : option LibertyCell) :
  closestDriver r isClockGate isPad isMacro hasSequentials maxLoad cell candidates scale
  = Some result ->
  let current_limit := scale * maxLoad cell in
  let dist c := Qabs (maxLoad c - current_limit) in
  match result with
  | Some c =>
      c ∈ candidates /\ dontUse r c = false
      /\ isSingleOutputCombinational isClockGate isPad isMacro hasSequentials cell = true
      /\ (maxLoad c == current_limit
          \/ (dist c < INF (delay_env (engine r))
              /\ forall c', c' ∈ candidates -> dontUse r c' = false ->
                            dist c <= dist c' /\ ~ maxLoad c' == current_limit))
  | None =>
      candidates = []
      \/ isSingleOutputCombinational isClockGate isPad isMacro hasSequentials cell = false
      \/ forall c, c ∈ candidates -> dontUse r c = false ->
                   INF (delay_env (engine r)) <= dist c /\ ~ maxLoad c == current_limit
  end.
Proof.
  unfold closestDriver. intros H. cbv zeta.
  destruct candidates as [| c0 cs]; [injection H as <-; now left |].
  destruct (isSingleOutputCombinational _ _ _ _ cell) eqn:Es; cbn [negb] in H;
    [| injection H as <-; right; now left].
  apply closestDriver_loop_spec in H.
  destruct H as [[-> Hall] | (c & -> & Hin & Hdu & Hc)].
  - right. right. exact Hall.
  - split; [exact Hin |]. split; [exact Hdu |]. split; [reflexivity | exact Hc].
Qed.

Lemma take_limit_spec (compare : Q -> Q -> bool) (a b : option Q) :
  (forall x y, compare x y = Qltb y x) ->
  match take_limit compare a b with
  | Some l => (Some l = a \/ Some l = b)
              /\ (forall x, a = Some x -> l <= x) /\ (forall x, b = Some x -> l <= x)
  | None => a = None /\ b = None
  end.
Proof.
  intros Hc. unfold take_limit. destruct b as [y |], a as [x |]; simpl.
  - rewrite Hc. destruct (Qltb y x) eqn:E.
    + apply Qltb_lt in E. split; [now right |]. split; intros ? [= <-]; lra.
    + apply Qltb_ge in E. split; [now left |]. split; intros ? [= <-]; lra.
  - split; [now right |]. split; [discriminate | intros ? [= <-]; lra].
  - split; [now left |]. split; [intros ? [= <-]; lra | discriminate].
  - now split.
Qed.

(** X20. With the comparison of the maximum ([a > b]): [maxLoad] is 0
    for a cell without output port; when the design or the cell has a
    capacitance limit it is the smallest of these and of the own limit of the
    first output port; when neither has, it is the own limit of the first
    output port that has one, and 0 if none has. *)
Theorem maxLoad_tightest (compare : Q -> Q -> bool) (top_limit cell_limit : option Q)
    (ports : list PortLimits) :
  (forall a b, compare a b = Qltb b a) ->
  let outputs := List.filter port_isOutput ports in
  let result := maxLoad compare top_limit cell_limit ports in
  (outputs = [] -> result = 0)
  /\ (top_limit = None -> cell_limit = None ->
      result = default 0 (head (omap own_limit outputs)))
  /\ (forall port others, outputs = port :: others ->
      is_Some top_limit \/ is_Some cell_limit ->
      Some result ∈ [top_limit; cell_limit; own_limit port]
      /\ forall l, Some l ∈ [top_limit; cell_limit; own_limit port] -> result <= l).
Proof.
  intros Hc. cbv zeta. split; [| split].
  - induction ports as [| p ports IH]; simpl; [reflexivity |].
    destruct (port_isOutput p); [discriminate | exact IH].
  - intros -> ->. induction ports as [| p ports IH]; simpl; [reflexivity |].
    destruct (port_isOutput p); [| exact IH]. simpl.
    unfold port_limit. simpl.
    destruct (own_limit p) as [l |]; [reflexivity | exact IH].
  - induction ports as [| p ports IH]; intros port others Hout Hex; simpl in *;
      [discriminate |].
    destruct (port_isOutput p); [| now apply (IH port others)].
    injection Hout as -> _.
    unfold port_limit.
    pose proof (take_limit_spec compare top_limit cell_limit Hc) as H1.
    pose proof (take_limit_spec compare (take_limit compare top_limit cell_limit)
                  (own_limit port) Hc) as H2.
    destruct (take_limit compare (take_limit compare top_limit cell_limit) (own_limit port))
      as [l |].
    + destruct H2 as (Hin & Hle1 & Hle2).
      destruct (take_limit compare top_limit cell_limit) as [l0 |].
      * destruct H1 as (Hin0 & Hle01 & Hle02).
        specialize (Hle1 l0 eq_refl).
        split.
        -- destruct Hin as [Hin | Hin].
           ++ injection Hin as ->.
              destruct Hin0 as [Hin0 | Hin0]; rewrite <- Hin0; set_solver.
           ++ rewrite <- Hin. set_solver.
        -- intros x Hx. rewrite !elem_of_cons in Hx.
           destruct Hx as [Hx | [Hx | [Hx | Hx]]]; [| | | inversion Hx].
           ++ symmetry in Hx. specialize (Hle01 x Hx). lra.
           ++ symmetry in Hx. specialize (Hle02 x Hx). lra.
           ++ symmetry in Hx. now apply Hle2.
      * destruct H1 as [-> ->]. destruct Hex as [[? Hx] | [? Hx]]; discriminate.
    + destruct H2 as [H2 _]. rewrite H2 in H1. destruct H1 as [-> ->].
      destruct Hex as [[? Hx] | [? Hx]]; discriminate.
Qed.

Lemma int_of_Some z v : int_of z = Some v -> v = z /\ is_int z.
Proof. unfold int_of. destruct (decide (is_int z)); [intros [= <-]; now split | discriminate]. Qed.

Lemma nearest_reflect (d a b c : Z) :
  ((d <? a) && (d <? b) && (d <? c))%Z = true <-> nearest d a b c.
Proof. unfold nearest. rewrite !andb_true_iff, !Z.ltb_lt. tauto. Qed.

Lemma nearest_reflect_false (d a b c : Z) :
  ((d <? a) && (d <? b) && (d <? c))%Z = false <-> ~ nearest d a b c.
Proof. rewrite <- nearest_reflect. now destruct ((d <? a) && (d <? b) && (d <? c))%Z. Qed.

(** X21. For a load on an instance, [tieLocation] moves the tie cell
    from the location of the load by the separation towards the side of the
    bounding box that is strictly the nearest of the four (left, right,
    bottom, top), and along one axis only; when no side is strictly the
    nearest the tie cell is at the location of the load. *)
Theorem tieLocation_nearest_side (load_x load_y : Z) (bbox : Rect) (separation : Z)
    (tie : Z * Z) :
  tieLocation (load_x, load_y) (Some bbox) separation = Some tie ->
  let left_dist := Z.abs (load_x - xMin bbox) in
  let right_dist := Z.abs (load_x - xMax bbox) in
  let bot_dist := Z.abs (load_y - yMin bbox) in
  let top_dist := Z.abs (load_y - yMax bbox) in
  (nearest left_dist right_dist bot_dist top_dist
   /\ tie = (load_x - separation, load_y)%Z)
  \/ (nearest right_dist left_dist bot_dist top_dist
      /\ tie = (load_x + separation, load_y)%Z)
  \/ (nearest bot_dist left_dist right_dist top_dist
      /\ tie = (load_x, load_y - separation)%Z)
  \/ (nearest top_dist left_dist right_dist bot_dist
      /\ tie = (load_x, load_y + separation)%Z)
  \/ (~ nearest left_dist right_dist bot_dist top_dist
      /\ ~ nearest right_dist left_dist bot_dist top_dist
      /\ ~ nearest bot_dist left_dist right_dist top_dist
      /\ ~ nearest top_dist left_dist right_dist bot_dist
      /\ tie = (load_x, load_y)).
Proof.
  unfold tieLocation, abs_diff. cbn [fst snd]. intros H.
  repeat match type of H with
         | (?m ≫= _) = Some _ =>
             let E := fresh "E" in
             destruct m eqn:E; cbn [mbind option_bind] in H; [| discriminate H]
         end.
  repeat match goal with
         | E : int_of _ = Some _ |- _ => apply int_of_Some in E as [-> _]
         | E : (_ ≫= _) = Some _ |- _ =>
             let m := match type of E with (?m ≫= _) = _ => m end in
             let E' := fresh "E" in
             destruct m eqn:E'; cbn [mbind option_bind] in E; [| discriminate E]
         end.
  injection H as <-.
  cbv zeta.
  repeat match goal with
         | E : (if ?c then _ else _) = Some _ |- _ =>
             let C := fresh "C" in
             destruct c eqn:C;
             [apply int_of_Some in E as [-> _]; apply nearest_reflect in C
             | injection E as ->; apply nearest_reflect_false in C]
         end.
  all: try (exfalso; unfold nearest in *; lia).
  all: first
    [ left; split; [assumption | reflexivity]
    | right; left; split; [assumption | reflexivity]
    | right; right; left; split; [assumption | reflexivity]
    | right; right; right; left; split; [assumption | reflexivity]
    | right; right; right; right; repeat split; assumption ].
Qed.

Lemma clamp_into_core_spec x lo hi size :
  is_int (hi - size) -> (lo <= hi - size)%Z ->
  exists v moved,
    clamp_into_core x lo hi size = Some (v, moved)
    /\ (lo <= v <= hi - size)%Z
    /\ (moved = false <-> v = x)
    /\ clamp_into_core v lo hi size = Some (v, false).
Proof.
  unfold clamp_into_core, int_of. intros Hint Hfit.
  rewrite decide_True by exact Hint. cbn [mbind option_bind].
  destruct (x <? lo)%Z eqn:E1.
  - apply Z.ltb_lt in E1. exists lo, true.
    split; [reflexivity |]. split; [lia |]. split; [split; [discriminate | lia] |].
    rewrite Z.ltb_irrefl.
    replace (hi - size <? lo)%Z with false by (symmetry; apply Z.ltb_ge; lia).
    reflexivity.
  - apply Z.ltb_ge in E1.
    destruct (hi - size <? x)%Z eqn:E2.
    + apply Z.ltb_lt in E2. exists (hi - size)%Z, true.
      split; [reflexivity |]. split; [lia |]. split; [split; [discriminate | lia] |].
      replace (hi - size <? lo)%Z with false by (symmetry; apply Z.ltb_ge; lia).
      rewrite Z.ltb_irrefl. reflexivity.
    + apply Z.ltb_ge in E2. exists x, false.
      split; [reflexivity |]. split; [lia |]. split; [tauto |].
      replace (x <? lo)%Z with false by (symmetry; apply Z.ltb_ge; lia).
      replace (hi - size <? x)%Z with false by (symmetry; apply Z.ltb_ge; lia).
      reflexivity.
Qed.

(** X22. When there is a core and the master fits into it,
    [setLocation] returns a location with the whole instance inside the core;
    [buffer_moved_into_core_] becomes true exactly when it was true or the
    location differs from the requested one; and setting the returned
    location again changes nothing. *)
Theorem setLocation_inside_core (core_ : Rect) (width height : Z) (pt : Z * Z)
    (buffer_moved_into_core_ : bool) :
  is_int (xMax core_ - width) -> is_int (yMax core_ - height) ->
  (xMin core_ <= xMax core_ - width)%Z -> (yMin core_ <= yMax core_ - height)%Z ->
  exists x y moved,
    setLocation true core_ width height pt buffer_moved_into_core_ = Some (x, y, moved)
    /\ (xMin core_ <= x <= xMax core_ - width)%Z
    /\ (yMin core_ <= y <= yMax core_ - height)%Z
    /\ (moved = buffer_moved_into_core_ || negb (bool_decide ((x, y) = pt)))
    /\ setLocation true core_ width height (x, y) moved = Some (x, y, moved).
Proof.
  intros Hix Hiy Hx Hy. unfold setLocation.
  destruct (clamp_into_core_spec (fst pt) _ _ _ Hix Hx) as (x & mx & Ex & Bx & Mx & Ix).
  destruct (clamp_into_core_spec (snd pt) _ _ _ Hiy Hy) as (y & my & Ey & By & My & Iy).
  exists x, y, (buffer_moved_into_core_ || mx || my).
  rewrite Ex, Ey. cbn [mbind option_bind fst snd].
  split; [reflexivity |]. split; [exact Bx |]. split; [exact By |].
  split.
  - destruct pt as [px py]. cbn [fst snd] in *.
    rewrite <- orb_assoc. f_equal.
    destruct mx, my; case_bool_decide as Hd; try reflexivity; exfalso.
    + injection Hd as -> ->. destruct Mx as [_ Mx]. now specialize (Mx eq_refl).
    + injection Hd as -> ->. destruct Mx as [_ Mx]. now specialize (Mx eq_refl).
    + injection Hd as -> ->. destruct My as [_ My]. now specialize (My eq_refl).
    + apply Hd. f_equal; [now apply Mx | now apply My].
  - rewrite Ix, Iy. cbn [mbind option_bind fst snd]. now rewrite !orb_false_r.
Qed.



Lemma string_app_inj (s a b : string) : s +:+ a = s +:+ b -> a = b.
Proof. induction s as [| c s IH]; simpl; [tauto | intros [= H]; now apply IH]. Qed.

(** Among [size X + 1] consecutive values of an injective naming, one is
    not in [X]. *)
Lemma fresh_within (name_of : Z -> string) (X : gset string) :
  (forall a b, name_of a = name_of b -> a = b) ->
  forall index, exists k, (k <= size X)%nat /\ (name_of (index + Z.of_nat k)%Z ∉ X).
Proof.
  intros Hinj. remember (size X) as n eqn:Hn. revert X Hn.
  induction n as [| n IH]; intros X Hn index.
  - exists 0%nat. split; [lia |]. symmetry in Hn. apply size_empty_inv in Hn.
    rewrite Z.add_0_r. set_solver.
  - destruct (decide (name_of index ∈ X)) as [Hin | Hout].
    + destruct (IH (X ∖ {[name_of index]})) with (index := (index + 1)%Z) as (k & Hk & Hfresh).
      { assert (Hs : size X = S (size (X ∖ {[name_of index]}))).
        { rewrite (union_difference_L {[name_of index]} X) at 1 by set_solver.
          rewrite size_union by set_solver. now rewrite size_singleton. }
        lia. }
      exists (S k). split; [lia |].
      replace (index + Z.of_nat (S k))%Z with (index + 1 + Z.of_nat k)%Z by lia.
      intros Hc. apply Hfresh. apply elem_of_difference. split; [exact Hc |].
      intros Heq. apply elem_of_singleton in Heq. apply Hinj in Heq. lia.
    + exists 0%nat. split; [lia |]. now rewrite Z.add_0_r.
Qed.

Lemma unique_name_loop_spec (name_of : Z -> string) (taken : string -> bool) :
  forall (k : nat) (fuel : nat) (index : Z),
    (k < fuel)%nat ->
    is_int (index + Z.of_nat k + 1) -> (- 2 ^ 31 <= index)%Z ->
    taken (name_of (index + Z.of_nat k)%Z) = false ->
    (forall j, (j < k)%nat -> taken (name_of (index + Z.of_nat j)%Z) = true) ->
    unique_name_loop name_of taken fuel index
    = Some (name_of (index + Z.of_nat k)%Z, (index + Z.of_nat k + 1)%Z).
Proof.
  induction k as [| k IH]; intros fuel index Hfuel Hint Hlo Hfree Htaken;
    (destruct fuel as [| fuel]; [lia |]); simpl.
  - rewrite Z.add_0_r in *. unfold int_of. rewrite decide_True by exact Hint.
    cbn [mbind option_bind]. now rewrite Hfree.
  - unfold int_of. rewrite decide_True by (unfold is_int in *; lia).
    cbn [mbind option_bind].
    assert (H0t : taken (name_of index) = true)
      by (rewrite <- (Z.add_0_r index); apply (Htaken 0%nat); lia).
    rewrite H0t.
    rewrite (IH fuel (index + 1)%Z).
    + f_equal. f_equal; [f_equal |]; lia.
    + lia.
    + replace (index + 1 + Z.of_nat k + 1)%Z with (index + Z.of_nat (S k) + 1)%Z by lia.
      exact Hint.
    + lia.
    + replace (index + 1 + Z.of_nat k)%Z with (index + Z.of_nat (S k))%Z by lia. exact Hfree.
    + intros j Hj.
      replace (index + 1 + Z.of_nat j)%Z with (index + Z.of_nat (S j))%Z by lia.
      apply Htaken. lia.
Qed.

Lemma least_index (P : nat -> bool) (k : nat) :
  P k = true ->
  exists m, (m <= k)%nat /\ P m = true /\ forall j, (j < m)%nat -> P j = false.
Proof.
  assert (H : forall n, (forall j, (j < n)%nat -> P j = false)
                        \/ exists m, (m < n)%nat /\ P m = true
                                     /\ forall j, (j < m)%nat -> P j = false).
  { induction n as [| n [IH | (m & Hm & Hp & Hl)]].
    - left. intros j Hj. lia.
    - destruct (P n) eqn:E.
      + right. exists n. split; [lia |]. now split.
      + left. intros j Hj. destruct (decide (j = n)) as [-> |]; [exact E | apply IH; lia].
    - right. exists m. split; [lia |]. now split. }
  intros Hk. destruct (H (S k)) as [Hnone | (m & Hm & Hp & Hl)].
  - rewrite Hnone in Hk by lia. discriminate.
  - exists m. split; [lia |]. now split.
Qed.

Lemma unique_name_loop_fresh (name_of : Z -> string) (X : gset string) (index : Z) :
  (forall a b, name_of a = name_of b -> a = b) ->
  (- 2 ^ 31 <= index)%Z ->
  is_int (index + Z.of_nat (size X) + 1) ->
  exists k : nat,
    (k <= size X)%nat
    /\ (name_of (index + Z.of_nat k)%Z ∉ X)
    /\ (forall j, (j < k)%nat -> name_of (index + Z.of_nat j)%Z ∈ X)
    /\ forall fuel, (size X < fuel)%nat ->
         unique_name_loop name_of (fun name => bool_decide (name ∈ X)) fuel index
         = Some (name_of (index + Z.of_nat k)%Z, (index + Z.of_nat k + 1)%Z).
Proof.
  intros Hinj Hlo Hint.
  destruct (fresh_within name_of X Hinj index) as (k0 & Hk0 & Hfresh0).
  destruct (least_index
              (fun k => negb (bool_decide (name_of (index + Z.of_nat k)%Z ∈ X))) k0)
    as (k & Hk & Hfresh & Hleast).
  { now rewrite bool_decide_eq_false_2. }
  apply negb_true_iff, bool_decide_eq_false in Hfresh.
  exists k. split; [lia |]. split; [exact Hfresh |].
  assert (Htaken : forall j, (j < k)%nat -> name_of (index + Z.of_nat j)%Z ∈ X).
  { intros j Hj. specialize (Hleast j Hj).
    apply negb_false_iff, bool_decide_eq_true in Hleast. exact Hleast. }
  split; [exact Htaken |].
  intros fuel Hfuel.
  apply unique_name_loop_spec.
  - lia.
  - unfold is_int in *. lia.
  - exact Hlo.
  - now apply bool_decide_eq_false_2.
  - intros j Hj. apply bool_decide_eq_true_2. now apply Htaken.
Qed.

Lemma unique_name_loop_ext (name_of : Z -> string) (taken taken' : string -> bool) :
  (forall s, taken s = taken' s) ->
  forall fuel index,
    unique_name_loop name_of taken fuel index = unique_name_loop name_of taken' fuel index.
Proof.
  intros Hext. induction fuel as [| fuel IH]; intros index; simpl; [reflexivity |].
  destruct (int_of (index + 1)) as [i |]; cbn [mbind option_bind]; [| reflexivity].
  rewrite Hext. destruct (taken' _); [apply IH | reflexivity].
Qed.

Lemma net_name_inj (a b : Z) : net_name a = net_name b -> a = b.
Proof. unfold net_name. intros H. apply string_app_inj in H. now apply (inj pretty). Qed.

Lemma inst_name_inj (base_name : string) (underscore : bool) (a b : Z) :
  inst_name base_name underscore a = inst_name base_name underscore b -> a = b.
Proof.
  unfold inst_name. destruct underscore; intros H.
  - apply string_app_inj in H. apply (string_app_inj "_") in H. now apply (inj pretty).
  - apply string_app_inj in H. now apply (inj pretty).
Qed.

(** X24. [makeUniqueNetName] terminates, within as many tests as
    there are nets plus one, and returns the name ["net<k>"] of the first
    index [k] from the counter on that no net has; the counter is then
    [k + 1]. (The counter is taken to stay an [int].) *)
Theorem makeUniqueNetName_fresh (r : Resizer) (unique_net_index_ : Z) :
  (- 2 ^ 31 <= unique_net_index_)%Z ->
  is_int (unique_net_index_ + Z.of_nat (size (db_nets (netlist r))) + 1) ->
  exists k : nat,
    (k <= size (db_nets (netlist r)))%nat
    /\ db_nets (netlist r) !! net_name (unique_net_index_ + Z.of_nat k) = None
    /\ (forall j, (j < k)%nat ->
          is_Some (db_nets (netlist r) !! net_name (unique_net_index_ + Z.of_nat j)))
    /\ forall fuel, (size (db_nets (netlist r)) < fuel)%nat ->
         makeUniqueNetName r fuel unique_net_index_
         = Some (net_name (unique_net_index_ + Z.of_nat k),
                 (unique_net_index_ + Z.of_nat k + 1)%Z).
Proof.
  intros Hlo Hint.
  destruct (unique_name_loop_fresh net_name (dom (db_nets (netlist r))) unique_net_index_)
    as (k & Hk & Hfresh & Htaken & Hloop).
  - apply net_name_inj.
  - exact Hlo.
  - now rewrite size_dom.
  - rewrite size_dom in Hk, Hloop.
    exists k. split; [exact Hk |].
    split; [now apply not_elem_of_dom |].
    split; [intros j Hj; apply elem_of_dom; now apply Htaken |].
    intros fuel Hfuel. unfold makeUniqueNetName.
    rewrite <- (Hloop fuel Hfuel). apply unique_name_loop_ext.
    intros s. apply bool_decide_ext. symmetry. apply elem_of_dom.
Qed.

(** X25. [makeUniqueInstName] terminates, within as many tests as
    there are instances plus one, and returns the name, base name and index
    with or without an underscore between them, of the first index from the
    counter on that no instance has; the counter is then one more. (The
    counter is taken to stay an [int].) *)
Theorem makeUniqueInstName_fresh (r : Resizer) (base_name : string) (underscore : bool)
    (unique_inst_index_ : Z) :
  (- 2 ^ 31 <= unique_inst_index_)%Z ->
  is_int (unique_inst_index_ + Z.of_nat (size (db_insts (netlist r))) + 1) ->
  exists k : nat,
    (k <= size (db_insts (netlist r)))%nat
    /\ db_insts (netlist r)
       !! inst_name base_name underscore (unique_inst_index_ + Z.of_nat k) = None
    /\ (forall j, (j < k)%nat ->
          is_Some (db_insts (netlist r)
                   !! inst_name base_name underscore (unique_inst_index_ + Z.of_nat j)))
    /\ forall fuel, (size (db_insts (netlist r)) < fuel)%nat ->
         makeUniqueInstName r base_name underscore fuel unique_inst_index_
         = Some (inst_name base_name underscore (unique_inst_index_ + Z.of_nat k),
                 (unique_inst_index_ + Z.of_nat k + 1)%Z).
Proof.
  intros Hlo Hint.
  destruct (unique_name_loop_fresh (inst_name base_name underscore)
              (dom (db_insts (netlist r))) unique_inst_index_)
    as (k & Hk & Hfresh & Htaken & Hloop).
  - apply inst_name_inj.
  - exact Hlo.
  - now rewrite size_dom.
  - rewrite size_dom in Hk, Hloop.
    exists k. split; [exact Hk |].
    split; [now apply not_elem_of_dom |].
    split; [intros j Hj; apply elem_of_dom; now apply Htaken |].
    intros fuel Hfuel. unfold makeUniqueInstName.
    rewrite <- (Hloop fuel Hfuel). apply unique_name_loop_ext.
    intros s. apply bool_decide_ext. symmetry. apply elem_of_dom.
Qed.

(** ** Dead logic *)

Lemma continues_refl m : continues m m.
Proof. split; [reflexivity |]. intros x. tauto. Qed.

Lemma continues_trans m1 m2 m3 : continues m1 m2 -> continues m2 m3 -> continues m1 m3.
Proof.
  intros [S1 Q1] [S2 Q2]. split; [set_solver |].
  intros x. rewrite Q2, Q1.
  destruct (decide (x ∈ kept_instances m2)); set_solver.
Qed.

Lemma keepInst_kept inst m :
  kept_instances (keepInst inst m) = {[ inst ]} ∪ kept_instances m.
Proof. unfold keepInst. destruct (decide _); simpl; set_solver. Qed.

Lemma keepInst_continues inst m : continues m (keepInst inst m).
Proof.
  unfold keepInst. destruct (decide _) as [Hin | Hout]; [apply continues_refl |].
  split; simpl; [set_solver |].
  intros x. rewrite elem_of_cons. set_solver.
Qed.

Lemma keepDrivers_kept drivers : forall m,
  kept_instances (keepDrivers drivers m)
  = list_to_set (instance_of <$> drivers) ∪ kept_instances m.
Proof.
  unfold keepDrivers.
  induction drivers as [| p drivers IH]; intros m; simpl; [set_solver |].
  rewrite IH, keepInst_kept. set_solver.
Qed.

Lemma keepDrivers_continues drivers : forall m, continues m (keepDrivers drivers m).
Proof.
  unfold keepDrivers.
  induction drivers as [| p drivers IH]; intros m; simpl; [apply continues_refl |].
  eapply continues_trans; [apply keepInst_continues | apply IH].
Qed.

Lemma keepDrivers_fold {A} (f : A -> list Pin) (l : list A) : forall m,
  fold_left (fun m a => keepDrivers (f a) m) l m = keepDrivers (l ≫= f) m.
Proof.
  induction l as [| a l IH]; intros m; simpl; [reflexivity |].
  rewrite IH. unfold keepDrivers. now rewrite fold_left_app.
Qed.

Lemma turns_left_keepInst U inst m :
  inst ∈ U -> turns_left U (keepInst inst m) = turns_left U m.
Proof.
  intros HU. unfold turns_left, keepInst.
  destruct (decide _) as [Hin | Hout]; [reflexivity |]. simpl.
  assert (E : U ∖ kept_instances m = {[ inst ]} ∪ U ∖ ({[ inst ]} ∪ kept_instances m)).
  { apply set_eq. intros x. destruct (decide (x = inst)); set_solver. }
  rewrite E.
  rewrite (size_union (C := gset (option Instance)) {[ inst ]}
             (U ∖ ({[ inst ]} ∪ kept_instances m))) by set_solver.
  rewrite size_singleton. lia.
Qed.

Lemma turns_left_keepDrivers U drivers : forall m,
  (forall p, p ∈ drivers -> instance_of p ∈ U) ->
  turns_left U (keepDrivers drivers m) = turns_left U m.
Proof.
  unfold keepDrivers.
  induction drivers as [| p drivers IH]; intros m HU; simpl; [reflexivity |].
  rewrite IH by (intros q Hq; apply HU; now right).
  apply turns_left_keepInst, HU. now left.
Qed.

Section DeadLogicFacts.
Variable net_drivers : Net -> list Pin.
Variable pin_drivers : Pin -> list Pin.
Variable unused : Netlist -> Net -> bool.
Variable r : Resizer.

Lemma keep_port_drivers_spec m :
  continues m (keep_port_drivers net_drivers r m)
  /\ forall x, x ∈ kept_instances (keep_port_drivers net_drivers r m) <->
       x ∈ kept_instances m
       \/ exists port net p, bterm_net (netlist r) !! port = Some net
                             /\ p ∈ net_drivers net /\ x = instance_of p.
Proof.
  unfold keep_port_drivers. rewrite keepDrivers_fold.
  split; [apply keepDrivers_continues |].
  intros x. rewrite keepDrivers_kept, elem_of_union, elem_of_list_to_set, list_elem_of_fmap.
  split.
  - intros [(p & -> & Hp) | Hx]; [| now left]. right.
    apply list_elem_of_bind in Hp as ([port net] & Hp & Hkv).
    apply elem_of_map_to_list in Hkv. now exists port, net, p.
  - intros [Hx | (port & net & p & Hl & Hp & ->)]; [now right |]. left.
    exists p. split; [reflexivity |].
    apply list_elem_of_bind. exists (port, net). split; [exact Hp |].
    now apply elem_of_map_to_list.
Qed.

Lemma keep_dontTouch_nets_spec inst pins : forall m m',
  keep_dontTouch_nets r inst pins m = Some m' ->
  continues m m'
  /\ (forall x, x ∈ kept_instances m' ->
        x ∈ kept_instances m
        \/ x = Some inst
           /\ exists q net db_net, q ∈ pins /\ iterm_net (netlist r) !! (inst, q) = Some net
                /\ db_nets (netlist r) !! net = Some db_net /\ net_doNotTouch db_net = true)
  /\ (forall q net db_net, q ∈ pins -> iterm_net (netlist r) !! (inst, q) = Some net ->
        db_nets (netlist r) !! net = Some db_net -> net_doNotTouch db_net = true ->
        Some inst ∈ kept_instances m').
Proof.
  induction pins as [| q pins IH]; intros m m' H; simpl in H.
  - injection H as <-. split; [apply continues_refl |]. split; [now left |].
    intros q net db_net Hq. inversion Hq.
  - destruct (iterm_net (netlist r) !! (inst, q)) as [net |] eqn:En.
    + destruct (db_nets (netlist r) !! net) as [db_net |] eqn:Ed; [| discriminate].
      apply IH in H as (Hc & Hs & Hk).
      assert (Hstep : continues m (if net_doNotTouch db_net then keepInst (Some inst) m else m)).
      { destruct (net_doNotTouch db_net); [apply keepInst_continues | apply continues_refl]. }
      split; [eapply continues_trans; eassumption |]. split.
      * intros x Hx. destruct (Hs x Hx) as [Hin | (-> & q' & net' & d' & Hq' & H1 & H2 & H3)].
        -- destruct (net_doNotTouch db_net) eqn:Edt; [| now left].
           rewrite keepInst_kept in Hin. apply elem_of_union in Hin as [Hin | Hin]; [| now left].
           apply elem_of_singleton in Hin as ->. right. split; [reflexivity |].
           exists q, net, db_net. split; [now left |]. auto.
        -- right. split; [reflexivity |]. exists q', net', d'. split; [now right |]. auto.
      * intros q' net' d' Hq' H1 H2 H3.
        apply elem_of_cons in Hq' as [-> | Hq']; [| now apply (Hk q' net' d')].
        rewrite En in H1. injection H1 as <-. rewrite Ed in H2. injection H2 as <-.
        destruct Hc as [Hsub _]. apply Hsub. rewrite H3, keepInst_kept. set_solver.
    + apply IH in H as (Hc & Hs & Hk). split; [exact Hc |]. split.
      * intros x Hx. destruct (Hs x Hx) as [Hin | (-> & q' & net' & d' & Hq' & H1 & H2 & H3)];
          [now left |].
        right. split; [reflexivity |]. exists q', net', d'. split; [now right |]. auto.
      * intros q' net' d' Hq' H1 H2 H3.
        apply elem_of_cons in Hq' as [-> | Hq']; [congruence |]. now apply (Hk q' net' d').
Qed.

Lemma keep_leaf_seeds_spec insts : forall m m',
  keep_leaf_seeds r insts m = Some m' ->
  continues m m'
  /\ (forall x, x ∈ kept_instances m' ->
        x ∈ kept_instances m \/ exists i, x = Some i /\ i ∈ insts /\ leaf_seed r i)
  /\ (forall i, i ∈ insts -> leaf_seed r i -> Some i ∈ kept_instances m').
Proof.
  induction insts as [| inst insts IH]; intros m m' H; simpl in H.
  - injection H as <-. split; [apply continues_refl |]. split; [now left |].
    intros i Hi. inversion Hi.
  - destruct (negb (isLogicStdCell r inst) || dontTouch r inst) eqn:Eseed.
    + apply IH in H as (Hc & Hs & Hk).
      assert (Hleaf : leaf_seed r inst).
      { apply orb_true_iff in Eseed as [E | E]; [left | right; left; exact E].
        now apply negb_true_iff in E. }
      split; [eapply continues_trans; [apply keepInst_continues | exact Hc] |]. split.
      * intros x Hx. destruct (Hs x Hx) as [Hin | (i & -> & Hi & Hl)].
        -- rewrite keepInst_kept in Hin. apply elem_of_union in Hin as [Hin | Hin]; [| now left].
           apply elem_of_singleton in Hin as ->. right. exists inst. split; [reflexivity |].
           split; [now left | exact Hleaf].
        -- right. exists i. split; [reflexivity |]. split; [now right | exact Hl].
      * intros i Hi Hl. apply elem_of_cons in Hi as [-> | Hi]; [| now apply Hk].
        destruct Hc as [Hsub _]. apply Hsub. rewrite keepInst_kept. set_solver.
    + apply orb_false_iff in Eseed as [E1 E2]. apply negb_false_iff in E1.
      destruct (instance_pins r inst) as [pins |] eqn:Ep; [| discriminate].
      destruct (keep_dontTouch_nets r inst pins m) as [m1 |] eqn:E; [| discriminate].
      apply keep_dontTouch_nets_spec in E as (Hc1 & Hs1 & Hk1).
      apply IH in H as (Hc & Hs & Hk).
      split; [eapply continues_trans; eassumption |]. split.
      * intros x Hx. destruct (Hs x Hx) as [Hin | (i & -> & Hi & Hl)].
        -- destruct (Hs1 x Hin) as [Hin1 | (-> & q & net & d & Hq & H1 & H2 & H3)]; [now left |].
           right. exists inst. split; [reflexivity |]. split; [now left |].
           right. right. now exists pins, q, net, d.
        -- right. exists i. split; [reflexivity |]. split; [now right | exact Hl].
      * intros i Hi Hl. apply elem_of_cons in Hi as [-> | Hi]; [| now apply Hk].
        destruct Hc as [Hsub _]. apply Hsub.
        destruct Hl as [Hl | [Hl | (pins' & q & net & d & Hp' & Hq & H1 & H2 & H3)]];
          [congruence | congruence |].
        rewrite Ep in Hp'. injection Hp' as <-. now apply (Hk1 q net d).
Qed.

Lemma mark_spec fuel : forall m K,
  mark pin_drivers r fuel m = Some K ->
  (forall x, x ∈ queue m -> x ∈ kept_instances m) ->
  (forall x, x ∈ kept_instances m -> live net_drivers pin_drivers r x) ->
  (forall x, x ∈ kept_instances m -> x ∉ queue m ->
     drivers_kept pin_drivers r (kept_instances m) x) ->
  kept_instances m ⊆ K
  /\ (forall x, x ∈ K -> live net_drivers pin_drivers r x)
  /\ (forall x, x ∈ K -> drivers_kept pin_drivers r K x).
Proof.
  induction fuel as [| fuel IH]; intros m K H Hq Hlive Hclosed; simpl in H.
  - destruct (queue m) as [| inst rest] eqn:Eq; [| discriminate].
    injection H as <-. split; [reflexivity |]. split; [exact Hlive |].
    intros x Hx. apply Hclosed; [exact Hx |]. apply not_elem_of_nil.
  - destruct (queue m) as [| inst rest] eqn:Eq.
    { injection H as <-. split; [reflexivity |]. split; [exact Hlive |].
      intros x Hx. apply Hclosed; [exact Hx |]. apply not_elem_of_nil. }
    destruct (pins_of r inst) as [pins |] eqn:Ep; [| discriminate].
    rewrite keepDrivers_fold in H.
    set (m1 := {| queue := rest; kept_instances := kept_instances m |}) in *.
    pose proof (keepDrivers_continues (pins ≫= pin_drivers) m1) as [Hsub Hqueue].
    pose proof (keepDrivers_kept (pins ≫= pin_drivers) m1) as Hkept.
    set (m2 := keepDrivers (pins ≫= pin_drivers) m1) in *.
    assert (Hinst : inst ∈ kept_instances m) by (apply Hq; now left).
    assert (Hnew : forall x, x ∈ kept_instances m2 ->
              x ∈ kept_instances m
              \/ exists pin p, pin ∈ pins /\ p ∈ pin_drivers pin /\ x = instance_of p).
    { intros x Hx. rewrite Hkept in Hx. apply elem_of_union in Hx as [Hx | Hx]; [| now left].
      apply elem_of_list_to_set, list_elem_of_fmap in Hx as (p & -> & Hp).
      apply list_elem_of_bind in Hp as (pin & Hp & Hpin). right. now exists pin, p. }
    apply IH in H as (HK & HliveK & HclosedK).
    + split; [| split; assumption]. simpl in Hsub. set_solver.
    + intros x Hx. apply Hqueue in Hx as [Hx | [Hx _]]; [| exact Hx].
      apply Hsub. simpl. apply Hq. now right.
    + intros x Hx. destruct (Hnew x Hx) as [Hin | (pin & p & Hpin & Hp & ->)];
        [now apply Hlive |].
      eapply live_driver; [apply Hlive; exact Hinst | exact Ep | exact Hpin | exact Hp].
    + intros x Hx Hnq. intros pins' pin p Hp' Hpin Hp.
      assert (Hold : x ∈ kept_instances m).
      { destruct (decide (x ∈ kept_instances m)) as [Hin | Hout]; [exact Hin |].
        exfalso. apply Hnq, Hqueue. right. split; [exact Hx | exact Hout]. }
      destruct (decide (x = inst)) as [-> | Hne].
      * rewrite Ep in Hp'. injection Hp' as <-.
        rewrite Hkept. apply elem_of_union. left.
        apply elem_of_list_to_set, list_elem_of_fmap. exists p. split; [reflexivity |].
        apply list_elem_of_bind. now exists pin.
      * apply Hsub. simpl. apply (Hclosed x Hold) with (pins := pins') (pin := pin); try assumption.
        intros Hin. apply elem_of_cons in Hin as [Hin | Hin]; [congruence |].
        apply Hnq, Hqueue. now left.
Qed.

Lemma mark_terminates U fuel : forall m,
  (turns_left U m <= fuel)%nat ->
  (forall x, x ∈ queue m -> x ∈ U) ->
  (forall x, x ∈ U -> is_Some (pins_of r x)) ->
  (forall pin p, p ∈ pin_drivers pin -> instance_of p ∈ U) ->
  is_Some (mark pin_drivers r fuel m).
Proof.
  induction fuel as [| fuel IH]; intros m Hfuel Hq Hpins Hdrv; simpl.
  - destruct (queue m) as [| inst rest] eqn:Eq; [eauto |].
    unfold turns_left in Hfuel. rewrite Eq in Hfuel. simpl in Hfuel. lia.
  - destruct (queue m) as [| inst rest] eqn:Eq; [eauto |].
    destruct (Hpins inst) as [pins Ep]; [apply Hq; now left |].
    rewrite Ep, keepDrivers_fold.
    set (m1 := {| queue := rest; kept_instances := kept_instances m |}).
    assert (HU : forall p, p ∈ pins ≫= pin_drivers -> instance_of p ∈ U).
    { intros p Hp. apply list_elem_of_bind in Hp as (pin & Hp & _). now apply (Hdrv pin). }
    apply IH; [| | exact Hpins | exact Hdrv].
    + rewrite turns_left_keepDrivers by exact HU.
      unfold turns_left in *. rewrite Eq in Hfuel. simpl in *. lia.
    + intros x Hx. apply keepDrivers_continues in Hx as [Hx | [Hx Hnew]].
      * apply Hq. now right.
      * rewrite keepDrivers_kept in Hx. apply elem_of_union in Hx as [Hx | Hx]; [| contradiction].
        apply elem_of_list_to_set, list_elem_of_fmap in Hx as (p & -> & Hp). now apply HU.
Qed.

Lemma live_kept (K : gset (option Instance)) :
  (forall port net p, bterm_net (netlist r) !! port = Some net -> p ∈ net_drivers net ->
     instance_of p ∈ K) ->
  (forall i, is_Some (db_insts (netlist r) !! i) -> leaf_seed r i -> Some i ∈ K) ->
  (forall x, x ∈ K -> drivers_kept pin_drivers r K x) ->
  forall x, live net_drivers pin_drivers r x -> x ∈ K.
Proof.
  intros Hport Hleaf Hclosed x Hx.
  induction Hx as [port net p Hl Hp | i Hi Hs | j pins pin p Hj IH Hpins Hpin Hp].
  - now apply (Hport port net).
  - now apply Hleaf.
  - now apply (Hclosed j IH pins pin).
Qed.

Lemma netlist_edit f (s : Resizer) : netlist (edit f s) = f (netlist s).
Proof. reflexivity. Qed.

Lemma delete_unkept_spec kept insts : forall c s c' s',
  delete_unkept kept insts c s = (c', s') ->
  NoDup insts ->
  (forall i, i ∈ insts -> is_Some (db_insts (netlist s) !! i)) ->
  (0 <= c)%Z -> (c + Z.of_nat (length insts) < 2 ^ 31)%Z ->
  db_nets (netlist s') = db_nets (netlist s)
  /\ (forall i, db_insts (netlist s') !! i
               = if decide (i ∈ insts /\ Some i ∉ kept) then None
                 else db_insts (netlist s) !! i)
  /\ c' = (c + Z.of_nat (size (dom (db_insts (netlist s)) ∖ dom (db_insts (netlist s')))))%Z.
Proof.
  induction insts as [| inst insts IH]; intros c s c' s' H Hnd Hin Hc Hlen; simpl in H.
  - injection H as <- <-. split; [reflexivity |]. split.
    + intros i. destruct (decide _) as [[Hi _] | _]; [inversion Hi | reflexivity].
    + replace (dom (db_insts (netlist s)) ∖ dom (db_insts (netlist s))) with (∅ : gset Instance)
        by set_solver.
      rewrite size_empty. lia.
  - apply NoDup_cons in Hnd as [Hfresh Hnd]. simpl length in Hlen.
    destruct (decide (Some inst ∈ kept)) as [Hk | Hk].
    + apply IH in H as (Hnets & Hlook & Hcount); [| exact Hnd | | lia | lia].
      * split; [exact Hnets |]. split; [| exact Hcount].
        intros i. rewrite Hlook.
        destruct (decide (i ∈ insts /\ Some i ∉ kept)) as [[Hi Hn] | Hn].
        -- rewrite decide_True; [reflexivity |]. split; [now right | exact Hn].
        -- rewrite decide_False; [reflexivity |].
           intros [Hi Hn']. apply elem_of_cons in Hi as [-> | Hi]; [contradiction | tauto].
      * intros i Hi. apply Hin. now right.
    + assert (Hinst : is_Some (db_insts (netlist s) !! inst)) by (apply Hin; now left).
      rewrite to_int_id in H by (unfold is_int; lia).
      apply IH in H as (Hnets & Hlook & Hcount); [| exact Hnd | | lia | lia].
      * rewrite netlist_edit in Hnets, Hlook, Hcount.
        split; [exact Hnets |].
        assert (Hlook' : forall i, db_insts (netlist s') !! i
                  = if decide (i ∈ inst :: insts /\ Some i ∉ kept) then None
                    else db_insts (netlist s) !! i).
        { intros i. rewrite Hlook. simpl.
          destruct (decide (i ∈ insts /\ Some i ∉ kept)) as [[Hi Hn] | Hn].
          - rewrite decide_True; [reflexivity |]. split; [now right | exact Hn].
          - destruct (decide (i = inst)) as [-> | Hne].
            + rewrite lookup_delete_eq, decide_True; [reflexivity |]. split; [now left | exact Hk].
            + rewrite lookup_delete_ne by congruence.
              rewrite decide_False; [reflexivity |].
              intros [Hi Hn']. apply elem_of_cons in Hi as [-> | Hi]; [congruence | tauto]. }
        split; [exact Hlook' |].
        rewrite Hcount. simpl. rewrite dom_delete_L.
        assert (Hgone : inst ∉ dom (db_insts (netlist s'))).
        { rewrite elem_of_dom, Hlook', decide_True; [now intros [? ?] |].
          split; [now left | exact Hk]. }
        assert (Hsub : dom (db_insts (netlist s')) ⊆ dom (db_insts (netlist s))).
        { intros i Hi. apply elem_of_dom in Hi. rewrite Hlook' in Hi. apply elem_of_dom.
          now destruct (decide _); [destruct Hi |]. }
        assert (E : dom (db_insts (netlist s)) ∖ dom (db_insts (netlist s'))
                    = {[ inst ]} ∪ (dom (db_insts (netlist s)) ∖ {[ inst ]})
                                     ∖ dom (db_insts (netlist s'))).
        { apply set_eq. intros i. apply elem_of_dom in Hinst.
          destruct (decide (i = inst)); set_solver. }
        rewrite E.
        rewrite (size_union (C := gset Instance) {[ inst ]}) by set_solver.
        rewrite size_singleton. lia.
      * intros i Hi. rewrite netlist_edit. simpl.
        rewrite lookup_delete_ne by (intros ->; contradiction). apply Hin. now right.
Qed.

Lemma delete_nets_spec nets : forall c s c' s',
  delete_nets nets c s = (c', s') ->
  db_insts (netlist s') = db_insts (netlist s)
  /\ forall x, db_nets (netlist s') !! x
               = if decide (x ∈ nets) then None else db_nets (netlist s) !! x.
Proof.
  induction nets as [| net nets IH]; intros c s c' s' H; simpl in H.
  - injection H as <- <-. split; [reflexivity |]. intros x.
    now rewrite decide_False by apply not_elem_of_nil.
  - apply IH in H as [Hi Hn]. rewrite netlist_edit in Hi, Hn. split; [exact Hi |].
    intros x. rewrite Hn. simpl.
    destruct (decide (x ∈ nets)) as [Hx | Hx].
    + rewrite decide_True; [reflexivity | now right].
    + destruct (decide (x = net)) as [-> | Hne].
      * rewrite lookup_delete_eq, decide_True; [reflexivity | now left].
      * rewrite lookup_delete_ne by congruence.
        rewrite decide_False; [reflexivity |].
        intros Hin. apply elem_of_cons in Hin as [-> | Hin]; [congruence | contradiction].
Qed.

Lemma seeds_spec m :
  keep_leaf_seeds r (leafInstances r)
    (keep_port_drivers net_drivers r {| queue := []; kept_instances := ∅ |}) = Some m ->
  (forall x, x ∈ queue m <-> x ∈ kept_instances m)
  /\ (forall x, x ∈ kept_instances m -> live net_drivers pin_drivers r x)
  /\ (forall port net p, bterm_net (netlist r) !! port = Some net -> p ∈ net_drivers net ->
        instance_of p ∈ kept_instances m)
  /\ (forall i, is_Some (db_insts (netlist r) !! i) -> leaf_seed r i ->
        Some i ∈ kept_instances m).
Proof.
  intros H.
  set (m0 := {| queue := []; kept_instances := ∅ |}) in *.
  destruct (keep_port_drivers_spec m0) as [Hc0 Hk0].
  apply keep_leaf_seeds_spec in H as (Hc & Hs & Hk).
  pose proof (continues_trans _ _ _ Hc0 Hc) as [_ Hq].
  assert (Hleaf : forall i, i ∈ leafInstances r <-> is_Some (db_insts (netlist r) !! i)).
  { intros i. unfold leafInstances. rewrite list_elem_of_fmap. split.
    - intros ([i' di] & -> & Hin). apply elem_of_map_to_list in Hin. simpl. eauto.
    - intros [di Hdi]. exists (i, di). split; [reflexivity |]. now apply elem_of_map_to_list. }
  split; [| split; [| split]].
  - intros x. rewrite Hq. simpl. set_solver.
  - intros x Hx. destruct (Hs x Hx) as [Hin | (i & -> & Hi & Hl)].
    + apply Hk0 in Hin as [Hin | (port & net & p & Hl & Hp & ->)]; [simpl in Hin; set_solver |].
      now apply (live_port _ _ _ port net).
    + apply live_leaf; [now apply Hleaf | exact Hl].
  - intros port net p Hl Hp. destruct Hc as [Hsub _]. apply Hsub, Hk0. right.
    now exists port, net, p.
  - intros i Hi Hl. apply Hk; [now apply Hleaf | exact Hl].
Qed.

(** X26. [eliminateDeadLogic] deletes the dead instances and no other: an
    instance is there afterwards, as it was, if and only if it was there and
    is live, that is, it drives the net of a top-level port, or is not a
    logic cell, or is dont-touch, or has a pin on a dont-touch net, or drives
    a pin of a live instance. The number of instances it reports is the
    number of instances that are gone. It makes no net and deletes no
    dont-touch net; without [clean_nets] it deletes no net and reports 0
    nets. (The number of instances is taken to fit an [int].) *)
Theorem eliminateDeadLogic_removes_dead fuel clean_nets n_inst n_net r' :
  eliminateDeadLogic net_drivers pin_drivers unused r fuel clean_nets
  = Some (n_inst, n_net, r') ->
  (Z.of_nat (size (db_insts (netlist r))) < 2 ^ 31)%Z ->
  (forall i di, db_insts (netlist r') !! i = Some di <->
     db_insts (netlist r) !! i = Some di /\ live net_drivers pin_drivers r (Some i))
  /\ n_inst = Z.of_nat (size (dom (db_insts (netlist r)) ∖ dom (db_insts (netlist r'))))
  /\ (forall x db_net, db_nets (netlist r') !! x = Some db_net ->
        db_nets (netlist r) !! x = Some db_net)
  /\ (forall x db_net, db_nets (netlist r) !! x = Some db_net ->
        net_doNotTouch db_net = true -> db_nets (netlist r') !! x = Some db_net)
  /\ (clean_nets = false -> db_nets (netlist r') = db_nets (netlist r) /\ n_net = 0%Z).
Proof.
  intros H Hsize. unfold eliminateDeadLogic in H.
  destruct (keep_leaf_seeds r (leafInstances r) _) as [m |] eqn:Eseeds; [| discriminate].
  apply seeds_spec in Eseeds as (Hq & Hlive & Hports & Hleaves).
  destruct (mark pin_drivers r fuel m) as [kept |] eqn:Emark; [| discriminate].
  apply mark_spec in Emark as (Hsub & HliveK & Hclosed);
    [| intros x; apply Hq | exact Hlive | intros x Hx Hnq; now apply Hq in Hx].
  assert (Hkept : forall x, x ∈ kept <-> live net_drivers pin_drivers r x).
  { intros x. split; [apply HliveK |].
    apply live_kept; [| | exact Hclosed].
    - intros port net p Hl Hp. apply Hsub. now apply (Hports port net).
    - intros i Hi Hl. apply Hsub. now apply Hleaves. }
  destruct (delete_unkept kept (leafInstances r) 0 r) as [c1 r1] eqn:Edel.
  apply delete_unkept_spec in Edel as (Hnets1 & Hlook1 & Hc1);
    [| apply NoDup_fst_map_to_list
     | | lia
     | unfold leafInstances; rewrite length_map, length_map_to_list; lia].
  2: { intros i Hi. unfold leafInstances in Hi.
       apply list_elem_of_fmap in Hi as ([i' di] & -> & Hin).
       apply elem_of_map_to_list in Hin. simpl. eauto. }
  assert (Hinsts1 : forall i di, db_insts (netlist r1) !! i = Some di <->
            db_insts (netlist r) !! i = Some di /\ live net_drivers pin_drivers r (Some i)).
  { intros i di. rewrite Hlook1, <- Hkept.
    destruct (decide _) as [[Hi Hn] | Hn].
    - split; [discriminate | tauto].
    - split; [| tauto]. intros Hdi. split; [exact Hdi |].
      destruct (decide (Some i ∈ kept)) as [Hin | Hout]; [exact Hin |].
      exfalso. apply Hn. split; [| exact Hout].
      unfold leafInstances. apply list_elem_of_fmap. exists (i, di).
      split; [reflexivity |]. now apply elem_of_map_to_list. }
  destruct clean_nets.
  - destruct (delete_nets (nets_to_delete unused r1) 0 r1) as [c2 r2] eqn:Enets.
    injection H as <- <- <-.
    apply delete_nets_spec in Enets as [Hi2 Hn2].
    rewrite Hi2. split; [exact Hinsts1 |]. split; [lia |]. split; [| split; [| discriminate]].
    + intros x db_net. rewrite Hn2, Hnets1. now destruct (decide _).
    + intros x db_net Hx Hdt. rewrite Hn2, Hnets1.
      rewrite decide_False; [exact Hx |].
      unfold nets_to_delete. rewrite list_elem_of_fmap.
      intros ([x' d'] & -> & Hin).
      apply list_elem_of_In, filter_In in Hin as [Hin Hf]. apply list_elem_of_In in Hin.
      apply elem_of_map_to_list in Hin. rewrite Hnets1 in Hin. simpl in *.
      rewrite Hin in Hx. injection Hx as ->. rewrite Hdt in Hf.
      now rewrite andb_false_r in Hf.
  - injection H as <- <- <-.
    split; [exact Hinsts1 |]. split; [lia |]. rewrite Hnets1.
    split; [tauto |]. split; [tauto |]. intros _. split; reflexivity.
Qed.

Lemma keep_dontTouch_nets_total U inst pins : forall m,
  Some inst ∈ U ->
  (forall q net, iterm_net (netlist r) !! (inst, q) = Some net ->
     is_Some (db_nets (netlist r) !! net)) ->
  exists m', keep_dontTouch_nets r inst pins m = Some m' /\ turns_left U m' = turns_left U m.
Proof.
  intros m HU Hnets. revert m.
  induction pins as [| q pins IH]; intros m; simpl; [eauto |].
  destruct (iterm_net (netlist r) !! (inst, q)) as [net |] eqn:En; [| apply IH].
  destruct (Hnets q net En) as [db_net ->].
  destruct (IH (if net_doNotTouch db_net then keepInst (Some inst) m else m)) as (m' & -> & Ht).
  exists m'. split; [reflexivity |]. rewrite Ht.
  destruct (net_doNotTouch db_net); [now apply turns_left_keepInst | reflexivity].
Qed.

Lemma keep_leaf_seeds_total U insts : forall m,
  (forall i, i ∈ insts -> Some i ∈ U) ->
  (forall i q net, iterm_net (netlist r) !! (i, q) = Some net ->
     is_Some (db_nets (netlist r) !! net)) ->
  exists m', keep_leaf_seeds r insts m = Some m' /\ turns_left U m' = turns_left U m.
Proof.
  intros m HU Hnets. revert m.
  induction insts as [| inst insts IH]; intros m; simpl; [eauto |].
  assert (HU' : forall i, i ∈ insts -> Some i ∈ U) by (intros i Hi; apply HU; now right).
  assert (Hinst : Some inst ∈ U) by (apply HU; now left).
  destruct (negb (isLogicStdCell r inst) || dontTouch r inst) eqn:Eseed.
  - destruct (IH HU' (keepInst (Some inst) m)) as (m' & -> & Ht).
    exists m'. split; [reflexivity |]. rewrite Ht. now apply turns_left_keepInst.
  - apply orb_false_iff in Eseed as [E1 _]. apply negb_false_iff in E1.
    assert (Hpins : is_Some (instance_pins r inst)).
    { unfold isLogicStdCell in E1. unfold instance_pins.
      destruct (db_insts (netlist r) !! inst) as [di |]; [| discriminate].
      destruct (db_masters (netlist r) !! inst_master di); [eauto | discriminate]. }
    destruct Hpins as [pins ->].
    destruct (keep_dontTouch_nets_total U inst pins m Hinst (Hnets inst)) as (m1 & -> & Ht1).
    destruct (IH HU' m1) as (m' & -> & Ht).
    exists m'. split; [reflexivity |]. now rewrite Ht.
Qed.

(** X27. On a complete netlist [eliminateDeadLogic] returns: the loop over
    the queue pops an instance at most once, so it ends within as many turns
    as there are leaf instances, and one more for the top instance. *)
Theorem eliminateDeadLogic_terminates fuel clean_nets :
  complete net_drivers pin_drivers r ->
  (size (db_insts (netlist r)) < fuel)%nat ->
  is_Some (eliminateDeadLogic net_drivers pin_drivers unused r fuel clean_nets).
Proof.
  intros (Hmasters & Hnets & Hnd & Hpd) Hfuel.
  set (U := list_to_set (None :: (Some <$> leafInstances r)) : gset (option Instance)).
  assert (Hleaf : forall i, Some i ∈ U <-> is_Some (db_insts (netlist r) !! i)).
  { intros i. unfold U. rewrite elem_of_list_to_set, elem_of_cons, list_elem_of_fmap.
    unfold leafInstances. split.
    - intros [Hi | (i' & [= ->] & Hi)]; [discriminate |].
      apply list_elem_of_fmap in Hi as ([i'' di] & -> & Hin).
      apply elem_of_map_to_list in Hin. simpl. eauto.
    - intros [di Hdi]. right. exists i. split; [reflexivity |].
      apply list_elem_of_fmap. exists (i, di). split; [reflexivity |].
      now apply elem_of_map_to_list. }
  assert (Htop : None ∈ U) by (unfold U; set_solver).
  assert (HsizeU : (size U <= S (size (db_insts (netlist r))))%nat).
  { unfold U. rewrite size_list_to_set.
    - simpl. unfold leafInstances. rewrite ?length_fmap, ?length_map, length_map_to_list. lia.
    - apply NoDup_cons. split.
      + rewrite list_elem_of_fmap. now intros (? & ? & _).
      + apply NoDup_fmap; [intros ? ? [= ->]; reflexivity |].
        apply NoDup_fst_map_to_list. }
  assert (Hinst : forall p, (forall i q, p = ITermPin i q -> is_Some (db_insts (netlist r) !! i)) ->
                            instance_of p ∈ U).
  { intros [i q | q] Hp; simpl; [| exact Htop]. apply Hleaf. now apply (Hp i q). }
  set (m00 := {| queue := []; kept_instances := ∅ |}).
  assert (Ht0 : turns_left U (keep_port_drivers net_drivers r m00) = size U).
  { unfold keep_port_drivers. rewrite keepDrivers_fold, turns_left_keepDrivers.
    - unfold turns_left. simpl. f_equal. set_solver.
    - intros p Hp. apply list_elem_of_bind in Hp as ([port net] & Hp & _). apply Hinst.
      intros i q ->. now apply (Hnd net i q). }
  unfold eliminateDeadLogic. fold m00.
  destruct (keep_leaf_seeds_total U (leafInstances r) (keep_port_drivers net_drivers r m00))
    as (m & Eseeds & Ht); [| exact Hnets |].
  { intros i Hi. apply Hleaf. unfold leafInstances in Hi.
    apply list_elem_of_fmap in Hi as ([i' di] & -> & Hin).
    apply elem_of_map_to_list in Hin. simpl. eauto. }
  rewrite Eseeds.
  destruct (seeds_spec m Eseeds) as (Hq & Hlive & _).
  destruct (mark_terminates U fuel m) as [kept ->].
  - rewrite Ht, Ht0. lia.
  - intros x Hx. apply Hq in Hx. apply Hlive in Hx.
    clear - Hx Hinst Hleaf Hnd Hpd.
    induction Hx as [port net p Hl Hp | i Hi Hs | j pins pin p Hj IH Hpins Hpin Hp].
    + apply Hinst. intros i q ->. now apply (Hnd net i q).
    + now apply Hleaf.
    + apply Hinst. intros i q ->. now apply (Hpd pin i q).
  - intros [i |] Hx; simpl; [| eauto].
    apply Hleaf in Hx as [di Hdi]. unfold instance_pins. rewrite Hdi.
    destruct (Hmasters i di Hdi) as [master ->]. simpl. eauto.
  - intros pin p Hp. apply Hinst. intros i q ->. now apply (Hpd pin i q).
  - destruct (delete_unkept kept (leafInstances r) 0 r) as [c1 r1].
    destruct clean_nets; [destruct (delete_nets _ 0 r1) |]; eauto.
Qed.

End DeadLogicFacts.

(** ** What the searches return *)

Lemma narrow_interval (lo hi : Q) :
  lo < hi -> 0 < hi ->
  Qabs (lo - hi) <= fmax lo hi * (1 # 100) ->
  hi - lo <= hi * (1 # 100) /\ hi < 2 * lo.
Proof.
  intros Hlt Hpos H.
  assert (Ea : Qabs (lo - hi) == hi - lo) by (rewrite Qabs_neg; lra).
  destruct (fmax_cases lo hi) as [[Em Hm] | [Em Hm]]; [lra |].
  rewrite Em, Ea in H. split; lra.
Qed.



Section MaxWireLengthFacts.
Variable wireSignalResistance : Corner -> Q.
Variable driveResistance : LibertyCell -> Q.
Variable has_master : LibertyCell -> bool.
Variable bufferWireDelay : LibertyCell -> Q -> Q.

Lemma wire_search_loop_bracket cell fuel : forall s len,
  wire_search_loop bufferWireDelay fuel cell s = Some len ->
  0 <= wire_length1 s -> wire_length1 s < wire_length2 s ->
  (wire_length1 s = 0 \/ splitWireDelayDiff bufferWireDelay (wire_length1 s) cell < 0) ->
  wire_diff1 s = splitWireDelayDiff bufferWireDelay (wire_length2 s) cell ->
  (wire_diff1 s < 0 -> 2 * wire_length1 s <= wire_length2 s) ->
  exists upper,
    0 <= len /\ len < upper
    /\ (len = 0 \/ splitWireDelayDiff bufferWireDelay len cell < 0)
    /\ 0 <= splitWireDelayDiff bufferWireDelay upper cell
    /\ upper - len <= upper * (1 # 100).
Proof.
  induction fuel as [| fuel IH]; intros s len H H0 Hlt Hlo Hd Hj; simpl in H; [discriminate |].
  destruct (wire_search_continues s) eqn:E.
  - assert (Hmid : (wire_length1 s + wire_length2 s) / 2
                   == (wire_length1 s + wire_length2 s) * (1 # 2)) by field.
    apply IH in H; [exact H | | | | |]; unfold wire_search_step;
      (destruct (Qltb (wire_diff1 s) 0) eqn:Ed;
       [apply Qltb_lt in Ed | apply Qltb_ge in Ed]); cbv zeta;
      try match goal with
          | |- context [if Qltb ?x 0 then _ else _] =>
              destruct (Qltb x 0) eqn:E3; [apply Qltb_lt in E3 | apply Qltb_ge in E3]
          end;
      cbn [wire_length1 wire_length2 wire_diff1];
      try reflexivity; try assumption; try lra;
      try (right; rewrite <- Hd; exact Ed); try (right; exact E3).
  - injection H as <-.
    unfold wire_search_continues, tol in E. apply Qltb_ge in E.
    destruct (narrow_interval _ _ Hlt ltac:(lra) E) as [Hw Hn].
    exists (wire_length2 s). split; [exact H0 |]. split; [exact Hlt |]. split; [exact Hlo |].
    split; [| exact Hw].
    rewrite <- Hd. destruct (Qlt_le_dec (wire_diff1 s) 0) as [Hneg | Hge]; [| exact Hge].
    specialize (Hj Hneg). lra.
Qed.

(** X29. For a buffer cell with a positive drive resistance and a corner
    with a positive wire resistance, what [findMaxWireLength] returns is 0 or
    a length at which the wire is faster than its two halves with a buffer
    between them (its delay is below twice the delay of half the wire), and
    there is a length above it, by at most 1% of itself, at which it is not
    faster. It returns only for a cell with a master. *)
Theorem findMaxWireLength_bracket (fuel : nat) (buffer_cell : LibertyCell) (corner : Corner)
    (len : Q) :
  findMaxWireLength wireSignalResistance driveResistance has_master bufferWireDelay
    fuel buffer_cell corner = Some len ->
  0 < driveResistance buffer_cell -> 0 < wireSignalResistance corner ->
  has_master buffer_cell = true
  /\ exists upper,
       0 <= len /\ len < upper
       /\ (len = 0
           \/ bufferWireDelay buffer_cell len < bufferWireDelay buffer_cell (len / 2) * 2)
       /\ bufferWireDelay buffer_cell (upper / 2) * 2 <= bufferWireDelay buffer_cell upper
       /\ upper - len <= upper * (1 # 100).
Proof.
  intros H Hr Hw. unfold findMaxWireLength in H.
  destruct (has_master buffer_cell); [| discriminate]. split; [reflexivity |].
  cbv zeta in H.
  assert (Hpos : 0 < driveResistance buffer_cell / wireSignalResistance corner).
  { apply Qlt_shift_div_l; [exact Hw | lra]. }
  apply wire_search_loop_bracket in H as (upper & Hc & Hlt & Hlo & Hhi & Hwd).
  - exists upper. unfold splitWireDelayDiff in Hlo, Hhi.
    split; [exact Hc |]. split; [exact Hlt |]. split; [| split; [lra | exact Hwd]].
    destruct Hlo as [Hlo | Hlo]; [now left | right; lra].
  - simpl. lra.
  - simpl. exact Hpos.
  - now left.
  - reflexivity.
  - simpl. intros _. lra.
Qed.

Lemma fmin_cases a b : (fmin a b = b /\ b < a) \/ (fmin a b = a /\ a <= b).
Proof.
  unfold fmin. destruct (Qltb b a) eqn:E.
  - left. split; [reflexivity | now apply Qltb_lt].
  - right. split; [reflexivity | now apply Qltb_ge].
Qed.

Lemma buffer_lengths_spec INF fuel corner buffer_cells : forall m m',
  buffer_lengths wireSignalResistance driveResistance has_master bufferWireDelay
    INF fuel corner buffer_cells m = Some m' ->
  (is_Some m' <-> is_Some m \/ buffer_cells <> [])
  /\ default INF m' <= default INF m
  /\ (forall b, b ∈ buffer_cells ->
        exists len, findMaxWireLength wireSignalResistance driveResistance has_master
                      bufferWireDelay fuel b corner = Some len
                    /\ default INF m' <= len)
  /\ (default INF m' = default INF m
      \/ exists b, b ∈ buffer_cells
           /\ findMaxWireLength wireSignalResistance driveResistance has_master
                bufferWireDelay fuel b corner = Some (default INF m')).
Proof.
  induction buffer_cells as [| b bs IH]; intros m m' H; simpl in H.
  - injection H as <-. split; [| split; [| split]].
    + split; [now left | intros [Hm | Hne]; [exact Hm | congruence]].
    + lra.
    + intros b Hb. inversion Hb.
    + now left.
  - destruct (findMaxWireLength _ _ _ _ fuel b corner) as [len |] eqn:El; [| discriminate].
    apply IH in H as (Hs & Hle & Hall & Hex). simpl in Hle, Hex.
    destruct (fmin_cases (default INF m) len) as [[Em Hm] | [Em Hm]]; rewrite Em in *.
    + split; [| split; [| split]].
      * rewrite Hs. split; [intros _; now right | intros _; left; eauto].
      * lra.
      * intros b' Hb'. apply elem_of_cons in Hb' as [-> | Hb'].
        -- exists len. split; [exact El | exact Hle].
        -- destruct (Hall b' Hb') as (len' & Hl' & Hle'). exists len'. split; [exact Hl' | exact Hle'].
      * right. destruct Hex as [Hex | (b' & Hb' & Hl')].
        -- exists b. split; [now left |]. now rewrite Hex.
        -- exists b'. split; [now right | exact Hl'].
    + split; [| split; [| split]].
      * rewrite Hs. split; [intros _; now right | intros _; left; eauto].
      * lra.
      * intros b' Hb'. apply elem_of_cons in Hb' as [-> | Hb'].
        -- exists len. split; [exact El | lra].
        -- destruct (Hall b' Hb') as (len' & Hl' & Hle'). exists len'. split; [exact Hl' | exact Hle'].
      * destruct Hex as [Hex | (b' & Hb' & Hl')]; [now left |].
        right. exists b'. split; [now right | exact Hl'].
Qed.

Lemma corner_lengths_spec INF fuel buffer_cells corners : forall m m',
  corner_lengths wireSignalResistance driveResistance has_master bufferWireDelay
    INF fuel corners buffer_cells m = Some m' ->
  (is_Some m' <->
     is_Some m
     \/ buffer_cells <> [] /\ exists corner, corner ∈ corners /\ 0 < wireSignalResistance corner)
  /\ default INF m' <= default INF m
  /\ (forall corner b, corner ∈ corners -> 0 < wireSignalResistance corner ->
        b ∈ buffer_cells ->
        exists len, findMaxWireLength wireSignalResistance driveResistance has_master
                      bufferWireDelay fuel b corner = Some len
                    /\ default INF m' <= len)
  /\ (default INF m' = default INF m
      \/ exists corner b, corner ∈ corners /\ 0 < wireSignalResistance corner
           /\ b ∈ buffer_cells
           /\ findMaxWireLength wireSignalResistance driveResistance has_master
                bufferWireDelay fuel b corner = Some (default INF m')).
Proof.
  induction corners as [| corner corners IH]; intros m m' H; simpl in H.
  - injection H as <-. split; [| split; [| split]].
    + split; [now left |]. intros [Hm | [_ (corner & Hc & _)]]; [exact Hm | inversion Hc].
    + lra.
    + intros corner b Hc. inversion Hc.
    + now left.
  - destruct (Qle_bool (wireSignalResistance corner) 0) eqn:Er.
    + apply Qle_bool_iff in Er.
      apply IH in H as (Hs & Hle & Hall & Hex). split; [| split; [| split]].
      * rewrite Hs. split.
        -- intros [Hm | [Hne (c & Hc & Hp)]]; [now left |].
           right. split; [exact Hne |]. exists c. split; [now right | exact Hp].
        -- intros [Hm | [Hne (c & Hc & Hp)]]; [now left |].
           apply elem_of_cons in Hc as [-> | Hc]; [lra |].
           right. split; [exact Hne |]. now exists c.
      * exact Hle.
      * intros c b Hc Hp Hb. apply elem_of_cons in Hc as [-> | Hc]; [lra |].
        now apply (Hall c b).
      * destruct Hex as [Hex | (c & b & Hc & Hp & Hb & Hl)]; [now left |].
        right. exists c, b. split; [now right |]. auto.
    + assert (Hpos : 0 < wireSignalResistance corner).
      { apply Qnot_le_lt. intros Hle. apply Qle_bool_iff in Hle. congruence. }
      destruct (buffer_lengths _ _ _ _ INF fuel corner buffer_cells m) as [m1 |] eqn:Eb;
        [| discriminate].
      apply buffer_lengths_spec in Eb as (Hs1 & Hle1 & Hall1 & Hex1).
      apply IH in H as (Hs & Hle & Hall & Hex). split; [| split; [| split]].
      * rewrite Hs, Hs1. split.
        -- intros [[Hm | Hne] | [Hne (c & Hc & Hp)]]; [now left | |].
           ++ right. split; [exact Hne |]. exists corner. split; [now left | exact Hpos].
           ++ right. split; [exact Hne |]. exists c. split; [now right | exact Hp].
        -- intros [Hm | [Hne (c & Hc & Hp)]]; [now left; left |]. left. now right.
      * lra.
      * intros c b Hc Hp Hb. apply elem_of_cons in Hc as [-> | Hc]; [| now apply (Hall c b)].
        destruct (Hall1 b Hb) as (len & Hl & Hlen). exists len. split; [exact Hl | lra].
      * destruct Hex as [Hex | (c & b & Hc & Hp & Hb & Hl)].
        -- rewrite Hex. destruct Hex1 as [Hex1 | (b & Hb & Hl)]; [now left |].
           right. exists corner, b. split; [now left |]. auto.
        -- right. exists c, b. split; [now right |]. auto.
Qed.

(** X30. What [findMaxWireLength1] returns is the smallest length over the
    corners with a positive wire resistance and the buffer cells: it is at
    most [INF] and at most the length [findMaxWireLength] finds for each of
    them, and it is [INF] or one of these lengths. It returns only when
    there is a buffer cell and a corner with a positive wire resistance. *)
Theorem findMaxWireLength1_shortest (INF : Q) (fuel : nat) (corners : list Corner)
    (buffer_cells : list LibertyCell) (max_length : Q) :
  findMaxWireLength1 wireSignalResistance driveResistance has_master bufferWireDelay
    INF fuel corners buffer_cells = Some max_length ->
  max_length <= INF
  /\ buffer_cells <> []
  /\ (exists corner, corner ∈ corners /\ 0 < wireSignalResistance corner)
  /\ (forall corner b, corner ∈ corners -> 0 < wireSignalResistance corner ->
        b ∈ buffer_cells ->
        exists len, findMaxWireLength wireSignalResistance driveResistance has_master
                      bufferWireDelay fuel b corner = Some len
                    /\ max_length <= len)
  /\ (max_length = INF
      \/ exists corner b, corner ∈ corners /\ 0 < wireSignalResistance corner
           /\ b ∈ buffer_cells
           /\ findMaxWireLength wireSignalResistance driveResistance has_master
                bufferWireDelay fuel b corner = Some max_length).
Proof.
  intros H. unfold findMaxWireLength1 in H.
  destruct (corner_lengths _ _ _ _ INF fuel corners buffer_cells None) as [[v |] |] eqn:E;
    try discriminate.
  injection H as ->.
  apply corner_lengths_spec in E as (Hs & Hle & Hall & Hex). simpl in *.
  destruct (proj1 Hs ltac:(eauto)) as [[x Hx] | [Hne Hc]]; [discriminate |].
  split; [exact Hle |]. split; [exact Hne |]. split; [exact Hc |]. split; [exact Hall | exact Hex].
Qed.

End MaxWireLengthFacts.

(** ** The properties on the small design *)

Lemma replaceCell_missing_master_witness :
  replaceCell "u1" (Design.nand2 "NAND2_X8") true Design.the_resizer
  = Some (false, Design.the_resizer)
  /\ (false = false
      <-> db_masters (netlist Design.the_resizer) !! cell_name (Design.nand2 "NAND2_X8") = None).
Proof.
  assert (Hm : db_masters (netlist Design.the_resizer) !! "NAND2_X8" = None)
    by (vm_compute; reflexivity).
  assert (H : replaceCell "u1" (Design.nand2 "NAND2_X8") true Design.the_resizer
              = Some (false, Design.the_resizer)).
  { unfold replaceCell. cbn [cell_name Design.nand2]. rewrite Hm. reflexivity. }
  split; [exact H |].
  exact (proj1 (replaceCell_missing_master _ _ _ _ _ _ H)).
Defined.



Lemma replaceCell_invalidates_witness :
  replaceCell "u1" Design.NAND2_X2 true (journalBegin Design.the_resizer)
  = Some (true, Design.resized_once)
  /\ "n2" ∈ parasitics_invalid_ Design.resized_once.
Proof.
  assert (H : replaceCell "u1" Design.NAND2_X2 true (journalBegin Design.the_resizer)
              = Some (true, Design.resized_once))
    by (apply some_pair_eta; vm_compute; reflexivity).
  split; [exact H |].
  destruct (replaceCell_invalidates "u1" Design.NAND2_X2 true
              (journalBegin Design.the_resizer) Design.resized_once
              (Design.master_of Design.NAND2_X2) H) as (_ & _ & Hall).
  - vm_compute. reflexivity.
  - apply (Hall eq_refl "ZN" "n2" Design.output).
    + change ("ZN" ∈ ["A1"; "A2"; "ZN"]).
      do 2 apply list_elem_of_further. apply list_elem_of_here.
    + vm_compute. reflexivity.
    + vm_compute. reflexivity.
    + reflexivity.
Defined.


Lemma resizeToTargetSlew_same_cell_witness :
  libertyCell Design.u1_resized "u1" = Some Design.NAND2_X2
  /\ exists r',
       resizeToTargetSlew (ITermPin "u1" "ZN") Design.u1_resized = Some (0%Z, r')
       /\ journal_ r' = journal_ Design.u1_resized.
Proof.
  assert (Hc : libertyCell Design.u1_resized "u1" = Some Design.NAND2_X2)
    by (vm_compute; reflexivity).
  split; [exact Hc |].
  destruct (resizeToTargetSlew_same_cell "u1" "ZN" Design.u1_resized Design.NAND2_X2 Hc)
    as (r' & H & _ & _ & Hj & _).
  - vm_compute. reflexivity.
  - exists r'. now split.
Defined.

Lemma removeBuffer_removed_only_if_witness :
  removeBuffer "b2" false false Design.the_resizer = Some (true, Design.b2_removed)
  /\ "b2" ∉ sdc_insts (engine Design.the_resizer).
Proof.
  assert (H : removeBuffer "b2" false false Design.the_resizer
              = Some (true, Design.b2_removed))
    by (apply some_pair_eta; vm_compute; reflexivity).
  split; [exact H |].
  destruct (removeBuffer_removed_only_if _ _ _ _ _ H)
    as (lc & di & i & o & idb & odb & _ & _ & _ & _ & _ & _ & _ & _ & _ & _ & _ & _ & Hs).
  exact Hs.
Defined.

Lemma removeBuffer_auto_refusal_witness :
  removeBuffer "b3" true false Design.the_resizer = Some (false, Cases.b3_kept)
  /\ (Cases.b3_kept = Design.the_resizer
      \/ (false = true /\ Cases.b3_kept = journalRemoveBuffer "b3" Design.the_resizer)).
Proof.
  assert (H : removeBuffer "b3" true false Design.the_resizer
              = Some (false, Cases.b3_kept))
    by (apply some_pair_eta; vm_compute; reflexivity).
  split; [exact H |].
  exact (removeBuffer_auto_refusal _ _ _ _ H).
Defined.

Lemma removeBuffer_manual_refusal_witness :
  removeBuffer "b1" false true Design.the_resizer = Some (false, Design.b1_kept)
  /\ db_nets (netlist Design.b1_kept) !! "n1" = Some {| net_doNotTouch := false |}
  /\ exists data, removed_buffer_map_ (journal_ Design.b1_kept) !! "b1" = Some data
                  /\ bd_lib_cell data = Design.BUF_X1.
Proof.
  assert (H : removeBuffer "b1" false true Design.the_resizer
              = Some (false, Design.b1_kept))
    by (apply some_pair_eta; vm_compute; reflexivity).
  split; [exact H |].
  destruct (removeBuffer_manual_refusal "b1" true Design.the_resizer Design.b1_kept
              Design.BUF_X1 "n_in" "n1" H) as (_ & _ & Hout & Hrec).
  - vm_compute. reflexivity.
  - reflexivity.
  - vm_compute. reflexivity.
  - vm_compute. reflexivity.
  - vm_compute. reflexivity.
  - split; [exact Hout | exact (Hrec eq_refl)].
Defined.

Lemma removeBuffers_count_witness :
  removeBuffers [] false Design.the_resizer = Some (1%Z, Cases.buffers_removed)
  /\ 1%Z = Z.of_nat (size (dom (db_insts (netlist Design.the_resizer))
                           ∖ dom (db_insts (netlist Cases.buffers_removed)))).
Proof.
  assert (H : removeBuffers [] false Design.the_resizer
              = Some (1%Z, Cases.buffers_removed))
    by (apply some_pair_eta; vm_compute; reflexivity).
  split; [exact H |].
  destruct (removeBuffers_count [] false Design.the_resizer Cases.buffers_removed 1 H)
    as (_ & Hn & _).
  - simpl. lia.
  - vm_compute. reflexivity.
  - exact Hn.
Defined.

Lemma journal_calls_consistent_witness :
  journal_consistent
    (journal_ (fold_left journal_call
                 [CallBegin; CallMakeBuffer "b9"; CallSwapPins "u1" Cases.A1 Cases.A2;
                  CallInstReplaceCellBefore "u1"; CallRestore Design.some_counters;
                  CallMakeBuffer "b9"]
                 Design.the_resizer)).
Proof.
  refine (proj1 (journal_calls_consistent _ Design.the_resizer _)).
  exact (journal_consistent_clear Design.no_logs).
Defined.

Lemma swapPins_exchanges_witness :
  swapPins "u1" Cases.A1 Cases.A2 true Design.the_resizer = Some Cases.u1_swapped
  /\ net_of_pin (netlist Cases.u1_swapped) (ITermPin "u1" "A1") = Some "n4"
  /\ net_of_pin (netlist Cases.u1_swapped) (ITermPin "u1" "A2") = Some "n1".
Proof.
  assert (H : swapPins "u1" Cases.A1 Cases.A2 true Design.the_resizer
              = Some Cases.u1_swapped)
    by (apply some_default; vm_compute; reflexivity).
  split; [exact H |].
  destruct (swapPins_exchanges "u1" Cases.A1 Cases.A2 true Design.the_resizer
              Cases.u1_swapped ["A1"; "A2"; "ZN"] "n1" "n4" H) as (H1 & H2 & _).
  - vm_compute. reflexivity.
  - apply list_elem_of_here.
  - apply list_elem_of_further, list_elem_of_here.
  - discriminate.
  - vm_compute. reflexivity.
  - vm_compute. reflexivity.
  - split; [exact H1 | exact H2].
Defined.

Lemma swapPins_twice_witness :
  swapPins "u1" Cases.A1 Cases.A2 false Cases.u1_swapped = Some Cases.u1_swapped_back
  /\ netlist Cases.u1_swapped_back = netlist Design.the_resizer.
Proof.
  assert (H : swapPins "u1" Cases.A1 Cases.A2 true Design.the_resizer
              = Some Cases.u1_swapped)
    by (apply some_default; vm_compute; reflexivity).
  assert (H' : swapPins "u1" Cases.A1 Cases.A2 false Cases.u1_swapped
               = Some Cases.u1_swapped_back)
    by (apply some_default; vm_compute; reflexivity).
  split; [exact H' |].
  apply (swapPins_twice "u1" Cases.A1 Cases.A2 true false Design.the_resizer
           Cases.u1_swapped Cases.u1_swapped_back ["A1"; "A2"; "ZN"] "n1" "n4" H H').
  - vm_compute. reflexivity.
  - apply list_elem_of_here.
  - apply list_elem_of_further, list_elem_of_here.
  - vm_compute. reflexivity.
  - vm_compute. reflexivity.
Defined.

Lemma findSwapPinCandidate_fastest_witness :
  findSwapPinCandidate (delay_env Design.the_engine) Cases.is_input Cases.same_port
    Cases.A1 (Design.fF 5) Cases.skewed Cases.ZN [Cases.A1; Cases.A2; Cases.ZN] None
  = Some Cases.A2
  /\ first_delay (delay_env Design.the_engine) (Design.fF 5)
       (drvr_arcs Cases.skewed Cases.ZN) Cases.A2 = Some 1
  /\ input_delay (delay_env Design.the_engine) Cases.A1 (Design.fF 5)
       (drvr_arcs Cases.skewed Cases.ZN) == 3.
Proof.
  assert (Hrefl : forall p, Cases.same_port p p = true)
    by (intros p; apply bool_decide_eq_true_2; reflexivity).
  pose proof (findSwapPinCandidate_fastest (delay_env Design.the_engine) Cases.is_input
                Cases.same_port Cases.A1 (Design.fF 5) Cases.skewed Cases.ZN
                [Cases.A1; Cases.A2; Cases.ZN] None Hrefl) as H.
  cbv zeta in H.
  split; [| split; [vm_compute; reflexivity | vm_compute; reflexivity]].
  destruct H as [[H _] | (p & d & H & _)].
  - vm_compute in H. discriminate H.
  - vm_compute. reflexivity.
Defined.

Lemma gateDelays_overloads_agree_witness :
  gateDelays_in_slews (delay_env Design.the_engine) Design.NAND2_X1 Cases.ZN (Design.fF 5)
    (tgt_slews_ (delay_env Design.the_engine))
  = gateDelays (delay_env Design.the_engine) Design.NAND2_X1 Cases.ZN (Design.fF 5).
Proof.
  apply gateDelays_overloads_agree.
  intros arc _. unfold arc_in_slew. cbn [delay_env Design.the_engine input_slew_map_].
  rewrite lookup_empty. reflexivity.
Defined.


Lemma closestDriver_closest_witness :
  closestDriver Design.the_resizer (fun _ => false) (fun _ => false) (fun _ => false)
    (fun _ => false) Cases.limit_of Design.BUF_X1 [Design.BUF_X2; Design.BUF_X4] 4
  = Some (Some Design.BUF_X4)
  /\ Design.BUF_X4 ∈ [Design.BUF_X2; Design.BUF_X4].
Proof.
  assert (H : closestDriver Design.the_resizer (fun _ => false) (fun _ => false)
                (fun _ => false) (fun _ => false) Cases.limit_of Design.BUF_X1
                [Design.BUF_X2; Design.BUF_X4] 4
              = Some (Some Design.BUF_X4)) by (vm_compute; reflexivity).
  split; [exact H |].
  exact (proj1 (closestDriver_closest _ _ _ _ _ _ _ _ _ _ H)).
Defined.

Lemma maxLoad_tightest_witness :
  maxLoad (fun a b => Qltb b a) (Some (1 # 2)) None [Cases.limited_port] <= (3 # 10).
Proof.
  destruct (maxLoad_tightest (fun a b => Qltb b a) (Some (1 # 2)) None [Cases.limited_port])
    as (_ & _ & H).
  - intros a b. reflexivity.
  - destruct (H Cases.limited_port [] eq_refl) as [_ Hle].
    + left. eexists. reflexivity.
    + apply Hle. do 2 apply list_elem_of_further. apply list_elem_of_here.
Defined.

Lemma tieLocation_nearest_side_witness :
  tieLocation (10, 50)%Z (Some Cases.core) 5 = Some (5, 50)%Z
  /\ nearest (Z.abs (10 - xMin Cases.core)) (Z.abs (10 - xMax Cases.core))
       (Z.abs (50 - yMin Cases.core)) (Z.abs (50 - yMax Cases.core)).
Proof.
  assert (H : tieLocation (10, 50)%Z (Some Cases.core) 5 = Some (5, 50)%Z)
    by (vm_compute; reflexivity).
  split; [exact H |].
  destruct (tieLocation_nearest_side _ _ _ _ _ H)
    as [[Hn _] | [[_ He] | [[_ He] | [[_ He] | (_ & _ & _ & _ & He)]]]];
    [exact Hn | discriminate He ..].
Defined.

Lemma setLocation_inside_core_witness :
  exists x y moved,
    setLocation true Cases.core 100 200 (950, -5)%Z false = Some (x, y, moved)
    /\ (xMin Cases.core <= x <= xMax Cases.core - 100)%Z
    /\ (yMin Cases.core <= y <= yMax Cases.core - 200)%Z
    /\ moved = false || negb (bool_decide ((x, y) = (950, -5)%Z))
    /\ setLocation true Cases.core 100 200 (x, y) moved = Some (x, y, moved).
Proof.
  apply (setLocation_inside_core Cases.core 100 200 (950, -5)%Z false).
  - unfold is_int. simpl. lia.
  - unfold is_int. simpl. lia.
  - simpl. lia.
  - simpl. lia.
Defined.

Lemma makeUniqueNetName_fresh_witness :
  makeUniqueNetName Cases.named 11 0 = Some ("net2", 3%Z)
  /\ exists k : nat,
       db_nets (netlist Cases.named) !! net_name (0 + Z.of_nat k) = None
       /\ makeUniqueNetName Cases.named 11 0
          = Some (net_name (0 + Z.of_nat k), (0 + Z.of_nat k + 1)%Z).
Proof.
  split; [vm_compute; reflexivity |].
  destruct (makeUniqueNetName_fresh Cases.named 0) as (k & _ & Hfree & _ & Hloop).
  - lia.
  - unfold is_int. vm_compute. split; [discriminate | reflexivity].
  - exists k. split; [exact Hfree |]. apply Hloop. vm_compute. lia.
Defined.

Lemma makeUniqueInstName_fresh_witness :
  makeUniqueInstName Design.the_resizer "b" false 6 1 = Some ("b4", 5%Z)
  /\ exists k : nat,
       db_insts (netlist Design.the_resizer) !! inst_name "b" false (1 + Z.of_nat k) = None
       /\ makeUniqueInstName Design.the_resizer "b" false 6 1
          = Some (inst_name "b" false (1 + Z.of_nat k), (1 + Z.of_nat k + 1)%Z).
Proof.
  split; [vm_compute; reflexivity |].
  destruct (makeUniqueInstName_fresh Design.the_resizer "b" false 1)
    as (k & _ & Hfree & _ & Hloop).
  - lia.
  - unfold is_int. vm_compute. split; [discriminate | reflexivity].
  - exists k. split; [exact Hfree |]. apply Hloop. vm_compute. lia.
Defined.

Lemma eliminateDeadLogic_removes_dead_witness :
  eliminateDeadLogic Cases.drivers_on Cases.drivers_at Cases.no_pins Cases.with_dead 7 true
  = Some (1%Z, 1%Z, Cases.dead_removed)
  /\ ~ live Cases.drivers_on Cases.drivers_at Cases.with_dead (Some "d1")
  /\ 1%Z = Z.of_nat (size (dom (db_insts (netlist Cases.with_dead))
                           ∖ dom (db_insts (netlist Cases.dead_removed)))).
Proof.
  assert (H : eliminateDeadLogic Cases.drivers_on Cases.drivers_at Cases.no_pins
                Cases.with_dead 7 true
              = Some (1%Z, 1%Z, Cases.dead_removed))
    by (apply (some_pair_eta _ (1%Z, 1%Z)); vm_compute; reflexivity).
  split; [exact H |].
  destruct (eliminateDeadLogic_removes_dead Cases.drivers_on Cases.drivers_at
              Cases.no_pins Cases.with_dead 7 true 1 1 Cases.dead_removed H)
    as (Hinsts & Hn & _).
  - vm_compute. reflexivity.
  - split; [| exact Hn].
    intros Hlive.
    assert (Hd : db_insts (netlist Cases.dead_removed) !! "d1"
                 = Some (Design.an_inst "BUF_X1")).
    { apply Hinsts. split; [vm_compute; reflexivity | exact Hlive]. }
    revert Hd. vm_compute. discriminate.
Defined.

Lemma eliminateDeadLogic_terminates_witness :
  complete Cases.drivers_on Cases.drivers_at Cases.with_dead
  /\ is_Some (eliminateDeadLogic Cases.drivers_on Cases.drivers_at Cases.no_pins
                Cases.with_dead 7 false).
Proof.
  assert (Hdrv : forall p i q, Cases.is_driver p = true -> p = ITermPin i q ->
                   is_Some (db_insts (netlist Cases.with_dead) !! i)).
  { intros p i q Hp ->. unfold Cases.is_driver, libertyPort_direction, libertyCell in Hp.
    destruct (db_insts (netlist Cases.with_dead) !! i); [eauto | discriminate]. }
  assert (Hon : forall net i q, ITermPin i q ∈ Cases.drivers_on net ->
                  is_Some (db_insts (netlist Cases.with_dead) !! i)).
  { intros net i q Hin. unfold Cases.drivers_on in Hin.
    destruct (proj1 (filter_In Cases.is_driver (ITermPin i q)
                       (connectedPins (netlist Cases.with_dead) net))
                (proj1 (list_elem_of_In _ _) Hin)) as [_ Hd].
    exact (Hdrv (ITermPin i q) i q Hd eq_refl). }
  assert (Hc : complete Cases.drivers_on Cases.drivers_at Cases.with_dead).
  { split; [| split; [| split]].
    + apply (bool_decide_unpack
               (map_Forall (fun _ di => is_Some (db_masters (netlist Cases.with_dead)
                                                   !! inst_master di))
                  (db_insts (netlist Cases.with_dead)))).
      vm_compute. reflexivity.
    + intros i q net Hnet.
      apply (bool_decide_unpack
               (map_Forall (fun _ net => is_Some (db_nets (netlist Cases.with_dead) !! net))
                  (iterm_net (netlist Cases.with_dead)))) with (i := (i, q));
        [vm_compute; reflexivity | exact Hnet].
    + exact Hon.
    + intros pin i q Hin. unfold Cases.drivers_at in Hin.
      destruct (net_of_pin (netlist Cases.with_dead) pin) as [net |];
        [now apply (Hon net i q) | inversion Hin]. }
  split; [exact Hc |].
  apply eliminateDeadLogic_terminates; [exact Hc | vm_compute; lia].
Defined.


Lemma findMaxWireLength_bracket_witness :
  findMaxWireLength Cases.wire_resistance Cases.drive_resistance (fun _ => true)
    Cases.wire_delay 12 Design.BUF_X1 "typ" = Some Cases.wire_length
  /\ exists upper : Q,
       0 <= Cases.wire_length /\ Cases.wire_length < upper
       /\ (Cases.wire_length = 0
           \/ Cases.wire_delay Design.BUF_X1 Cases.wire_length
              < Cases.wire_delay Design.BUF_X1 (Cases.wire_length / 2) * 2)
       /\ Cases.wire_delay Design.BUF_X1 (upper / 2) * 2
          <= Cases.wire_delay Design.BUF_X1 upper
       /\ upper - Cases.wire_length <= upper * (1 # 100).
Proof.
  assert (H : findMaxWireLength Cases.wire_resistance Cases.drive_resistance
                (fun _ => true) Cases.wire_delay 12 Design.BUF_X1 "typ"
              = Some Cases.wire_length)
    by (apply some_default; vm_compute; reflexivity).
  split; [exact H |].
  apply (findMaxWireLength_bracket Cases.wire_resistance Cases.drive_resistance
           (fun _ => true) Cases.wire_delay 12 Design.BUF_X1 "typ" Cases.wire_length H).
  - vm_compute. reflexivity.
  - vm_compute. reflexivity.
Defined.

Lemma findMaxWireLength1_shortest_witness :
  findMaxWireLength1 Cases.wire_resistance Cases.drive_resistance (fun _ => true)
    Cases.wire_delay (INF (delay_env Design.the_engine)) 12 ["slow"; "typ"]
    [Design.BUF_X1; Design.BUF_X2] = Some Cases.shortest_wire
  /\ Cases.shortest_wire <= INF (delay_env Design.the_engine).
Proof.
  assert (H : findMaxWireLength1 Cases.wire_resistance Cases.drive_resistance
                (fun _ => true) Cases.wire_delay (INF (delay_env Design.the_engine)) 12
                ["slow"; "typ"] [Design.BUF_X1; Design.BUF_X2]
              = Some Cases.shortest_wire)
    by (apply some_default; vm_compute; reflexivity).
  split; [exact H |].
  exact (proj1 (findMaxWireLength1_shortest Cases.wire_resistance Cases.drive_resistance
                  (fun _ => true) Cases.wire_delay (INF (delay_env Design.the_engine)) 12
                  ["slow"; "typ"] [Design.BUF_X1; Design.BUF_X2] Cases.shortest_wire H)).
Defined.
